(** * ed25519-ts: a shallow embedding of the EdDSA / Ristretto255 core

    The TypeScript sources ([math.ts], [serialization.ts], [points.ts],
    [key-utils.ts], [curve.ts], [hash.ts], [signing.ts], [index.ts]) are
    embedded function by function.  Big integers ([BIT]) are [Z]; the two
    integer back-ends shipped with / tested by the repository (JSBI objects
    and native [bigint]) compute the same values and differ only in JavaScript
    truthiness, which is kept as a parameter ([Backend]).  Exceptions are an
    explicit [result]; the precompute registry and object identities are
    threaded as explicit state. *)

From Stdlib Require Import ZArith List Bool Lia String Ascii Setoid Morphisms.
From Stdlib.Strings Require Import Byte.
Import ListNotations.
Local Open Scope Z_scope.

Set Implicit Arguments.

(* ------------------------------------------------------------------ *)
(** ** Exceptions *)

Inductive exn : Type :=
| TypeError (msg : string)
| Error (msg : string)
| RangeError (msg : string).

(** Outcome of a call: a value, a thrown exception, or [OutOfFuel] when a
    loop of the model exhausted its iteration bound (an artefact of the
    embedding, shown unreachable where a claim depends on it). *)
Inductive result (A : Type) : Type :=
| Ok (a : A)
| Throw (e : exn)
| OutOfFuel.
Arguments Ok {A} a.
Arguments Throw {A} e.
Arguments OutOfFuel {A}.

Definition rbind {A B} (r : result A) (k : A -> result B) : result B :=
  match r with
  | Ok a => k a
  | Throw e => Throw e
  | OutOfFuel => OutOfFuel
  end.

Definition is_ok {A} (r : result A) : bool :=
  match r with Ok _ => true | _ => false end.

Declare Scope result_scope.
Delimit Scope result_scope with result.
Notation "x <- r ;; k" := (rbind r (fun x => k))
  (at level 61, r at next level, right associativity) : result_scope.

Fixpoint mapM {A B} (f : A -> result B) (l : list A) : result (list B) :=
  match l with
  | [] => Ok []
  | a :: l' =>
      (b <- f a ;;
       bs <- mapM f l' ;;
       Ok (b :: bs))%result
  end.

(* ------------------------------------------------------------------ *)
(** ** Bytes ([Uint8Array] elements) *)

Definition b2z (b : byte) : Z := Z.of_N (Byte.to_N b).

(** Storing a number into a [Uint8Array] wraps it modulo 256. *)
Definition z2b (z : Z) : byte :=
  match Byte.of_N (Z.to_N (z mod 256)) with
  | Some b => b
  | None => x00
  end.

Definition bytes := list byte.

(* ------------------------------------------------------------------ *)
(** ** The integer back-end ([Integers<BIT>], native-bigint.ts)

    [remainder] and [divide] truncate towards zero, shifts are arithmetic
    and [bitwiseAnd] is two's complement, as for [bigint] and JSBI. *)

Inductive Backend : Type := JSBI | NativeBigInt.

Module Ints.
Definition add := Z.add.
Definition subtract := Z.sub.
Definition multiply := Z.mul.
Definition divide := Z.quot.
Definition remainder := Z.rem.
Definition unaryMinus := Z.opp.
Definition exponentiate := Z.pow.
Definition bitwiseAnd := Z.land.
Definition signedRightShift := Z.shiftr.
Definition leftShift := Z.shiftl.
Definition greaterThan := Z.gtb.
Definition greaterThanOrEqual := Z.geb.
Definition lessThan := Z.ltb.
Definition lessThanOrEqual := Z.leb.
Definition equal := Z.eqb.
Definition notEqual (a b : Z) := negb (Z.eqb a b).
Definition LT := Z.ltb.
Definition NE (a b : Z) := negb (Z.eqb a b).

(** JavaScript truthiness of a [BIT]: a JSBI value is an object (always
    truthy), a native [bigint] is truthy unless it is [0n]. *)
Definition truthy (be : Backend) (a : Z) : bool :=
  match be with
  | JSBI => true
  | NativeBigInt => negb (a =? 0)
  end.
End Ints.

(* ------------------------------------------------------------------ *)
(** ** Curve parameters and Ristretto constants (curve.ts) *)

Module CURVE.
Definition a : Z := -1.
Definition d : Z :=
  37095705934669439343138083508754565189542113879843219016388785533085940283555.
Definition P : Z :=
  57896044618658097711785492504343953926634992332820282019728792003956564819949.
Definition n : Z :=
  7237005577332262213973186563042994240857116359379907606001950938285454250989.
Definition h : Z := 8.
Definition Gx : Z :=
  15112221349535400772501151409588531511454012693041857206046113283949847762202.
Definition Gy : Z :=
  46316835694926478169428394003475163141307993866256225615783033603165251855960.
End CURVE.

Module CONSTANTS.
Definition SQRT_M1 : Z :=
  19681161376707505956807079304988542015446066515923890162744021073123829784752.
Definition SQRT_AD_MINUS_ONE : Z :=
  25063068953384623474111414158702152701244531502492656460079210482610430750235.
Definition INVSQRT_A_MINUS_D : Z :=
  54469307008909316920995813868745141605393597292927456921205312896311721017578.
Definition ONE_MINUS_D_SQ : Z :=
  1159843021668779879193775521855586647937357759715417654439879720876111806838.
Definition D_MINUS_ONE_SQ : Z :=
  40440834346308536858101042469323190826248399146238708352240133220865137265952.
End CONSTANTS.

Definition B32 : Z := 32.

(* ------------------------------------------------------------------ *)
(** ** Field and scalar arithmetic (math.ts, class [MathFunctions]) *)

Module math.

(** [mod(a, b = CURVE.P)]: truncated remainder moved into [0, b). *)
Definition mod_ (a b : Z) : Z :=
  let res := Ints.remainder a b in
  if Ints.greaterThanOrEqual res 0 then res else Ints.add b res.

Definition modP (a : Z) : Z := mod_ a CURVE.P.

Definition edIsNegative (num : Z) : bool :=
  Ints.equal (Ints.bitwiseAnd (modP num) 1) 1.

(** The [while (a != 0)] loop of [invert]; the state is (a, b, x, y, u, v).
    [fuel] bounds the number of iterations; [None] means the bound was
    too small (never the case for the fuel [invert] supplies). *)
Fixpoint invert_loop (fuel : nat) (a b x y u v : Z) : option (Z * Z) :=
  if Ints.notEqual a 0 then
    match fuel with
    | O => None
    | S fuel' =>
        let q := Ints.divide b a in
        let r := Ints.remainder b a in
        let m := Ints.subtract x (Ints.multiply u q) in
        let n := Ints.subtract y (Ints.multiply v q) in
        invert_loop fuel' r a u v m n
    end
  else Some (b, x).

Definition invert_fuel (modulo : Z) : nat :=
  Z.to_nat (2 * Z.log2 modulo + 3).

Definition invert (number modulo : Z) : result Z :=
  if Ints.equal number 0 || Ints.lessThanOrEqual modulo 0 then
    Throw (Error "invert: expected positive integers")
  else
    match invert_loop (invert_fuel modulo) (mod_ number modulo) modulo 0 1 1 0 with
    | None => OutOfFuel
    | Some (gcd, x) =>
        if Ints.notEqual gcd 1 then Throw (Error "invert: does not exist")
        else Ok (mod_ x modulo)
    end.

(** [invertBatch(nums, n = CURVE.P)], Montgomery's trick.  The first loop
    fills [scratch] (entries of zero inputs stay [undefined], here [None])
    and accumulates the product; the second loop walks the array
    backwards and overwrites the non-zero entries. *)
Fixpoint invertBatch_fwd (nums : list Z) (n acc : Z) : list (option Z) * Z :=
  match nums with
  | [] => ([], acc)
  | num :: rest =>
      if Ints.equal num 0 then
        let '(scratch, acc') := invertBatch_fwd rest n acc in
        (None :: scratch, acc')
      else
        let '(scratch, acc') :=
          invertBatch_fwd rest n (mod_ (Ints.multiply acc num) n) in
        (Some acc :: scratch, acc')
  end.

(** Backward loop, given the array and scratch in reverse index order. *)
Fixpoint invertBatch_bwd (rnums : list Z) (rscratch : list (option Z))
         (n acc : Z) (done : list Z) : list Z :=
  match rnums, rscratch with
  | num :: rnums', sc :: rscratch' =>
      if Ints.equal num 0 then invertBatch_bwd rnums' rscratch' n acc (num :: done)
      else
        let tmp := mod_ (Ints.multiply acc num) n in
        let inv := mod_ (Ints.multiply acc (match sc with Some s => s | None => 0 end)) n in
        invertBatch_bwd rnums' rscratch' n tmp (inv :: done)
  | _, _ => done
  end.

Definition invertBatch (nums : list Z) (n : Z) : result (list Z) :=
  let '(scratch, acc) := invertBatch_fwd nums n 1 in
  (acc' <- invert acc n ;;
   Ok (invertBatch_bwd (rev nums) (rev scratch) n acc' []))%result.

(** [pow2(x, power)]: [power] squarings, each followed by [remainder]. *)
Definition pow2 (x power : Z) : Z :=
  Z.iter power (fun res => Ints.remainder (Ints.multiply res res) CURVE.P) x.

Definition pow_2_252_3 (x : Z) : Z :=
  let P := CURVE.P in
  let x2 := Ints.remainder (Ints.multiply x x) P in
  let b2 := Ints.remainder (Ints.multiply x2 x) P in
  let b4 := Ints.remainder (Ints.multiply (pow2 b2 2) b2) P in
  let b5 := Ints.remainder (Ints.multiply (pow2 b4 1) x) P in
  let b10 := Ints.remainder (Ints.multiply (pow2 b5 5) b5) P in
  let b20 := Ints.remainder (Ints.multiply (pow2 b10 10) b10) P in
  let b40 := Ints.remainder (Ints.multiply (pow2 b20 20) b20) P in
  let b80 := Ints.remainder (Ints.multiply (pow2 b40 40) b40) P in
  let b160 := Ints.remainder (Ints.multiply (pow2 b80 80) b80) P in
  let b240 := Ints.remainder (Ints.multiply (pow2 b160 80) b80) P in
  let b250 := Ints.remainder (Ints.multiply (pow2 b240 10) b10) P in
  let pow_p_5_8 := Ints.remainder (Ints.multiply (pow2 b250 2) x) P in
  pow_p_5_8.

Record UvRatio : Type := { isValid : bool; value : Z }.

Definition uvRatio (u v : Z) : UvRatio :=
  let v3 := modP (Ints.multiply (Ints.multiply v v) v) in
  let v7 := modP (Ints.multiply (Ints.multiply v3 v3) v) in
  let x := modP (Ints.multiply (Ints.multiply u v3)
                               (pow_2_252_3 (Ints.multiply u v7))) in
  let vx2 := modP (Ints.multiply (Ints.multiply v x) x) in
  let root1 := x in
  let root2 := modP (Ints.multiply x CONSTANTS.SQRT_M1) in
  let useRoot1 := Ints.equal vx2 u in
  let useRoot2 := Ints.equal vx2 (modP (Ints.unaryMinus u)) in
  let noRoot :=
    Ints.equal vx2 (modP (Ints.multiply (Ints.unaryMinus u) CONSTANTS.SQRT_M1)) in
  let x := if useRoot1 then root1 else x in
  let x := if useRoot2 || noRoot then root2 else x in
  let x := if edIsNegative x then modP (Ints.unaryMinus x) else x in
  {| isValid := useRoot1 || useRoot2; value := x |}.

Definition invertSqrt (number : Z) : UvRatio := uvRatio 1 number.

End math.

(* ------------------------------------------------------------------ *)
(** ** Serialization (serialization.ts) *)

(** JavaScript numbers are modelled where they are integers; a [number]
    scalar or key is the integer it denotes. *)
Definition MAX_SAFE_INTEGER : Z := 2 ^ 53 - 1.
Definition isSafeInteger (k : Z) : bool :=
  (- MAX_SAFE_INTEGER <=? k) && (k <=? MAX_SAFE_INTEGER).

(** A value of type [number | BIT]. *)
Inductive NumOrBig : Type :=
| Big (b : Z)
| Num (k : Z).

Definition hexChar (dgt : Z) : ascii :=
  match dgt with
  | 0 => "0" | 1 => "1" | 2 => "2" | 3 => "3" | 4 => "4" | 5 => "5"
  | 6 => "6" | 7 => "7" | 8 => "8" | 9 => "9" | 10 => "a" | 11 => "b"
  | 12 => "c" | 13 => "d" | 14 => "e" | _ => "f"
  end%char.

(** Hexadecimal digits of a non-negative integer, most significant first,
    pushed in front of [acc]. *)
Fixpoint hexDigits (fuel : nat) (k : Z) (acc : string) : string :=
  let acc' := String (hexChar (k mod 16)) acc in
  match fuel with
  | O => acc'
  | S fuel' => if k <? 16 then acc' else hexDigits fuel' (k / 16) acc'
  end.

(** [num.toString(16)]. *)
Definition toString16 (k : Z) : string :=
  if k <? 0 then String "-"%char (hexDigits (Z.to_nat (Z.log2 (- k))) (- k) EmptyString)
  else hexDigits (Z.to_nat (Z.log2 k)) k EmptyString.

Definition strlen (s : string) : Z := Z.of_nat (String.length s).

Fixpoint repeatChar (c : ascii) (k : nat) : string :=
  match k with
  | O => EmptyString
  | S k' => String c (repeatChar c k')
  end.

(** [s.padStart(len, '0')]. *)
Definition padStart0 (s : string) (len : Z) : string :=
  (repeatChar "0"%char (Z.to_nat (len - strlen s)) ++ s)%string.

Definition hexVal (c : ascii) : option Z :=
  let k := Z.of_nat (nat_of_ascii c) in
  if (48 <=? k) && (k <=? 57) then Some (k - 48)
  else if (97 <=? k) && (k <=? 102) then Some (k - 87)
  else if (65 <=? k) && (k <=? 70) then Some (k - 55)
  else None.

Definition isWhiteSpace (c : ascii) : bool :=
  let k := Z.of_nat (nat_of_ascii c) in
  (k =? 32) || ((9 <=? k) && (k <=? 13)) || (k =? 160).

(** [Number.parseInt(s, 16)] on the slices [hexToBytes] and [toRawBytes]
    hand to it (at most two characters): leading white space, an optional
    sign, an optional [0x] prefix, then the longest run of hexadecimal
    digits; [None] is [NaN]. *)
Fixpoint parseDigits (s : string) (acc : option Z) : option Z :=
  match s with
  | EmptyString => acc
  | String c s' =>
      match hexVal c with
      | Some v => parseDigits s' (Some (16 * (match acc with Some a => a | None => 0 end) + v))
      | None => acc
      end
  end.

Definition stripHexPrefix (s : string) : string :=
  match s with
  | String "0"%char (String "x"%char s') => s'
  | String "0"%char (String "X"%char s') => s'
  | _ => s
  end.

Fixpoint stripWhiteSpace (s : string) : string :=
  match s with
  | String c s' => if isWhiteSpace c then stripWhiteSpace s' else s
  | EmptyString => s
  end.

Definition parseInt16 (s : string) : option Z :=
  match stripWhiteSpace s with
  | String "-"%char s' => option_map Z.opp (parseDigits (stripHexPrefix s') None)
  | String "+"%char s' => parseDigits (stripHexPrefix s') None
  | s' => parseDigits (stripHexPrefix s') None
  end.

(** Element store of a [Uint8Array]: [NaN] becomes 0, integers wrap. *)
Definition toUint8 (v : option Z) : byte :=
  match v with
  | Some k => z2b k
  | None => x00
  end.

Fixpoint hexPairs (s : string) : list string :=
  match s with
  | String c1 (String c2 s') => String c1 (String c2 EmptyString) :: hexPairs s'
  | _ => []
  end.

Definition hexToBytes (hex : string) : result bytes :=
  if negb (Z.rem (strlen hex) 2 =? 0) then
    Throw (Error "hexToBytes: received invalid unpadded hex")
  else Ok (map (fun pair => toUint8 (parseInt16 pair)) (hexPairs hex)).

(** [byte.toString(16).padStart(2, '0')]. *)
Definition byteToHex (b : byte) : string :=
  String (hexChar (b2z b / 16)) (String (hexChar (b2z b mod 16)) EmptyString).

Definition bytesToHex (uint8a : bytes) : string :=
  fold_right (fun b acc => (byteToHex b ++ acc)%string) EmptyString uint8a.

Module serializer.

Definition numberToHex (num : Z) : string :=
  let hex := toString16 num in
  if Z.land (strlen hex) 1 =? 1 then String "0"%char hex else hex.

Definition numberToBytesPadded (num : Z) (length : Z) : result bytes :=
  let hex := padStart0 (numberToHex num) (length * 2) in
  (bs <- hexToBytes hex ;; Ok (rev bs))%result.

Definition isValidScalar (num : NumOrBig) : bool :=
  match num with
  | Big b => Ints.greaterThan b 0
  | Num k => (k >? 0) && isSafeInteger k
  end.

(** The loop of [bytesToNumberLE], with [i] the index of the head. *)
Fixpoint bytesToNumberLE_from (i : Z) (uint8a : bytes) (value : Z) : Z :=
  match uint8a with
  | [] => value
  | b :: rest =>
      bytesToNumberLE_from (i + 1) rest
        (Ints.add value (Ints.leftShift (b2z b) (Ints.multiply 8 i)))
  end.

Definition bytesToNumberLE (uint8a : bytes) : Z :=
  bytesToNumberLE_from 0 uint8a 0.

End serializer.

Definition concatBytes (arrays : list bytes) : bytes := List.concat arrays.

Fixpoint equalBytes (b1 b2 : bytes) : bool :=
  match b1, b2 with
  | [], [] => true
  | x :: b1', y :: b2' => Byte.eqb x y && equalBytes b1' b2'
  | _, _ => false
  end.

(* ------------------------------------------------------------------ *)
(** ** Stateful computations

    Affine point objects have an identity ([ref]); the registry
    [pointPrecomputes] is a [WeakMap] keyed by it, and [_WINDOW_SIZE] is a
    mutable field of the object.  Code that touches them is a function of
    the heap; the heap survives an exception. *)

Definition ref := nat.

Fixpoint assoc_get {V} (k : ref) (m : list (ref * V)) : option V :=
  match m with
  | [] => None
  | (k', v) :: m' => if Nat.eqb k k' then Some v else assoc_get k m'
  end.

Definition assoc_delete {V} (k : ref) (m : list (ref * V)) : list (ref * V) :=
  filter (fun kv => negb (Nat.eqb k (fst kv))) m.

Definition assoc_set {V} (k : ref) (v : V) (m : list (ref * V)) : list (ref * V) :=
  (k, v) :: assoc_delete k m.

Definition M (S A : Type) : Type := S -> result A * S.

Definition ret {S A} (a : A) : M S A := fun h => (Ok a, h).

Definition bind {S A B} (m : M S A) (k : A -> M S B) : M S B :=
  fun h =>
    match m h with
    | (Ok a, h') => k a h'
    | (Throw e, h') => (Throw e, h')
    | (OutOfFuel, h') => (OutOfFuel, h')
    end.

Definition lift {S A} (r : result A) : M S A := fun h => (r, h).

Definition throw {S A} (e : exn) : M S A := fun h => (Throw e, h).

Definition gets {S A} (f : S -> A) : M S A := fun h => (Ok (f h), h).

Definition modify {S} (f : S -> S) : M S unit := fun h => (Ok tt, f h).

Declare Scope heap_scope.
Delimit Scope heap_scope with heap.
Notation "x <- m ;; k" := (bind m (fun x => k))
  (at level 61, m at next level, right associativity) : heap_scope.

(* ------------------------------------------------------------------ *)
(** ** Extended points (points.ts, [makeExtendedPointClass]) *)

(** A JavaScript object handed to [fromAffine]: the fields [x] and [y],
    and [z], [t] when the object carries them. *)
Record PointLike : Type := { obj_x : Z; obj_y : Z; obj_z : option Z; obj_t : option Z }.

Definition truthyField (be : Backend) (f : option Z) : bool :=
  match f with
  | Some v => Ints.truthy be v
  | None => false
  end.

(** The module-level constants [POINT_BASE] and [POINT_ZERO]. *)
Definition POINT_BASE_ref : ref := 0%nat.
Definition basePoint : Z * Z := (CURVE.Gx, CURVE.Gy).
Definition zeroPoint : Z * Z := (0, 0).

Definition pointEquals (p q : Z * Z) : bool :=
  Ints.equal (fst p) (fst q) && Ints.equal (snd p) (snd q).

Module ExtendedPoint.
Import math.

Record point : Type := new { x : Z; y : Z; z : Z; t : Z }.

Definition BASE : point :=
  new CURVE.Gx CURVE.Gy 1 (modP (Ints.multiply CURVE.Gx CURVE.Gy)).
Definition ZERO : point := new 0 1 1 0.

Definition asObject (p : point) : PointLike :=
  {| obj_x := x p; obj_y := y p; obj_z := Some (z p); obj_t := Some (t p) |}.

Definition fromAffine (be : Backend) (p : PointLike) : result point :=
  if negb (Ints.truthy be (obj_x p) && Ints.truthy be (obj_y p)
           && negb (truthyField be (obj_z p)) && negb (truthyField be (obj_t p)))
  then Throw (TypeError "ExtendedPoint#fromAffine: expected Point")
  else if pointEquals (obj_x p, obj_y p) zeroPoint then Ok ZERO
  else Ok (new (obj_x p) (obj_y p) 1 (modP (Ints.multiply (obj_x p) (obj_y p)))).

(** [toAffine(invZ)] with the inverse supplied, and with the default
    argument [invZ = math.invert(this.z)]. *)
Definition toAffineWith (p : point) (invZ : Z) : Z * Z :=
  (modP (Ints.multiply (x p) invZ), modP (Ints.multiply (y p) invZ)).

Definition toAffine (p : point) : result (Z * Z) :=
  (invZ <- invert (z p) CURVE.P ;; Ok (toAffineWith p invZ))%result.

Definition toAffineBatch (points : list point) : result (list (Z * Z)) :=
  (toInv <- invertBatch (map z points) CURVE.P ;;
   Ok (map (fun pi => toAffineWith (fst pi) (snd pi)) (combine points toInv)))%result.

Definition affineObject (xy : Z * Z) : PointLike :=
  {| obj_x := fst xy; obj_y := snd xy; obj_z := None; obj_t := None |}.

Definition normalizeZ (be : Backend) (points : list point) : result (list point) :=
  (affs <- toAffineBatch points ;;
   mapM (fun xy => fromAffine be (affineObject xy)) affs)%result.

Definition equals (this other : point) : bool :=
  let '(T1, T2, Z1, Z2) := (t this, t other, z this, z other) in
  Ints.equal (modP (Ints.multiply T1 Z2)) (modP (Ints.multiply T2 Z1)).

Definition ristrettoEquals (this other : point) : bool :=
  equals this other
  || Ints.equal (modP (Ints.multiply (y this) (y other)))
                (modP (Ints.multiply (x this) (x other))).

Definition negate (this : point) : point :=
  new (modP (Ints.unaryMinus (x this))) (y this) (z this)
      (modP (Ints.unaryMinus (t this))).

Definition double (this : point) : point :=
  let X1 := x this in
  let Y1 := y this in
  let Z1 := z this in
  let a := CURVE.a in
  let A := modP (Ints.multiply X1 X1) in
  let B := modP (Ints.multiply Y1 Y1) in
  let C := modP (Ints.multiply (Ints.multiply 2 Z1) Z1) in
  let D := modP (Ints.multiply a A) in
  let X1pY1 := Ints.add X1 Y1 in
  let E := modP (Ints.subtract (Ints.subtract (Ints.multiply X1pY1 X1pY1) A) B) in
  let G := modP (Ints.add D B) in
  let F := modP (Ints.subtract G C) in
  let H := modP (Ints.subtract D B) in
  let X3 := modP (Ints.multiply E F) in
  let Y3 := modP (Ints.multiply G H) in
  let T3 := modP (Ints.multiply E H) in
  let Z3 := modP (Ints.multiply F G) in
  new X3 Y3 Z3 T3.

Definition add (this other : point) : point :=
  let X1 := x this in
  let Y1 := y this in
  let Z1 := z this in
  let T1 := t this in
  let X2 := x other in
  let Y2 := y other in
  let Z2 := z other in
  let T2 := t other in
  let A := modP (Ints.multiply (Ints.subtract Y1 X1) (Ints.add Y2 X2)) in
  let B := modP (Ints.multiply (Ints.add Y1 X1) (Ints.subtract Y2 X2)) in
  let F := modP (Ints.subtract B A) in
  if Ints.equal F 0 then double this
  else
    let C := modP (Ints.multiply (Ints.multiply Z1 2) T2) in
    let D := modP (Ints.multiply (Ints.multiply T1 2) Z2) in
    let E := modP (Ints.add D C) in
    let G := modP (Ints.add B A) in
    let H := modP (Ints.subtract D C) in
    let X3 := modP (Ints.multiply E F) in
    let Y3 := modP (Ints.multiply G H) in
    let T3 := modP (Ints.multiply E H) in
    let Z3 := modP (Ints.multiply F G) in
    new X3 Y3 Z3 T3.

Definition subtract (this other : point) : point := add this (negate other).

(** *** Ristretto255 *)

Definition bytes255ToNumberLE (bytes : bytes) : Z :=
  modP (Ints.bitwiseAnd (serializer.bytesToNumberLE bytes)
                        (Ints.subtract (Ints.exponentiate 2 255) 1)).

Definition calcElligatorRistrettoMap (r0 : Z) : point :=
  let d := CURVE.d in
  let r := modP (Ints.multiply CONSTANTS.SQRT_M1 (Ints.multiply r0 r0)) in
  let Ns := modP (Ints.multiply (Ints.add r 1) CONSTANTS.ONE_MINUS_D_SQ) in
  let c := -1 in
  let D := modP (Ints.multiply (Ints.subtract c (Ints.multiply d r))
                               (modP (Ints.add r d))) in
  let uvr := uvRatio Ns D in
  let Ns_D_is_sq := isValid uvr in
  let s := value uvr in
  let s_ := modP (Ints.multiply s r0) in
  let s_ := if negb (edIsNegative s_) then modP (Ints.unaryMinus s_) else s_ in
  let s := if negb Ns_D_is_sq then s_ else s in
  let c := if negb Ns_D_is_sq then r else c in
  let Nt := modP (Ints.subtract
                    (Ints.multiply (Ints.multiply c (Ints.subtract r 1))
                                   CONSTANTS.D_MINUS_ONE_SQ)
                    D) in
  let s2 := Ints.multiply s s in
  let W0 := modP (Ints.multiply (Ints.add s s) D) in
  let W1 := modP (Ints.multiply Nt CONSTANTS.SQRT_AD_MINUS_ONE) in
  let W2 := modP (Ints.subtract 1 s2) in
  let W3 := modP (Ints.add 1 s2) in
  new (modP (Ints.multiply W0 W3)) (modP (Ints.multiply W2 W1))
      (modP (Ints.multiply W1 W3)) (modP (Ints.multiply W0 W2)).

Definition fromRistrettoHash (hash : bytes) : point :=
  let r1 := bytes255ToNumberLE (firstn 32 hash) in
  let R1 := calcElligatorRistrettoMap r1 in
  let r2 := bytes255ToNumberLE (firstn 32 (skipn 32 hash)) in
  let R2 := calcElligatorRistrettoMap r2 in
  add R1 R2.

Definition emsg : string :=
  "ExtendedPoint.fromRistrettoBytes: Cannot convert bytes to Ristretto Point".

Definition fromRistrettoBytes (bytes : bytes) : result point :=
  (let a := CURVE.a in
   let d := CURVE.d in
   let s := bytes255ToNumberLE bytes in
   sbytes <- serializer.numberToBytesPadded s B32 ;;
   if negb (equalBytes sbytes bytes) || edIsNegative s then Throw (Error emsg)
   else
     let s2 := modP (Ints.multiply s s) in
     let u1 := modP (Ints.add 1 (Ints.multiply a s2)) in
     let u2 := modP (Ints.subtract 1 (Ints.multiply a s2)) in
     let u1_2 := modP (Ints.multiply u1 u1) in
     let u2_2 := modP (Ints.multiply u2 u2) in
     let v := modP (Ints.subtract (Ints.multiply a (Ints.multiply d u1_2)) u2_2) in
     let inv := invertSqrt (modP (Ints.multiply v u2_2)) in
     let isValid := isValid inv in
     let I := value inv in
     let Dx := modP (Ints.multiply I u2) in
     let Dy := modP (Ints.multiply (Ints.multiply I Dx) v) in
     let x := modP (Ints.multiply (Ints.add s s) Dx) in
     let x := if edIsNegative x then modP (Ints.unaryMinus x) else x in
     let y := modP (Ints.multiply u1 Dy) in
     let t := modP (Ints.multiply x y) in
     if negb isValid || edIsNegative t || Ints.equal y 0 then Throw (Error emsg)
     else Ok (new x y 1 t))%result.

Definition toRistrettoBytes (this : point) : result bytes :=
  let x := x this in
  let y := y this in
  let z := z this in
  let t := t this in
  let u1 := modP (Ints.multiply (Ints.add z y) (Ints.subtract z y)) in
  let u2 := modP (Ints.multiply x y) in
  let invsqrt := value (invertSqrt (modP (Ints.multiply (Ints.multiply u1 u2) u2))) in
  let D1 := modP (Ints.multiply invsqrt u1) in
  let D2 := modP (Ints.multiply invsqrt u2) in
  let zInv := modP (Ints.multiply (Ints.multiply D1 D2) t) in
  let '(x, y, D) :=
    if edIsNegative (Ints.multiply t zInv) then
      (modP (Ints.multiply y CONSTANTS.SQRT_M1),
       modP (Ints.multiply x CONSTANTS.SQRT_M1),
       modP (Ints.multiply D1 CONSTANTS.INVSQRT_A_MINUS_D))
    else (x, y, D2) in
  let y := if edIsNegative (Ints.multiply x zInv) then modP (Ints.unaryMinus y) else y in
  let s := modP (Ints.multiply (Ints.subtract z y) D) in
  let s := if edIsNegative s then modP (Ints.unaryMinus s) else s in
  serializer.numberToBytesPadded s B32.

(** The [while (n > 0)] loop of [multiplyUnsafe], by recursion on the
    binary digits of [n] (least significant first): test the low bit,
    double [d], shift [n].  After the top bit the loop ends and the last
    value of [d] is dead. *)
Fixpoint multiplyUnsafe_loop (n : positive) (p d : point) : point :=
  match n with
  | xH => add p d
  | xO n' => multiplyUnsafe_loop n' p (double d)
  | xI n' => multiplyUnsafe_loop n' (add p d) (double d)
  end.

Definition multiplyUnsafe (this : point) (scalar : Z) : result point :=
  if negb (serializer.isValidScalar (Big scalar)) then
    Throw (TypeError "Point#multiply: expected number or bigint")
  else
    let n := mod_ scalar CURVE.n in
    if Ints.equal n 1 then Ok this
    else
      let p := ZERO in
      let d := new (x this) (y this) (z this) (t this) in
      match n with
      | Zpos n' => Ok (multiplyUnsafe_loop n' p d)
      | _ => Ok p
      end.

(** [precomputeWindow(W)]: the inner loop runs for [i = 1 .. 2^(W-1) - 1]
    and pushes [base + p] each time; it returns the last [base] and the
    points pushed. *)
Fixpoint precomputeWindow_inner (count : nat) (base p : point) : point * list point :=
  match count with
  | O => (base, [])
  | S count' =>
      let base' := add base p in
      let '(last, pushed) := precomputeWindow_inner count' base' p in
      (last, base' :: pushed)
  end.

Fixpoint precomputeWindow_outer (windows : nat) (W : Z) (p : point) : list point :=
  match windows with
  | O => []
  | S windows' =>
      let base := p in
      let '(last, pushed) :=
        precomputeWindow_inner (Z.to_nat (2 ^ (W - 1) - 1)) base p in
      (base :: pushed) ++ precomputeWindow_outer windows' W (double last)
  end.

(** Number of iterations of [for (window = 0; window < 256 / W + 1; ...)]:
    the quotient is a JavaScript number, not rounded. *)
Definition windowCount (W : Z) : Z :=
  if Z.rem 256 W =? 0 then 256 / W + 1 else 256 / W + 2.

Definition precomputeWindow (this : point) (W : Z) : list point :=
  let p := new (x this) (y this) (z this) (t this) in
  precomputeWindow_outer (Z.to_nat (windowCount W)) W p.

(** The heap: allocation counter for affine point objects, their
    [_WINDOW_SIZE] fields (absent when never set) and the static
    [pointPrecomputes] registry.  Window sizes are modelled where they
    are non-negative integers. *)
Record Heap : Type := {
  next_ref : ref;
  WINDOW_SIZE : list (ref * N);
  pointPrecomputes : list (ref * list point)
}.

Definition getWindowSize (r : ref) : M Heap (option N) :=
  gets (fun h => assoc_get r (WINDOW_SIZE h)).

Definition getPrecomputes (r : ref) : M Heap (option (list point)) :=
  gets (fun h => assoc_get r (pointPrecomputes h)).

Definition setPrecomputes (r : ref) (pts : list point) : M Heap unit :=
  modify (fun h => {| next_ref := next_ref h;
                      WINDOW_SIZE := WINDOW_SIZE h;
                      pointPrecomputes := assoc_set r pts (pointPrecomputes h) |}).

Definition deletePrecomputes (r : ref) : M Heap unit :=
  modify (fun h => {| next_ref := next_ref h;
                      WINDOW_SIZE := WINDOW_SIZE h;
                      pointPrecomputes := assoc_delete r (pointPrecomputes h) |}).

Definition setWindowSizeField (r : ref) (w : N) : M Heap unit :=
  modify (fun h => {| next_ref := next_ref h;
                      WINDOW_SIZE := assoc_set r w (WINDOW_SIZE h);
                      pointPrecomputes := pointPrecomputes h |}).

Definition lookup (precomputes : list point) (i : Z) : result point :=
  if i <? 0 then Throw (TypeError "Cannot read properties of undefined")
  else match nth_error precomputes (Z.to_nat i) with
       | Some p => Ok p
       | None => Throw (TypeError "Cannot read properties of undefined")
       end.

(** The window loop of [wNAF], from [window] for [count] more windows. *)
Fixpoint wNAF_loop (count : nat) (window : Z) (W : Z) (precomputes : list point)
         (n : Z) (p f : point) : result (point * point) :=
  match count with
  | O => Ok (p, f)
  | S count' =>
      let windowSize := 2 ^ (W - 1) in
      let mask := 2 ^ W - 1 in
      let maxNumber := 2 ^ W in
      let shiftBy := W in
      let offset := window * windowSize in
      let wbits := Ints.bitwiseAnd n mask in
      let n := Ints.signedRightShift n shiftBy in
      let '(wbits, n) :=
        if wbits >? windowSize then (wbits - maxNumber, Ints.add n 1)
        else (wbits, n) in
      if wbits =? 0 then
        (pre <- lookup precomputes offset ;;
         let f := add f (if negb (Z.rem window 2 =? 0) then negate pre else pre) in
         wNAF_loop count' (window + 1) W precomputes n p f)%result
      else
        (cached <- lookup precomputes (offset + Z.abs wbits - 1) ;;
         let p := add p (if wbits <? 0 then negate cached else cached) in
         wNAF_loop count' (window + 1) W precomputes n p f)%result
  end.

Definition wNAF (be : Backend) (this : point) (n : Z) (affinePoint : option ref)
  : M Heap (point * point) :=
  (let affinePoint :=
     match affinePoint with
     | None => if equals this BASE then Some POINT_BASE_ref else None
     | Some r => Some r
     end in
   ws <- match affinePoint with
         | Some r => getWindowSize r
         | None => ret None
         end ;;
   let W := match ws with
            | Some w => if (w =? 0)%N then 1 else Z.of_N w
            | None => 1
            end in
   if negb (Z.rem 256 W =? 0) then
     throw (Error "Point#wNAF: Invalid precomputation window, must be power of 2")
   else
     cached <- match affinePoint with
               | Some r => getPrecomputes r
               | None => ret None
               end ;;
     precomputes <-
       match cached with
       | Some pre => ret pre
       | None =>
           let pre := precomputeWindow this W in
           match affinePoint with
           | Some r =>
               if negb (W =? 1) then
                 pre' <- lift (normalizeZ be pre) ;;
                 _ <- setPrecomputes r pre' ;;
                 ret pre'
               else ret pre
           | None => ret pre
           end
       end ;;
     lift (wNAF_loop (Z.to_nat (256 / W + 1)) 0 W precomputes n ZERO ZERO))%heap.

Definition multiply (be : Backend) (this : point) (scalar : NumOrBig)
           (affinePoint : option ref) : M Heap point :=
  if negb (serializer.isValidScalar scalar) then
    throw (TypeError "Point#multiply: expected number or bigint")
  else
    (let s := match scalar with Num k => k | Big b => b end in
     let n := mod_ s CURVE.n in
     pf <- wNAF be this n affinePoint ;;
     normed <- lift (normalizeZ be [fst pf; snd pf]) ;;
     match normed with
     | p :: _ => ret p
     | [] => throw (TypeError "undefined")
     end)%heap.

End ExtendedPoint.

(* ------------------------------------------------------------------ *)
(** ** Hashing (hash.ts)

    SHA-512 is an external function on bytes.  [sha512(message, impl)]
    uses the injected implementation when one is given and the platform's
    otherwise; it throws when neither exists. *)

Definition Hash := bytes -> bytes.

Record Env : Type := {
  backend : Backend;
  platformSha512 : option Hash;
  sha512Impl : option Hash
}.

Definition sha512 (env : Env) (message : bytes) (impl : option Hash) : result bytes :=
  match impl with
  | Some digest => Ok (digest message)
  | None =>
      match platformSha512 env with
      | Some digest => Ok (digest message)
      | None => Throw (Error "SHA512 unavailable on platform")
      end
  end.

(** The function returned by [makeSha512ToNumberLE(serializer, math, CURVE, sha512Impl)]. *)
Definition sha512ToNumberLE (env : Env) (args : list bytes) : result Z :=
  (let messageArray := concatBytes args in
   hash <- sha512 env messageArray (sha512Impl env) ;;
   let value := serializer.bytesToNumberLE hash in
   Ok (math.mod_ value CURVE.n))%result.

(* ------------------------------------------------------------------ *)
(** ** Key utilities (key-utils.ts) *)

Inductive Hex : Type :=
| HexBytes (b : bytes)
| HexString (s : string).

(** [PrivKey<BIT> = Hex | BIT | number]. *)
Inductive PrivKey : Type :=
| KeyHex (h : Hex)
| KeyInt (k : NumOrBig).

(** Element update of a typed array: an index past the end is ignored. *)
Fixpoint updateAt (i : nat) (f : byte -> byte) (l : bytes) : bytes :=
  match l, i with
  | [], _ => []
  | b :: l', O => f b :: l'
  | b :: l', S i' => b :: updateAt i' f l'
  end.

Definition byteAnd (k : Z) (b : byte) : byte := z2b (Z.land (b2z b) k).
Definition byteOr (k : Z) (b : byte) : byte := z2b (Z.lor (b2z b) k).

Module keyUtils.

Definition keyPrefix (privateBytes : bytes) : bytes := skipn 32 privateBytes.

Definition encodePrivate (privateBytes : bytes) : Z :=
  let last := 31%nat in
  let head := firstn 32 privateBytes in
  let head := updateAt 0 (byteAnd 248) head in
  let head := updateAt last (byteAnd 127) head in
  let head := updateAt last (byteOr 64) head in
  math.mod_ (serializer.bytesToNumberLE head) CURVE.n.

Definition normalizePrivateKey (key : PrivKey) : result bytes :=
  (key' <-
     match key with
     | KeyInt (Big num) =>
         if Ints.lessThan num 0 || Ints.greaterThan num (Ints.exponentiate 2 256)
         then Throw (Error "Expected 32 bytes of private key")
         else Ok (Some (HexString (padStart0 (toString16 num) (B32 * 2))))
     | KeyInt (Num k) =>
         if isSafeInteger k then
           if Ints.lessThan k 0 || Ints.greaterThan k (Ints.exponentiate 2 256)
           then Throw (Error "Expected 32 bytes of private key")
           else Ok (Some (HexString (padStart0 (toString16 k) (B32 * 2))))
         else Ok None
     | KeyHex h => Ok (Some h)
     end ;;
   match key' with
   | Some (HexString str) =>
       if negb (strlen str =? 64) then Throw (Error "Expected 32 bytes of private key")
       else hexToBytes str
   | Some (HexBytes b) =>
       if negb (Z.of_nat (List.length b) =? 32)
       then Throw (Error "Expected 32 bytes of private key")
       else Ok b
   | None => Throw (TypeError "Expected valid private key")
   end)%result.

End keyUtils.

(* ------------------------------------------------------------------ *)
(** ** Affine points (points.ts, [makePointClass]) *)

Definition ensureBytes (hash : Hex) : result bytes :=
  match hash with
  | HexBytes b => Ok b
  | HexString s => hexToBytes s
  end.

Module Point.
Import math.
Import ExtendedPoint(Heap).

(** An affine point object: coordinates and identity. *)
Record point : Type := mk { x : Z; y : Z; oid : ref }.

(** [new Point(x, y)] allocates a fresh object. *)
Definition new (x y : Z) : M Heap point :=
  fun h =>
    (Ok (mk x y (ExtendedPoint.next_ref h)),
     {| ExtendedPoint.next_ref := S (ExtendedPoint.next_ref h);
        ExtendedPoint.WINDOW_SIZE := ExtendedPoint.WINDOW_SIZE h;
        ExtendedPoint.pointPrecomputes := ExtendedPoint.pointPrecomputes h |}).

(** The static objects [Point.BASE] and [Point.ZERO]. *)
Definition BASE : point := mk CURVE.Gx CURVE.Gy 1%nat.
Definition ZERO : point := mk 0 1 2%nat.

Definition asObject (p : point) : PointLike :=
  {| obj_x := x p; obj_y := y p; obj_z := None; obj_t := None |}.

Definition _setWindowSize (this : point) (windowSize : N) : M Heap unit :=
  (_ <- ExtendedPoint.setWindowSizeField (oid this) windowSize ;;
   ExtendedPoint.deletePrecomputes (oid this))%heap.

Definition equals (this other : point) : bool :=
  Ints.equal (x this) (x other) && Ints.equal (y this) (y other).

Definition negate (this : point) : M Heap point :=
  new (modP (Ints.unaryMinus (x this))) (y this).

Definition add (be : Backend) (this other : point) : M Heap point :=
  (e1 <- lift (ExtendedPoint.fromAffine be (asObject this)) ;;
   e2 <- lift (ExtendedPoint.fromAffine be (asObject other)) ;;
   pointData <- lift (ExtendedPoint.toAffine (ExtendedPoint.add e1 e2)) ;;
   new (fst pointData) (snd pointData))%heap.

Definition subtract (be : Backend) (this other : point) : M Heap point :=
  (o <- negate other ;; add be this o)%heap.

Definition multiply (be : Backend) (this : point) (scalar : NumOrBig) : M Heap point :=
  (tmp <- lift (ExtendedPoint.fromAffine be (asObject this)) ;;
   prod <- ExtendedPoint.multiply be tmp scalar (Some (oid this)) ;;
   aff <- lift (ExtendedPoint.toAffine prod) ;;
   new (fst aff) (snd aff))%heap.

Definition precompute (be : Backend) (windowSize : N) (pt : point) : M Heap point :=
  (cached <- (if equals pt BASE then ret pt else new (x pt) (y pt)) ;;
   _ <- _setWindowSize cached windowSize ;;
   _ <- multiply be cached (Big 1) ;;
   ret cached)%heap.

Definition fromHex (hash : Hex) : M Heap point :=
  (bytes <- lift (ensureBytes hash) ;;
   if negb (Z.of_nat (List.length bytes) =? 32) then
     throw (Error "Point.fromHex: expected 32 bytes")
   else
     let last := b2z (nth 31 bytes x00) in
     let normedLast := Z.land last (Z.lnot 128) in
     let isLastByteOdd := negb (Z.land last 128 =? 0) in
     let normed := firstn 31 bytes ++ [z2b normedLast] in
     let y := serializer.bytesToNumberLE normed in
     if Ints.greaterThanOrEqual y CURVE.P then
       throw (Error "Point.fromHex expects hex <= Fp")
     else
       let y2 := modP (Ints.multiply y y) in
       let u := modP (Ints.subtract y2 1) in
       let v := modP (Ints.add (Ints.multiply CURVE.d y2) 1) in
       let uvr := uvRatio u v in
       let isValid := isValid uvr in
       let x := value uvr in
       if negb isValid then throw (Error "Point.fromHex: invalid y coordinate")
       else
         let isXOdd := Ints.equal (Ints.bitwiseAnd x 1) 1 in
         let x := if negb (Bool.eqb isLastByteOdd isXOdd)
                  then modP (Ints.unaryMinus x) else x in
         new x y)%heap.

(** [toRawBytes]: the loop reads the hexadecimal form of [y] two digits
    at a time from its end into [u8[0..31]]; the rest of [u8] stays 0. *)
Definition toRawBytes (this : point) : bytes :=
  let hex := serializer.numberToHex (y this) in
  let read := map (fun pair => toUint8 (parseInt16 pair))
                  (firstn 32 (rev (hexPairs hex))) in
  let u8 := read ++ repeat x00 (32 - List.length read) in
  let mask := if Ints.NE (Ints.bitwiseAnd (x this) 1) 0 then 128 else 0 in
  updateAt 31 (byteOr mask) u8.

Definition toHex (this : point) : string := bytesToHex (toRawBytes this).

Definition toX25519 (this : point) : result Z :=
  (inv <- invert (Ints.subtract 1 (y this)) CURVE.P ;;
   Ok (modP (Ints.multiply (Ints.add 1 (y this)) inv)))%result.

Definition fromPrivateKey (env : Env) (privateKey : PrivKey) : M Heap point :=
  (key <- lift (keyUtils.normalizePrivateKey privateKey) ;;
   privBytes <- lift (sha512 env key (sha512Impl env)) ;;
   multiply (backend env) BASE (Big (keyUtils.encodePrivate privBytes)))%heap.

End Point.

(* ------------------------------------------------------------------ *)
(** ** Curve helpers (curve.ts) *)

Definition isWithinCurveOrder (num : Z) : bool :=
  Ints.LT 0 num && Ints.lessThan num CURVE.n.

(* ------------------------------------------------------------------ *)
(** ** Signing and verification (signing.ts) *)

Module Signature.
Import ExtendedPoint(Heap).

Record signature : Type := new { r : Point.point; s : Z }.

Definition fromHex (hex : Hex) : M Heap signature :=
  (hex <- lift (ensureBytes hex) ;;
   r <- Point.fromHex (HexBytes (firstn 32 hex)) ;;
   let s := serializer.bytesToNumberLE (skipn 32 hex) in
   if negb (isWithinCurveOrder s) then
     throw (Error "Signature.fromHex expects s <= CURVE.n")
   else ret (new r s))%heap.

(** [sBytes.set(numberBytes)] throws a [RangeError] when the source is
    longer than the 32-byte target. *)
Definition toRawBytes (this : signature) : result bytes :=
  (bs <- hexToBytes (serializer.numberToHex (s this)) ;;
   let numberBytes := rev bs in
   if (32 <? List.length numberBytes)%nat then Throw (RangeError "offset is out of bounds")
   else
     let sBytes := numberBytes ++ repeat x00 (32 - List.length numberBytes) in
     Ok (Point.toRawBytes (r this) ++ sBytes))%result.

Definition toHex (this : signature) : result string :=
  (bs <- toRawBytes this ;; Ok (bytesToHex bs))%result.

End Signature.

(** A value of type [SigType]: a [Signature] object or its encoding. *)
Inductive SigType : Type :=
| SigObject (sig : Signature.signature)
| SigHex (h : Hex).

(** A value of type [PubKey]: a [Point] object or its encoding. *)
Inductive PubKey : Type :=
| PubPoint (p : Point.point)
| PubHex (h : Hex).

Definition isString (h : Hex) : bool :=
  match h with HexString _ => true | HexBytes _ => false end.

Definition getPublicKey (env : Env) (privateKey : PrivKey) : M ExtendedPoint.Heap Hex :=
  (key <- Point.fromPrivateKey env privateKey ;;
   ret (match privateKey with
        | KeyHex (HexString _) => HexString (Point.toHex key)
        | _ => HexBytes (Point.toRawBytes key)
        end))%heap.

Definition sign (env : Env) (hash : Hex) (privateKey : PrivKey) : M ExtendedPoint.Heap Hex :=
  (key <- lift (keyUtils.normalizePrivateKey privateKey) ;;
   privBytes <- lift (sha512 env key None) ;;
   let p := keyUtils.encodePrivate privBytes in
   P <- Point.multiply (backend env) Point.BASE (Big p) ;;
   msg <- lift (ensureBytes hash) ;;
   r <- lift (sha512ToNumberLE env [keyUtils.keyPrefix privBytes; msg]) ;;
   R <- Point.multiply (backend env) Point.BASE (Big r) ;;
   h <- lift (sha512ToNumberLE env [Point.toRawBytes R; Point.toRawBytes P; msg]) ;;
   let S := math.mod_ (Ints.add r (Ints.multiply h p)) CURVE.n in
   let sig := Signature.new R S in
   if isString hash then (hx <- lift (Signature.toHex sig) ;; ret (HexString hx))
   else (bs <- lift (Signature.toRawBytes sig) ;; ret (HexBytes bs)))%heap.

Definition verify (env : Env) (signature : SigType) (hash : Hex) (publicKey : PubKey)
  : M ExtendedPoint.Heap bool :=
  (hash <- lift (ensureBytes hash) ;;
   pk <- match publicKey with
         | PubPoint p => ret p
         | PubHex h => Point.fromHex h
         end ;;
   signature <- match signature with
                | SigObject sig => ret sig
                | SigHex h => Signature.fromHex h
                end ;;
   hs <- lift (sha512ToNumberLE env [Point.toRawBytes (Signature.r signature);
                                     Point.toRawBytes pk; hash]) ;;
   Ppk <- lift (ExtendedPoint.fromAffine (backend env) (Point.asObject pk)) ;;
   Ph <- lift (ExtendedPoint.multiplyUnsafe Ppk hs) ;;
   Gs <- lift (ExtendedPoint.multiplyUnsafe ExtendedPoint.BASE (Signature.s signature)) ;;
   Pr <- lift (ExtendedPoint.fromAffine (backend env) (Point.asObject (Signature.r signature))) ;;
   let RPh := ExtendedPoint.add Pr Ph in
   res <- lift (ExtendedPoint.multiplyUnsafe (ExtendedPoint.subtract RPh Gs) 8) ;;
   ret (ExtendedPoint.equals res ExtendedPoint.ZERO))%heap.

(* ------------------------------------------------------------------ *)
(** ** Library instance (index.ts, [makeED])

    The heap right after [makeED]: [POINT_BASE], [Point.BASE] and
    [Point.ZERO] exist, and [Point.BASE._setWindowSize(8)] has run. *)

Definition makeED_heap : ExtendedPoint.Heap :=
  {| ExtendedPoint.next_ref := 3%nat;
     ExtendedPoint.WINDOW_SIZE := [(Point.oid Point.BASE, 8%N)];
     ExtendedPoint.pointPrecomputes := [] |}.

(* ================================================================== *)
(** * Properties *)

Ltac unfold_ints :=
  unfold Ints.add, Ints.subtract, Ints.multiply, Ints.divide, Ints.remainder,
    Ints.unaryMinus, Ints.exponentiate, Ints.bitwiseAnd, Ints.signedRightShift,
    Ints.leftShift, Ints.greaterThan, Ints.greaterThanOrEqual, Ints.lessThan,
    Ints.lessThanOrEqual, Ints.equal, Ints.notEqual, Ints.LT, Ints.NE in *.

(** ** Arithmetic modulo [CURVE.P] *)

Section ModArith.

Lemma mod__spec (a b : Z) : 0 < b -> math.mod_ a b = a mod b.
Proof.
  intros Hb. unfold math.mod_. unfold_ints.
  pose proof (Z.quot_rem' a b) as Hqr.
  destruct (Z.geb_spec (Z.rem a b) 0) as [Hge | Hlt].
  - destruct (Z.eq_dec (Z.rem a b) 0) as [E0 | Hne].
    + rewrite E0 in *. apply Z.mod_unique_pos with (q := Z.quot a b); lia.
    + assert (Ha : 0 <= a).
      { destruct (Z_lt_le_dec a 0) as [Hneg | Hpos]; [ | exact Hpos ].
        pose proof (Z.rem_nonpos a b ltac:(lia) ltac:(lia)). lia. }
      pose proof (Z.rem_bound_pos a b Ha Hb).
      apply Z.mod_unique_pos with (q := Z.quot a b); lia.
  - assert (Ha : a < 0).
    { destruct (Z_lt_le_dec a 0) as [Hneg | Hpos]; [ exact Hneg | ].
      pose proof (Z.rem_bound_pos a b Hpos Hb). lia. }
    pose proof (Z.rem_bound_pos_neg a b Hb ltac:(lia)).
    apply Z.mod_unique_pos with (q := Z.quot a b - 1); lia.
Qed.

Lemma P_pos : 0 < CURVE.P.
Proof. reflexivity. Qed.

Lemma modP_spec (a : Z) : math.modP a = a mod CURVE.P.
Proof. apply mod__spec, P_pos. Qed.

Lemma modP_range (a : Z) : 0 <= math.modP a < CURVE.P.
Proof. rewrite modP_spec. apply Z.mod_pos_bound, P_pos. Qed.

Lemma modP_small (a : Z) : 0 <= a < CURVE.P -> math.modP a = a.
Proof. intros H. rewrite modP_spec. apply Z.mod_small, H. Qed.

End ModArith.

(** Congruence modulo [CURVE.P]. *)
Definition eqP (a b : Z) : Prop := a mod CURVE.P = b mod CURVE.P.

Infix "==" := eqP (at level 70, no associativity).

#[global] Instance eqP_Equivalence : Equivalence eqP.
Proof.
  split.
  - intros a. reflexivity.
  - intros a b H. unfold eqP in *. congruence.
  - intros a b c H1 H2. unfold eqP in *. congruence.
Qed.

#[global] Instance eqP_add : Proper (eqP ==> eqP ==> eqP) Z.add.
Proof.
  intros a b Hab c d Hcd. unfold eqP in *.
  rewrite (Z.add_mod a c), (Z.add_mod b d) by discriminate. congruence.
Qed.

#[global] Instance eqP_mul : Proper (eqP ==> eqP ==> eqP) Z.mul.
Proof.
  intros a b Hab c d Hcd. unfold eqP in *.
  rewrite (Z.mul_mod a c), (Z.mul_mod b d) by discriminate. congruence.
Qed.

#[global] Instance eqP_opp : Proper (eqP ==> eqP) Z.opp.
Proof.
  intros a b Hab.
  replace (- a) with ((-1) * a) by ring. replace (- b) with ((-1) * b) by ring.
  now rewrite Hab.
Qed.

#[global] Instance eqP_sub : Proper (eqP ==> eqP ==> eqP) Z.sub.
Proof.
  intros a b Hab c d Hcd. unfold Z.sub. now rewrite Hab, Hcd.
Qed.

Lemma modP_eqP (a : Z) : math.modP a == a.
Proof. unfold eqP. rewrite modP_spec. apply Z.mod_mod. discriminate. Qed.

Lemma eqP_of_eq (a b : Z) : a = b -> a == b.
Proof. intros ->. reflexivity. Qed.

Lemma eqP_small (a b : Z) :
  0 <= a < CURVE.P -> 0 <= b < CURVE.P -> a == b -> a = b.
Proof.
  intros Ha Hb H. unfold eqP in H.
  rewrite (Z.mod_small a), (Z.mod_small b) in H; assumption.
Qed.

Lemma eqP_P_0 : CURVE.P == 0.
Proof. reflexivity. Qed.

(** Solve a congruence that holds as a polynomial identity once the
    reductions [modP] are dropped. *)
Ltac drop_modP := repeat rewrite modP_eqP.
Ltac eqP_ring := drop_modP; apply eqP_of_eq; ring.

(** ** [uvRatio] *)

Section UvRatio.
Import math.

Lemma SQRT_M1_sq : CONSTANTS.SQRT_M1 * CONSTANTS.SQRT_M1 == -1.
Proof. vm_compute. reflexivity. Qed.

(** The inverse of [1 + SQRT_M1] modulo [CURVE.P]. *)
Definition inv_1_SQRT_M1 : Z :=
  Eval vm_compute in
    match invert (1 + CONSTANTS.SQRT_M1) CURVE.P with
    | Ok c => c
    | _ => 0
    end.

Lemma inv_1_SQRT_M1_spec : inv_1_SQRT_M1 * (1 + CONSTANTS.SQRT_M1) == 1.
Proof. vm_compute. reflexivity. Qed.

Lemma edIsNegative_odd (a : Z) :
  0 <= a < CURVE.P -> edIsNegative a = Z.odd a.
Proof.
  intros Ha. unfold edIsNegative. unfold_ints. rewrite (modP_small Ha).
  change 1 with (Z.ones 1) at 1. rewrite Z.land_ones by lia.
  change (2 ^ 1) with 2. rewrite Zmod_odd.
  destruct (Z.odd a); reflexivity.
Qed.

(** The final sign adjustment of [uvRatio]: the result is reduced, even,
    and has the same square. *)
Lemma sign_fix (a : Z) :
  0 <= a < CURVE.P ->
  let a' := if edIsNegative a then modP (Ints.unaryMinus a) else a in
  0 <= a' < CURVE.P /\ Z.odd a' = false /\ a' * a' == a * a.
Proof.
  intros Ha. rewrite (edIsNegative_odd Ha). unfold_ints.
  destruct (Z.odd a) eqn:Hodd; cbv zeta.
  - split; [ apply modP_range | split ].
    + assert (Hnz : a <> 0) by (intros ->; discriminate).
      assert (E : modP (- a) = CURVE.P - a).
      { rewrite modP_spec. symmetry.
        apply Z.mod_unique_pos with (q := -1); lia. }
      rewrite E. rewrite Z.odd_sub, Hodd. reflexivity.
    + eqP_ring.
  - split; [ exact Ha | split; [ exact Hodd | reflexivity ] ].
Qed.

Lemma eqb_eqP (a b : Z) : Ints.equal a b = true -> a == b.
Proof. unfold_ints. intros H. apply Z.eqb_eq in H. now subst. Qed.

(** A residue that equals its own product with [-SQRT_M1] is zero. *)
Lemma self_neg_SQRT_M1 (u : Z) :
  0 <= u < CURVE.P -> u == - u * CONSTANTS.SQRT_M1 -> u = 0.
Proof.
  intros Hu H. apply eqP_small; [ exact Hu | vm_compute; split; congruence | ].
  assert (H1 : u * (1 + CONSTANTS.SQRT_M1) == 0).
  { transitivity (u - (- u * CONSTANTS.SQRT_M1)); [ apply eqP_of_eq; ring | ].
    rewrite <- H. apply eqP_of_eq. ring. }
  transitivity (u * (inv_1_SQRT_M1 * (1 + CONSTANTS.SQRT_M1))).
  - rewrite inv_1_SQRT_M1_spec. apply eqP_of_eq. ring.
  - transitivity (inv_1_SQRT_M1 * (u * (1 + CONSTANTS.SQRT_M1)));
      [ apply eqP_of_eq; ring | ].
    rewrite H1. apply eqP_of_eq. ring.
Qed.

(** C3.  For u, v in [0, p), uvRatio(u, v) is a total function (it has
    no failing path) whose value x lies in [0, p) and is even (least
    significant bit 0), and whenever isValid holds, x^2 * v = u modulo p. *)
Theorem uvRatio_sound (u v : Z) :
  0 <= u < CURVE.P -> 0 <= v < CURVE.P ->
  let r := uvRatio u v in
  0 <= value r < CURVE.P /\
  Z.testbit (value r) 0 = false /\
  (isValid r = true -> (value r * value r * v) mod CURVE.P = u).
Proof.
  intros Hu Hv. unfold uvRatio.
  set (x0 := modP (Ints.multiply (Ints.multiply u _) (pow_2_252_3 _))).
  assert (Hx0 : 0 <= x0 < CURVE.P) by apply modP_range.
  clearbody x0. cbv zeta.
  set (vx2 := modP (Ints.multiply (Ints.multiply v x0) x0)).
  set (root2 := modP (Ints.multiply x0 CONSTANTS.SQRT_M1)).
  assert (Hvx2 : vx2 == v * x0 * x0) by (unfold vx2; unfold_ints; apply modP_eqP).
  assert (Hroot2 : root2 * root2 == - (x0 * x0)).
  { unfold root2. unfold_ints. rewrite modP_eqP.
    transitivity (x0 * x0 * (CONSTANTS.SQRT_M1 * CONSTANTS.SQRT_M1));
      [ apply eqP_of_eq; ring | ].
    rewrite SQRT_M1_sq. apply eqP_of_eq. ring. }
  assert (Hr2 : 0 <= root2 < CURVE.P) by apply modP_range.
  set (useRoot1 := Ints.equal vx2 u).
  set (useRoot2 := Ints.equal vx2 (modP (Ints.unaryMinus u))).
  set (noRoot := Ints.equal vx2 (modP (Ints.multiply (Ints.unaryMinus u) CONSTANTS.SQRT_M1))).
  set (pre := if useRoot2 || noRoot then root2 else if useRoot1 then x0 else x0).
  assert (Hpre : 0 <= pre < CURVE.P)
    by (unfold pre; destruct (useRoot2 || noRoot), useRoot1; assumption).
  destruct (sign_fix Hpre) as (Hrange & Hodd & Hsq).
  cbn [value isValid].
  split; [ exact Hrange | split ].
  - rewrite Z.bit0_odd. exact Hodd.
  - intros Hvalid.
    enough (Hc : (if edIsNegative pre then modP (Ints.unaryMinus pre) else pre)
                 * (if edIsNegative pre then modP (Ints.unaryMinus pre) else pre) * v == u)
      by (unfold eqP in Hc; rewrite (Z.mod_small u) in Hc by exact Hu; exact Hc).
    rewrite Hsq.
    destruct useRoot2 eqn:E2.
    + (* vx2 = -u: the second root *)
      unfold pre; cbn [orb]. rewrite Hroot2.
      apply eqb_eqP in E2. rewrite modP_eqP in E2. unfold_ints.
      transitivity (- (v * x0 * x0)); [ apply eqP_of_eq; ring | ].
      rewrite <- Hvx2, E2. apply eqP_of_eq. ring.
    + cbn [orb] in Hvalid. fold useRoot1 in Hvalid.
      assert (E1 : useRoot1 = true) by (destruct useRoot1; [ reflexivity | discriminate Hvalid ]).
      pose proof (eqb_eqP _ _ E1) as H1.
      destruct noRoot eqn:En.
      * (* impossible: u = -u * sqrt(-1) forces u = 0 and then vx2 = -u *)
        exfalso. apply eqb_eqP in En. rewrite modP_eqP in En. unfold_ints.
        assert (Hu0 : u = 0) by (apply self_neg_SQRT_M1; [ exact Hu | now transitivity vx2 ]).
        subst u. unfold useRoot1 in E1. unfold_ints. apply Z.eqb_eq in E1.
        unfold useRoot2 in E2. unfold_ints. rewrite E1 in E2.
        vm_compute in E2. discriminate E2.
      * unfold pre; cbn [orb]. rewrite E1.
        transitivity (v * x0 * x0); [ apply eqP_of_eq; ring | ].
        now rewrite <- Hvx2.
Qed.

(** The hypotheses of [uvRatio_sound] hold at u = 4, v = 1, where the
    valid square root 2 is returned. *)
Lemma uvRatio_sound_witness :
  let r := uvRatio 4 1 in
  0 <= value r < CURVE.P /\ Z.testbit (value r) 0 = false /\
  (isValid r = true -> (value r * value r * 1) mod CURVE.P = 4).
Proof.
  apply (uvRatio_sound (u := 4) (v := 1)); vm_compute; split; congruence.
Defined.

End UvRatio.

(** ** Extended points: construction and equality *)

Section ExtendedPointFacts.
Import ExtendedPoint.

(** The representation invariant of an extended point: coordinates
    reduced, Z non-zero, and T * Z = X * Y modulo p. *)
Definition wellFormed (p : point) : Prop :=
  0 <= x p < CURVE.P /\ 0 <= y p < CURVE.P /\ 0 < z p < CURVE.P /\
  0 <= t p < CURVE.P /\ t p * z p == x p * y p.

(** The point of order two, (0, -1). *)
Definition ORDER2 : point := new 0 (CURVE.P - 1) 1 0.

(** C2.  ORDER2 and ZERO both satisfy the representation invariant and
    [equals] returns true on them (their T coordinates are 0), but their
    Y coordinates differ: the test on T/Z does not decide equality of
    X/Z and Y/Z. *)
Theorem equals_ZERO_ORDER2 :
  wellFormed ZERO /\ wellFormed ORDER2 /\
  equals ZERO ORDER2 = true /\
  x ZERO * z ORDER2 == x ORDER2 * z ZERO /\
  ~ (y ZERO * z ORDER2 == y ORDER2 * z ZERO).
Proof.
  unfold wellFormed, eqP.
  repeat match goal with |- _ /\ _ => split end; vm_compute; congruence.
Qed.

(** What [fromAffine] does on an object without [z] and [t] under JSBI:
    it never throws, and returns (x, y, 1, x*y mod p) unless the input
    equals POINT_ZERO = (0, 0). *)
Lemma fromAffine_JSBI (a b : Z) :
  fromAffine JSBI (affineObject (a, b)) =
  if (a =? 0) && (b =? 0) then Ok ZERO
  else Ok (new a b 1 (math.modP (a * b))).
Proof. reflexivity. Qed.

(** Under JSBI every object carrying a [z] or a [t] field is rejected. *)
Lemma fromAffine_JSBI_rejects (p : PointLike) :
  obj_z p <> None \/ obj_t p <> None ->
  exists e, fromAffine JSBI p = Throw e.
Proof.
  intros H. unfold fromAffine. cbn [Ints.truthy andb].
  destruct (obj_z p) as [zz|], (obj_t p) as [tt|]; cbn; eauto.
  destruct H as [H|H]; congruence.
Qed.

(** C9.  [fromAffine] compares its input with POINT_ZERO = (0, 0), not
    with the affine identity (0, 1): under JSBI the affine input (0, 0)
    is mapped to ZERO = (0, 1, 1, 0) and not to (0, 0, 1, 0); under the
    native back-end the affine identity (0, 1) is rejected because [0n]
    is falsy. *)
Theorem fromAffine_origin :
  fromAffine JSBI (affineObject (0, 0)) = Ok ZERO /\
  ZERO <> new 0 0 1 (math.modP (0 * 0)) /\
  fromAffine NativeBigInt (affineObject (0, 1)) =
    Throw (TypeError "ExtendedPoint#fromAffine: expected Point").
Proof.
  split; [ | split ]; vm_compute; [ reflexivity | discriminate | reflexivity ].
Qed.

(** C10.  Thirty-two zero bytes decode to the identity, which [equals]
    ZERO, and ZERO encodes to thirty-two zero bytes. *)
Theorem ristretto_identity :
  fromRistrettoBytes (repeat x00 32) = Ok ZERO /\
  equals ZERO ZERO = true /\
  toRistrettoBytes ZERO = Ok (repeat x00 32).
Proof.
  split; [ | split ]; vm_compute; reflexivity.
Qed.

End ExtendedPointFacts.

(** ** Signature decoding *)

Section SignatureFacts.

(** The encoding of the affine identity followed by s = 0. *)
Definition sig_zero_s : bytes := (x01 :: repeat x00 31) ++ repeat x00 32.

(** C5, as stated, fails: the first half of [sig_zero_s] decodes to a
    point and s = 0 lies in [0, l), yet [Signature.fromHex] throws. *)
Lemma Signature_fromHex_rejects_zero_s :
  is_ok (fst (Point.fromHex (HexBytes (firstn 32 sig_zero_s)) makeED_heap)) = true /\
  0 <= serializer.bytesToNumberLE (skipn 32 sig_zero_s) < CURVE.n /\
  is_ok (fst (Signature.fromHex (HexBytes sig_zero_s) makeED_heap)) = false.
Proof.
  split; [ | split ]; vm_compute; [ reflexivity | split; congruence | reflexivity ].
Qed.

(** C5, amended.  [Signature.fromHex] succeeds on a byte array exactly
    when [Point.fromHex] succeeds on its first 32 bytes and the
    little-endian integer s of the remaining bytes satisfies 0 < s < l;
    so s = 0 is rejected, as is every s >= l. *)
Theorem Signature_fromHex_succeeds_iff (hex : bytes) (h : ExtendedPoint.Heap) :
  is_ok (fst (Signature.fromHex (HexBytes hex) h)) = true <->
  is_ok (fst (Point.fromHex (HexBytes (firstn 32 hex)) h)) = true /\
  0 < serializer.bytesToNumberLE (skipn 32 hex) < CURVE.n.
Proof.
  unfold Signature.fromHex, bind, lift, throw, ret. cbn [ensureBytes].
  destruct (Point.fromHex (HexBytes (firstn 32 hex)) h) as [[p | e | ] h'];
    cbn [fst is_ok].
  - unfold isWithinCurveOrder. unfold_ints.
    generalize (serializer.bytesToNumberLE (skipn 32 hex)); intros s.
    destruct (Z.ltb_spec 0 s); destruct (Z.ltb_spec s CURVE.n);
      cbn [negb andb fst is_ok]; (split; [ intros Hok | intros [_ Hs] ]);
      try discriminate; try reflexivity; try (exfalso; lia); (split; [ reflexivity | lia ]).
  - split; [ discriminate | intros [H _]; discriminate H ].
  - split; [ discriminate | intros [H _]; discriminate H ].
Qed.

End SignatureFacts.

(** ** Hexadecimal and byte encodings *)

Section Encodings.

Definition isDigit16 (dgt : Z) : Prop := 0 <= dgt < 16.

Fixpoint digitsToString (ds : list Z) : string :=
  match ds with
  | [] => EmptyString
  | dgt :: ds' => String (hexChar dgt) (digitsToString ds')
  end.

(** Value of a big-endian digit list in base [base]. *)
Definition valueBE (base : Z) (ds : list Z) : Z :=
  fold_left (fun acc dgt => base * acc + dgt) ds 0.

Lemma digitsToString_app (ds1 ds2 : list Z) :
  digitsToString (ds1 ++ ds2) = (digitsToString ds1 ++ digitsToString ds2)%string.
Proof. induction ds1 as [|dgt ds1 IH]; cbn; [ reflexivity | now rewrite IH ]. Qed.

Lemma digitsToString_length (ds : list Z) :
  String.length (digitsToString ds) = List.length ds.
Proof. induction ds as [|dgt ds IH]; cbn; [ reflexivity | now rewrite IH ]. Qed.

Lemma string_app_assoc (s1 s2 s3 : string) :
  ((s1 ++ s2) ++ s3 = s1 ++ (s2 ++ s3))%string.
Proof. induction s1 as [|c s1 IH]; cbn; [ reflexivity | now rewrite IH ]. Qed.

Lemma valueBE_snoc (base : Z) (ds : list Z) (dgt : Z) :
  valueBE base (ds ++ [dgt]) = base * valueBE base ds + dgt.
Proof. unfold valueBE. rewrite fold_left_app. reflexivity. Qed.

(** [hexDigits] yields the base-16 digits of [k] when the fuel covers
    the size of [k]; the number of digits is minimal. *)
Lemma hexDigits_spec (fuel : nat) :
  forall (k : Z) (acc : string),
    0 <= k < 2 ^ (Z.of_nat fuel + 4) ->
    exists ds,
      hexDigits fuel k acc = (digitsToString ds ++ acc)%string /\
      Forall isDigit16 ds /\ valueBE 16 ds = k /\
      (forall m, (1 <= m)%nat -> k < 16 ^ Z.of_nat m -> (List.length ds <= m)%nat).
Proof.
  assert (Hone : forall k, 0 <= k < 16 ->
            Forall isDigit16 [k] /\ valueBE 16 [k] = k /\
            (forall m, (1 <= m)%nat -> k < 16 ^ Z.of_nat m -> (List.length [k] <= m)%nat)).
  { intros k Hk. split; [ constructor; [ exact Hk | constructor ] | ].
    split; [ cbn; lia | intros m Hm _; cbn; lia ]. }
  induction fuel as [|fuel IH]; intros k acc Hk.
  - exists [k]. cbn [hexDigits]. change (2 ^ (Z.of_nat 0 + 4)) with 16 in Hk.
    rewrite (Z.mod_small k 16) by lia.
    split; [ reflexivity | apply Hone, Hk ].
  - cbn [hexDigits]. destruct (Z.ltb_spec k 16) as [Hlt | Hge].
    + exists [k]. rewrite (Z.mod_small k 16) by lia.
      split; [ reflexivity | apply Hone; lia ].
    + assert (Hdiv : 0 <= k / 16 < 2 ^ (Z.of_nat fuel + 4)).
      { split; [ apply Z.div_pos; lia | ].
        apply Z.div_lt_upper_bound; [ lia | ].
        replace (Z.of_nat (S fuel) + 4) with (1 + (Z.of_nat fuel + 4)) in Hk by lia.
        rewrite Z.pow_add_r in Hk by lia. change (2 ^ 1) with 2 in Hk. lia. }
      destruct (IH (k / 16) (String (hexChar (k mod 16)) acc) Hdiv)
        as (ds & Heq & Hds & Hval & Hlen).
      exists (ds ++ [k mod 16]). split; [ | split; [ | split ] ].
      * rewrite Heq, digitsToString_app, string_app_assoc. reflexivity.
      * apply Forall_app. split; [ exact Hds | ].
        constructor; [ apply Z.mod_pos_bound; lia | constructor ].
      * rewrite valueBE_snoc, Hval. symmetry. apply Z.div_mod. lia.
      * intros m Hm Hkm. rewrite length_app. cbn [List.length].
        destruct m as [|[|m']]; [ lia | cbn in Hkm; lia | ].
        assert (List.length ds <= S m')%nat; [ | lia ].
        apply Hlen; [ lia | ].
        apply Z.div_lt_upper_bound; [ lia | ].
        replace (Z.of_nat (S (S m'))) with (1 + Z.of_nat (S m')) in Hkm by lia.
        rewrite Z.pow_add_r in Hkm by lia. exact Hkm.
Qed.

Lemma toString16_spec (k : Z) :
  0 <= k ->
  exists ds,
    toString16 k = digitsToString ds /\
    Forall isDigit16 ds /\ valueBE 16 ds = k /\
    (forall m, (1 <= m)%nat -> k < 16 ^ Z.of_nat m -> (List.length ds <= m)%nat).
Proof.
  intros Hk. unfold toString16.
  destruct (Z.ltb_spec k 0) as [Hneg | _]; [ lia | ].
  assert (Hb : 0 <= k < 2 ^ (Z.of_nat (Z.to_nat (Z.log2 k)) + 4)).
  { split; [ exact Hk | ]. rewrite Z2Nat.id by apply Z.log2_nonneg.
    destruct (Z.eq_dec k 0) as [-> | Hnz]; [ reflexivity | ].
    pose proof (Z.log2_spec k ltac:(lia)) as [_ Hup].
    eapply Z.lt_le_trans; [ exact Hup | ].
    apply Z.pow_le_mono_r; lia. }
  destruct (hexDigits_spec _ EmptyString Hb) as (ds & Heq & Hrest).
  exists ds. split; [ | exact Hrest ].
  rewrite Heq. clear. induction (digitsToString ds) as [|c s IH]; cbn; [ | rewrite IH ]; reflexivity.
Qed.

Fixpoint pairUp (ds : list Z) : list Z :=
  match ds with
  | d1 :: d2 :: ds' => (16 * d1 + d2) :: pairUp ds'
  | _ => []
  end.

Definition digits16 : list Z := [0; 1; 2; 3; 4; 5; 6; 7; 8; 9; 10; 11; 12; 13; 14; 15].

Lemma In_digits16 (dgt : Z) : isDigit16 dgt -> In dgt digits16.
Proof.
  unfold isDigit16. intros H.
  assert (dgt = 0 \/ dgt = 1 \/ dgt = 2 \/ dgt = 3 \/ dgt = 4 \/ dgt = 5 \/ dgt = 6 \/
          dgt = 7 \/ dgt = 8 \/ dgt = 9 \/ dgt = 10 \/ dgt = 11 \/ dgt = 12 \/
          dgt = 13 \/ dgt = 14 \/ dgt = 15) as Hcases by lia.
  cbn. intuition.
Qed.

Lemma parseInt16_pair (d1 d2 : Z) :
  isDigit16 d1 -> isDigit16 d2 ->
  parseInt16 (String (hexChar d1) (String (hexChar d2) EmptyString)) = Some (16 * d1 + d2).
Proof.
  intros H1 H2.
  assert (Hall : forallb (fun a => forallb (fun b =>
            match parseInt16 (String (hexChar a) (String (hexChar b) EmptyString)) with
            | Some v => v =? 16 * a + b
            | None => false
            end) digits16) digits16 = true) by (vm_compute; reflexivity).
  rewrite forallb_forall in Hall. specialize (Hall d1 (In_digits16 H1)).
  rewrite forallb_forall in Hall. specialize (Hall d2 (In_digits16 H2)).
  destruct (parseInt16 _) as [v|]; [ | discriminate ].
  apply Z.eqb_eq in Hall. now subst.
Qed.

Lemma hexPairs_digits (m : nat) :
  forall ds, List.length ds = (2 * m)%nat -> Forall isDigit16 ds ->
    map (fun pair => toUint8 (parseInt16 pair)) (hexPairs (digitsToString ds))
    = map z2b (pairUp ds).
Proof.
  induction m as [|m IH]; intros ds Hlen Hds.
  - destruct ds; [ reflexivity | discriminate ].
  - destruct ds as [|d1 [|d2 ds]]; try (cbn in Hlen; lia).
    inversion Hds as [|? ? Hd1 Hds1]; subst. inversion Hds1 as [|? ? Hd2 Hds2]; subst.
    cbn [digitsToString hexPairs map pairUp].
    rewrite (parseInt16_pair Hd1 Hd2). cbn [toUint8]. f_equal.
    apply IH; [ cbn in Hlen; lia | exact Hds2 ].
Qed.

Lemma pairUp_length (m : nat) :
  forall ds, List.length ds = (2 * m)%nat -> List.length (pairUp ds) = m.
Proof.
  induction m as [|m IH]; intros ds Hlen.
  - destruct ds; [ reflexivity | discriminate ].
  - destruct ds as [|d1 [|d2 ds]]; try (cbn in Hlen; lia).
    cbn [pairUp List.length]. f_equal. apply IH. cbn in Hlen. lia.
Qed.

Lemma pairUp_range (m : nat) :
  forall ds, List.length ds = (2 * m)%nat -> Forall isDigit16 ds ->
    Forall (fun v => 0 <= v < 256) (pairUp ds).
Proof.
  induction m as [|m IH]; intros ds Hlen Hds.
  - destruct ds; [ constructor | discriminate ].
  - destruct ds as [|d1 [|d2 ds]]; try (cbn in Hlen; lia).
    inversion Hds as [|? ? Hd1 Hds1]; subst. inversion Hds1 as [|? ? Hd2 Hds2]; subst.
    cbn [pairUp]. constructor; [ unfold isDigit16 in *; lia | ].
    apply IH; [ cbn in Hlen; lia | exact Hds2 ].
Qed.

Lemma pairUp_value (m : nat) :
  forall ds acc, List.length ds = (2 * m)%nat ->
    fold_left (fun a v => 256 * a + v) (pairUp ds) acc
    = fold_left (fun a dgt => 16 * a + dgt) ds acc.
Proof.
  induction m as [|m IH]; intros ds acc Hlen.
  - destruct ds; [ reflexivity | discriminate ].
  - destruct ds as [|d1 [|d2 ds]]; try (cbn in Hlen; lia).
    cbn [pairUp fold_left]. rewrite IH by (cbn in Hlen; lia).
    f_equal. ring.
Qed.

Lemma b2z_range (b : byte) : 0 <= b2z b < 256.
Proof. unfold b2z. pose proof (Byte.to_N_bounded b). lia. Qed.

Lemma b2z_z2b (v : Z) : 0 <= v < 256 -> b2z (z2b v) = v.
Proof.
  intros Hv. unfold z2b, b2z. rewrite Z.mod_small by exact Hv.
  destruct (Byte.of_N (Z.to_N v)) as [b|] eqn:E.
  - apply Byte.to_of_N in E. rewrite E. lia.
  - apply Byte.of_N_None_iff in E. lia.
Qed.

Lemma z2b_b2z (b : byte) : z2b (b2z b) = b.
Proof.
  unfold z2b, b2z. rewrite Z.mod_small by apply b2z_range.
  rewrite N2Z.id, Byte.of_to_N. reflexivity.
Qed.

(** Little-endian value of a byte list. *)
Definition valueLE (l : bytes) : Z :=
  fold_right (fun b acc => b2z b + 256 * acc) 0 l.

Lemma bytesToNumberLE_from_spec (l : bytes) :
  forall i v, 0 <= i ->
    serializer.bytesToNumberLE_from i l v = v + 2 ^ (8 * i) * valueLE l.
Proof.
  induction l as [|b l IH]; intros i v Hi; cbn [serializer.bytesToNumberLE_from valueLE fold_right].
  - ring.
  - rewrite IH by lia. unfold_ints. rewrite Z.shiftl_mul_pow2 by lia.
    fold (valueLE l).
    replace (8 * (i + 1)) with (8 * i + 8) by ring.
    rewrite Z.pow_add_r by lia. change (2 ^ 8) with 256. ring.
Qed.

Lemma bytesToNumberLE_spec (l : bytes) : serializer.bytesToNumberLE l = valueLE l.
Proof.
  unfold serializer.bytesToNumberLE. rewrite bytesToNumberLE_from_spec by lia.
  change (2 ^ (8 * 0)) with 1. ring.
Qed.

Lemma valueLE_rev (l : bytes) : valueLE (rev l) = valueBE 256 (map b2z l).
Proof.
  induction l as [|b l IH] using rev_ind; [ reflexivity | ].
  rewrite rev_app_distr, map_app. cbn [rev app map].
  rewrite valueBE_snoc. cbn [valueLE fold_right]. fold (valueLE (rev l)).
  rewrite IH. ring.
Qed.

Lemma map_b2z_z2b (l : list Z) :
  Forall (fun v => 0 <= v < 256) l -> map b2z (map z2b l) = l.
Proof.
  induction 1 as [|v l Hv _ IH]; cbn; [ reflexivity | ].
  now rewrite b2z_z2b, IH.
Qed.

End Encodings.

(** ** Private-key normalization *)

Section KeyFacts.
Import keyUtils.

Lemma repeatChar_digits (c : nat) :
  repeatChar "0"%char c = digitsToString (repeat 0 c).
Proof. induction c as [|c IH]; cbn; [ reflexivity | now rewrite IH ]. Qed.

Lemma valueBE_leading_zeros (c : nat) (ds : list Z) :
  valueBE 16 (repeat 0 c ++ ds) = valueBE 16 ds.
Proof.
  unfold valueBE. rewrite fold_left_app. f_equal.
  induction c as [|c IH]; cbn; [ reflexivity | exact IH ].
Qed.

Lemma hexPairs_length (s : string) :
  List.length (hexPairs s) = Nat.div2 (String.length s).
Proof.
  revert s. fix IH 1. intros [|c1 [|c2 s]]; cbn; [ reflexivity | reflexivity | ].
  now rewrite IH.
Qed.

(** The integer branch: the 64-digit, zero-padded hexadecimal form of a
    key below 2^256 and the 32 big-endian bytes it converts to. *)
Lemma int_key_bytes (num : Z) :
  0 <= num < 2 ^ 256 ->
  exists bs,
    strlen (padStart0 (toString16 num) (B32 * 2)) = 64 /\
    hexToBytes (padStart0 (toString16 num) (B32 * 2)) = Ok bs /\
    List.length bs = 32%nat /\
    serializer.bytesToNumberLE (rev bs) = num.
Proof.
  intros Hnum.
  destruct (toString16_spec (k := num) ltac:(lia)) as (ds & Heq & Hds & Hval & Hlen).
  specialize (Hlen 64%nat ltac:(lia) ltac:(change (16 ^ Z.of_nat 64) with (2 ^ 256); lia)).
  unfold padStart0, strlen. rewrite Heq, digitsToString_length, repeatChar_digits.
  rewrite <- digitsToString_app.
  set (c := Z.to_nat (B32 * 2 - Z.of_nat (List.length ds))).
  assert (Hc : (c + List.length ds = 64)%nat) by (unfold c, B32; lia).
  assert (Hlen64 : List.length (repeat 0 c ++ ds) = (2 * 32)%nat)
    by (rewrite length_app, repeat_length; lia).
  assert (Hall : Forall isDigit16 (repeat 0 c ++ ds)).
  { apply Forall_app. split; [ | exact Hds ].
    apply Forall_forall. intros v Hv. apply repeat_spec in Hv. subst. unfold isDigit16. lia. }
  exists (map z2b (pairUp (repeat 0 c ++ ds))).
  split; [ | split; [ | split ] ].
  - rewrite digitsToString_length, Hlen64. reflexivity.
  - unfold hexToBytes, strlen. rewrite digitsToString_length, Hlen64.
    cbn [negb Z.rem Z.eqb]. rewrite (@hexPairs_digits 32 _ Hlen64 Hall). reflexivity.
  - rewrite length_map. apply (@pairUp_length 32). exact Hlen64.
  - rewrite bytesToNumberLE_spec, valueLE_rev.
    rewrite map_b2z_z2b by (apply (@pairUp_range 32 _ Hlen64 Hall)).
    unfold valueBE at 1. rewrite (@pairUp_value 32 _ 0 Hlen64).
    fold (valueBE 16 (repeat 0 c ++ ds)). rewrite valueBE_leading_zeros. exact Hval.
Qed.

(** Keys that [normalizePrivateKey] accepts. *)
Definition acceptedKey (key : PrivKey) : Prop :=
  match key with
  | KeyInt (Big num) => 0 <= num < 2 ^ 256
  | KeyInt (Num k) => 0 <= k <= MAX_SAFE_INTEGER
  | KeyHex (HexBytes b) => List.length b = 32%nat
  | KeyHex (HexString str) => String.length str = 64%nat
  end.

(** What the accepted key is turned into: the 32 bytes themselves, the
    bytes parsed from the 64 characters, or the big-endian bytes of the
    integer. *)
Definition normalForm (key : PrivKey) (bs : bytes) : Prop :=
  List.length bs = 32%nat /\
  match key with
  | KeyInt (Big num) => serializer.bytesToNumberLE (rev bs) = num
  | KeyInt (Num k) => serializer.bytesToNumberLE (rev bs) = k
  | KeyHex (HexBytes b) => bs = b
  | KeyHex (HexString str) => hexToBytes str = Ok bs
  end.

(** C8, as stated, fails: the integer 2^256 lies in [0, 2^256] and is
    rejected (its hexadecimal form has 65 digits). *)
Lemma normalizePrivateKey_rejects_2_256 :
  0 <= 2 ^ 256 <= 2 ^ 256 /\
  normalizePrivateKey (KeyInt (Big (2 ^ 256)))
  = Throw (Error "Expected 32 bytes of private key").
Proof. split; [ lia | vm_compute; reflexivity ]. Qed.

Lemma int_key_accept (num : Z) :
  0 <= num < 2 ^ 256 ->
  exists bs,
    (str <- Ok (Some (HexString (padStart0 (toString16 num) (B32 * 2)))) ;;
     match str with
     | Some (HexString str) =>
         if negb (strlen str =? 64) then Throw (Error "Expected 32 bytes of private key")
         else hexToBytes str
     | Some (HexBytes b) =>
         if negb (Z.of_nat (List.length b) =? 32)
         then Throw (Error "Expected 32 bytes of private key")
         else Ok b
     | None => Throw (TypeError "Expected valid private key")
     end)%result = Ok bs /\
    List.length bs = 32%nat /\ serializer.bytesToNumberLE (rev bs) = num.
Proof.
  intros Hnum. destruct (int_key_bytes Hnum) as (bs & Hlen & Hhex & Hbs & Hval).
  exists bs. cbn [rbind]. rewrite Hlen, Hhex. cbn. auto.
Qed.

(** C8, amended.  [normalizePrivateKey] accepts exactly: big integers in
    [0, 2^256) (2^256 itself is rejected), safe-integer numbers in
    [0, 2^53 - 1], byte arrays of length 32 and strings of length 64; and
    every accepted key yields 32 bytes: the array itself, the bytes
    parsed from the string, or the big-endian bytes of the integer. *)
Theorem normalizePrivateKey_spec (key : PrivKey) :
  (is_ok (normalizePrivateKey key) = true <-> acceptedKey key) /\
  (forall bs, normalizePrivateKey key = Ok bs -> normalForm key bs).
Proof.
  destruct key as [[b | str] | [num | k]]; unfold normalizePrivateKey, acceptedKey, normalForm.
  - (* byte array *)
    cbn [rbind].
    destruct (Z.eqb_spec (Z.of_nat (List.length b)) 32) as [E | NE]; cbn [negb is_ok].
    + split; [ split; intros; [ lia | reflexivity ] | ].
      intros bs [= <-]. split; [ lia | reflexivity ].
    + split; [ split; intros; [ discriminate | lia ] | intros bs [=] ].
  - (* hexadecimal string *)
    cbn [rbind]. unfold strlen.
    destruct (Z.eqb_spec (Z.of_nat (String.length str)) 64) as [E | NE]; cbn [negb is_ok].
    + assert (E' : String.length str = 64%nat) by lia.
      unfold hexToBytes, strlen. rewrite E.
      change (negb (Z.rem 64 2 =? 0)) with false. cbn [is_ok].
      split; [ split; intros; [ exact E' | reflexivity ] | ].
      intros bs [= <-]. split; [ | reflexivity ].
      rewrite length_map, hexPairs_length, E'. reflexivity.
    + split; [ split; intros; [ discriminate | lia ] | intros bs [=] ].
  - (* big integer *)
    unfold_ints.
    destruct (Z.ltb_spec num 0) as [Hneg | Hnn]; cbn [orb].
    { cbn. split; [ split; intros; [ discriminate | lia ] | intros bs [=] ]. }
    destruct (Z.gtb_spec num (2 ^ 256)) as [Hbig | Hle].
    { cbn. split; [ split; intros; [ discriminate | lia ] | intros bs [=] ]. }
    destruct (Z.eq_dec num (2 ^ 256)) as [-> | Hne].
    { split; [ split; [ vm_compute; discriminate | lia ] | vm_compute; intros bs [=] ]. }
    destruct (int_key_accept (num := num) ltac:(lia)) as (bs & Hrun & Hbs & Hval).
    rewrite Hrun. cbn [is_ok].
    split; [ split; intros; [ lia | reflexivity ] | intros bs' [= <-]; auto ].
  - (* number *)
    unfold isSafeInteger, MAX_SAFE_INTEGER. unfold_ints.
    destruct (Z.leb_spec (- (2 ^ 53 - 1)) k) as [Hlo | Hlo]; cbn [andb];
      [ | cbn; split; [ split; intros; [ discriminate | lia ] | intros bs [=] ] ].
    destruct (Z.leb_spec k (2 ^ 53 - 1)) as [Hhi | Hhi];
      [ | cbn; split; [ split; intros; [ discriminate | lia ] | intros bs [=] ] ].
    destruct (Z.ltb_spec k 0) as [Hneg | Hnn]; cbn [orb].
    { cbn. split; [ split; intros; [ discriminate | lia ] | intros bs [=] ]. }
    destruct (Z.gtb_spec k (2 ^ 256)) as [Hbig | Hle]; [ exfalso; lia | ].
    destruct (int_key_accept (num := k) ltac:(lia)) as (bs & Hrun & Hbs & Hval).
    rewrite Hrun. cbn [is_ok].
    split; [ split; intros; [ lia | reflexivity ] | intros bs' [= <-]; auto ].
Qed.

End KeyFacts.

(** ** Scalar multiplication: rejected scalars and small-order points *)

Section MultiplyFacts.

(** The affine point (0, -1) of order two (TORSION_SUBGROUP[4]), as an
    object allocated right after [makeED]. *)
Definition ORDER2_affine : Point.point := Point.mk 0 (CURVE.P - 1) 3%nat.

Definition ORDER2_heap : ExtendedPoint.Heap :=
  {| ExtendedPoint.next_ref := 4%nat;
     ExtendedPoint.WINDOW_SIZE := [(Point.oid Point.BASE, 8%N)];
     ExtendedPoint.pointPrecomputes := [] |}.

Lemma ORDER2_affine_new :
  Point.new 0 (CURVE.P - 1) makeED_heap = (Ok ORDER2_affine, ORDER2_heap).
Proof. reflexivity. Qed.

Lemma Point_multiply_invalid_scalar (be : Backend) (P : Point.point)
      (scalar : NumOrBig) (h : ExtendedPoint.Heap) :
  serializer.isValidScalar scalar = false ->
  is_ok (fst (Point.multiply be P scalar h)) = false.
Proof.
  intros Hs. unfold Point.multiply, bind, lift.
  destruct (ExtendedPoint.fromAffine be (Point.asObject P)) as [e | e | ]; cbn [fst is_ok];
    try reflexivity.
  unfold ExtendedPoint.multiply. rewrite Hs. reflexivity.
Qed.

(** C4, as stated, fails: 0 * P is not ZERO, [multiply] throws on the
    scalar 0 (here for P = BASE). *)
Lemma Point_multiply_zero_throws :
  fst (Point.multiply JSBI Point.BASE (Big 0) makeED_heap)
  = Throw (TypeError "Point#multiply: expected number or bigint").
Proof. vm_compute. reflexivity. Qed.

(** C7.  For the curve point P = (0, -1) and the scalar 1,
    [P.multiply(1)] returns the identity (0, 1), because [add] takes
    ZERO + P for a doubling (its F = 0 test), whereas
    [multiplyUnsafe(1)] returns P itself. *)
Theorem multiply_ORDER2_by_one :
  fst (Point.multiply JSBI ORDER2_affine (Big 1) ORDER2_heap)
    = Ok (Point.mk 0 1 4%nat) /\
  (e <- ExtendedPoint.fromAffine JSBI (Point.asObject ORDER2_affine) ;;
   r <- ExtendedPoint.multiplyUnsafe e 1 ;;
   ExtendedPoint.toAffine r)%result = Ok (0, CURVE.P - 1).
Proof. split; vm_compute; reflexivity. Qed.

End MultiplyFacts.

(** ** Signing and verifying *)

(** [verify(sign(m, pk), m, getPublicKey(pk))]. *)
Definition sign_then_verify (env : Env) (hash : Hex) (privateKey : PrivKey)
  : M ExtendedPoint.Heap bool :=
  (sig <- sign env hash privateKey ;;
   pub <- getPublicKey env privateKey ;;
   verify env (SigHex sig) hash (PubHex pub))%heap.

Section SignFacts.

(** [sign] hashes the private key with the platform's SHA-512 only: the
    injected implementation is not passed to this first call. *)
Lemma sign_needs_platform_sha512 (env : Env) (hash : Hex) (pk : PrivKey)
      (h : ExtendedPoint.Heap) :
  platformSha512 env = None ->
  is_ok (fst (sign env hash pk h)) = false.
Proof.
  intros Hp. unfold sign, bind, lift.
  destruct (keyUtils.normalizePrivateKey pk) as [key | e | ]; cbn [fst is_ok]; try reflexivity.
  unfold sha512. rewrite Hp. reflexivity.
Qed.

(** [sign] throws whenever the nonce r = SHA-512(prefix || m) mod l is 0,
    since [Point.BASE.multiply(0)] is rejected. *)
Lemma sign_zero_nonce (env : Env) (hash : Hex) (pk : PrivKey)
      (h : ExtendedPoint.Heap) (key privBytes msg : bytes) :
  keyUtils.normalizePrivateKey pk = Ok key ->
  sha512 env key None = Ok privBytes ->
  ensureBytes hash = Ok msg ->
  sha512ToNumberLE env [keyUtils.keyPrefix privBytes; msg] = Ok 0 ->
  is_ok (fst (sign env hash pk h)) = false.
Proof.
  intros Hkey Hpriv Hmsg Hr. unfold sign, bind at 1 2, lift at 1 2.
  rewrite Hkey, Hpriv. unfold bind at 1.
  destruct (Point.multiply (backend env) Point.BASE _ h) as [[P | e | ] h1];
    cbn [fst is_ok]; try reflexivity.
  unfold bind at 1 2, lift at 1 2. rewrite Hmsg, Hr. unfold bind at 1.
  pose proof (@Point_multiply_invalid_scalar (backend env) Point.BASE (Big 0) h1
                eq_refl) as Hz.
  destruct (Point.multiply (backend env) Point.BASE (Big 0) h1) as [[R | e | ] h2];
    cbn [fst is_ok] in *; [ discriminate Hz | reflexivity | reflexivity ].
Qed.

(** A hash function that returns 64 zero bytes. *)
Definition zeroHash : Hash := fun _ => repeat x00 64.

Definition zeroHash_env : Env :=
  {| backend := JSBI; platformSha512 := Some zeroHash; sha512Impl := Some zeroHash |}.

(** C1, as stated, fails: with the pure function [zeroHash] for SHA-512,
    the all-zero 32-byte key and the empty message, [sign] throws, so
    the round trip does not return true. *)
Lemma sign_then_verify_zeroHash :
  fst (sign_then_verify zeroHash_env (HexBytes []) (KeyHex (HexBytes (repeat x00 32)))
         makeED_heap) <> Ok true.
Proof.
  unfold sign_then_verify, bind at 1.
  pose proof (@sign_zero_nonce zeroHash_env (HexBytes []) (KeyHex (HexBytes (repeat x00 32)))
                makeED_heap (repeat x00 32) (repeat x00 64) []
                eq_refl eq_refl eq_refl eq_refl) as Hs.
  destruct (sign zeroHash_env _ _ makeED_heap) as [[sig | e | ] h1];
    cbn [fst is_ok] in *; [ discriminate Hs | discriminate | discriminate ].
Qed.

End SignFacts.

(* ================================================================== *)
(** * The group law and the arithmetic of the library *)

From Stdlib Require Import Znumtheory Ring Field ZArithRing.
From Stdlib Require Import Zmod.ZmodInv.

Unset Implicit Arguments.

(** ** Primality certificates *)

(** Modular exponentiation by repeated squaring, on the binary digits of
    the exponent. *)
Fixpoint powmod_pos (a : Z) (e : positive) (m : Z) : Z :=
  match e with
  | xH => a mod m
  | xO e' => let r := powmod_pos a e' m in (r * r) mod m
  | xI e' => let r := powmod_pos a e' m in (r * r mod m * a) mod m
  end.

Definition powmod (a e m : Z) : Z :=
  match e with
  | Zpos e' => powmod_pos a e' m
  | _ => 1 mod m
  end.

Lemma powmod_pos_spec (a : Z) (e : positive) (m : Z) :
  powmod_pos a e m = a ^ Zpos e mod m.
Proof.
  induction e as [e IH | e IH | ]; cbn [powmod_pos].
  - rewrite IH, Pos2Z.inj_xI.
    replace (2 * Z.pos e + 1) with (Z.pos e + Z.pos e + 1) by lia.
    rewrite !Z.pow_add_r, Z.pow_1_r by lia.
    rewrite Zmult_mod_idemp_l. symmetry.
    rewrite <- Zmult_mod_idemp_l, (Zmult_mod (a ^ Z.pos e) (a ^ Z.pos e)), Zmult_mod_idemp_l.
    reflexivity.
  - rewrite IH, Pos2Z.inj_xO.
    replace (2 * Z.pos e) with (Z.pos e + Z.pos e) by lia.
    rewrite Z.pow_add_r by lia. now rewrite <- Zmult_mod.
  - now rewrite Z.pow_1_r.
Qed.

Lemma powmod_spec (a e m : Z) : 0 <= e -> powmod a e m = a ^ e mod m.
Proof.
  intros He. destruct e as [|e|e]; cbn [powmod]; [ reflexivity | apply powmod_pos_spec | lia ].
Qed.

(** Every integer above 1 has a prime divisor. *)
Lemma prime_divisor_exists (n : Z) : 1 < n -> exists r, Z.prime r /\ (r | n).
Proof.
  destruct (Z_lt_le_dec n 0) as [Hneg | Hnn]; [ lia | ].
  revert n Hnn. apply (Z_lt_induction (fun n => 1 < n -> exists r, Z.prime r /\ (r | n))).
  intros n IH Hn.
  destruct (prime_dec n) as [Hp | Hnp].
  - exists n. split; [ apply prime_alt, Hp | apply Z.divide_refl ].
  - destruct (not_prime_divide n Hn Hnp) as (m & Hm & Hdiv).
    destruct (IH m ltac:(lia) ltac:(lia)) as (r & Hr & Hrm).
    exists r. split; [ exact Hr | eapply Z.divide_trans; eassumption ].
Qed.

(** A composite number has a prime divisor not exceeding its square root. *)
Lemma small_prime_divisor (n : Z) :
  1 < n -> ~ Z.prime n -> exists r, Z.prime r /\ (r | n) /\ r * r <= n.
Proof.
  intros Hn Hnp. rewrite prime_alt in Hnp.
  destruct (not_prime_divide n Hn Hnp) as (m & Hm & [k Hk]).
  assert (Hk1 : 1 < k < n) by nia.
  destruct (Z_le_gt_dec (m * m) n) as [Hle | Hgt].
  - destruct (@prime_divisor_exists m ltac:(lia)) as (r & Hr & Hrm).
    exists r. split; [ exact Hr | split ].
    + apply Z.divide_trans with m; [ exact Hrm | exists k; lia ].
    + pose proof (Z.prime_ge_2 _ Hr). apply Z.divide_pos_le in Hrm; [ | lia ].
      assert (r * r <= m * m) by (apply Z.mul_le_mono_nonneg; lia). lia.
  - destruct (@prime_divisor_exists k ltac:(lia)) as (r & Hr & Hrk).
    exists r. split; [ exact Hr | split ].
    + apply Z.divide_trans with k; [ exact Hrk | exists m; lia ].
    + pose proof (Z.prime_ge_2 _ Hr). apply Z.divide_pos_le in Hrk; [ | lia ].
      assert (r * r <= k * k) by (apply Z.mul_le_mono_nonneg; lia).
      assert (k <= m) by nia.
      assert (k * k <= k * m) by (apply Z.mul_le_mono_nonneg_l; lia). lia.
Qed.

Lemma pow_mod_one (x j r : Z) : 1 < r -> 0 <= j -> x mod r = 1 -> x ^ j mod r = 1.
Proof.
  intros Hr Hj Hx. rewrite <- Z.mod_pow_l, Hx, Z.pow_1_l by exact Hj.
  apply Z.mod_small. lia.
Qed.

Lemma pow_mod_zero (x j r : Z) : 1 < r -> 0 < j -> x mod r = 0 -> x ^ j mod r = 0.
Proof.
  intros Hr Hj Hx. rewrite <- Z.mod_pow_l, Hx, Z.pow_0_l by exact Hj.
  apply Z.mod_small. lia.
Qed.

(** The order argument of Pocklington's criterion: every prime factor r of
    N is 1 modulo each certified prime factor q of N - 1. *)
Lemma pocklington_step (N a q r : Z) :
  1 < N -> Z.prime r -> (r | N) ->
  a ^ (N - 1) mod N = 1 ->
  Z.prime q -> (q | N - 1) ->
  Z.gcd (a ^ ((N - 1) / q) - 1) N = 1 ->
  (q | r - 1).
Proof.
  intros HN Hr HrN Hfermat Hq HqN Hgcd.
  pose proof (Z.prime_ge_2 _ Hr) as Hr2. pose proof (Z.prime_ge_2 _ Hq) as Hq2.
  set (e := (N - 1) / q).
  assert (He : N - 1 = q * e).
  { unfold e. destruct HqN as [k Hk]. rewrite Hk, Z.div_mul by lia. lia. }
  assert (He0 : 0 < e) by nia.
  set (b := a ^ e).
  assert (Hbq : b ^ q mod r = 1).
  { unfold b. rewrite <- Z.pow_mul_r by lia. rewrite (Z.mul_comm e q), <- He.
    rewrite <- (Z.mod_mod_divide _ N r HrN), Hfermat. apply Z.mod_small. lia. }
  assert (Hb1 : b mod r <> 1).
  { intros Hb.
    assert (Hd : (r | b - 1)).
    { apply Z.mod_divide; [ lia | ]. rewrite Zminus_mod, Hb.
      rewrite (Z.mod_small 1 r) by lia. reflexivity. }
    assert (Hg : (r | Z.gcd (b - 1) N)) by (apply Z.gcd_greatest; assumption).
    fold e in Hgcd. fold b in Hgcd. rewrite Hgcd in Hg.
    apply Z.divide_1_r_nonneg in Hg; lia. }
  assert (Hb0 : b mod r <> 0).
  { intros Hb. rewrite (@pow_mod_zero b q r) in Hbq; try lia; exact Hb. }
  pose proof (Z.fermat_nz r b Hr Hb0) as Hflt.
  destruct (Zdivide_dec q (r - 1)) as [Hyes | Hno]; [ exact Hyes | exfalso ].
  assert (Hcop : Z.coprime q (r - 1)) by (apply Z.coprime_prime_l; assumption).
  destruct (Z.Bezout_coprime _ _ Hcop) as (u & v & Huv).
  apply Hb1.
  assert (Hr1 : 1 < r) by (clear - Hr2; lia).
  destruct (Z_le_gt_dec v 0) as [Hv | Hv].
  - (* u * q = 1 + (r - 1) * (-v) *)
    assert (Hnn : 0 <= (r - 1) * - v)
      by (clear - Hv Hr2; apply Z.mul_nonneg_nonneg; lia).
    assert (Hexp : u * q = 1 + (r - 1) * - v) by (clear - Huv; lia).
    assert (Hu : 0 <= u).
    { clear - Hexp Hnn Hq2. destruct (Z_lt_le_dec u 0) as [Hu0 | ]; [ exfalso | assumption ].
      assert (u * q <= 0) by (apply Z.mul_nonpos_nonneg; lia). lia. }
    assert (Hv' : 0 <= - v) by (clear - Hv; lia).
    assert (Hr' : 0 <= r - 1) by (clear - Hr2; lia).
    assert (Hq' : 0 <= q) by (clear - Hq2; lia).
    assert (E : b ^ (u * q) = b * (b ^ (r - 1)) ^ (- v)).
    { rewrite Hexp, Z.pow_add_r, Z.pow_1_r, Z.pow_mul_r
        by first [ assumption | discriminate ].
      reflexivity. }
    assert (L : b ^ (u * q) mod r = 1).
    { rewrite (Z.mul_comm u q), Z.pow_mul_r by assumption.
      apply pow_mod_one; assumption. }
    rewrite E in L. rewrite <- Zmult_mod_idemp_r in L.
    rewrite (pow_mod_one (b ^ (r - 1)) (- v) r Hr1 Hv' Hflt) in L.
    now rewrite Z.mul_1_r in L.
  - (* v * (r - 1) = 1 + q * (-u) *)
    assert (Hv' : 0 <= v) by (clear - Hv; lia).
    assert (Hr' : 0 <= r - 1) by (clear - Hr2; lia).
    assert (Hq' : 0 <= q) by (clear - Hq2; lia).
    assert (Hexp0 : u * q = 1 - v * (r - 1)) by (clear - Huv; lia).
    assert (Hu : 0 <= - u).
    { clear - Hexp0 Hv Hr2 Hq2. destruct (Z_lt_le_dec 0 u) as [Hu0 | ]; [ exfalso | lia ].
      assert (1 <= u * q) by (change 1 with (1 * 1); apply Z.mul_le_mono_nonneg; lia).
      assert (1 <= v * (r - 1)) by (change 1 with (1 * 1); apply Z.mul_le_mono_nonneg; lia).
      lia. }
    assert (Hnn : 0 <= q * - u) by (apply Z.mul_nonneg_nonneg; assumption).
    assert (Hexp : v * (r - 1) = 1 + q * - u) by (clear - Huv; lia).
    assert (E : b ^ (v * (r - 1)) = b * (b ^ q) ^ (- u)).
    { rewrite Hexp, Z.pow_add_r, Z.pow_1_r, Z.pow_mul_r
        by first [ assumption | discriminate ].
      reflexivity. }
    assert (L : b ^ (v * (r - 1)) mod r = 1).
    { rewrite (Z.mul_comm v (r - 1)), Z.pow_mul_r by assumption.
      apply pow_mod_one; assumption. }
    rewrite E in L. rewrite <- Zmult_mod_idemp_r in L.
    rewrite (pow_mod_one (b ^ q) (- u) r Hr1 Hu Hbq) in L.
    now rewrite Z.mul_1_r in L.
Qed.

(** Distinct primes that all divide m have a product that divides m. *)
Lemma prime_list_product_divides (qs : list Z) (m : Z) :
  Forall Z.prime qs -> NoDup qs -> Forall (fun q => (q | m)) qs ->
  (fold_right Z.mul 1 qs | m).
Proof.
  induction qs as [|q qs IH]; intros Hp Hnd Hdiv; cbn [fold_right].
  - apply Z.divide_1_l.
  - inversion Hp as [|? ? Hq Hp']; subst. inversion Hnd as [|? ? Hnotin Hnd']; subst.
    inversion Hdiv as [|? ? Hqm Hdiv']; subst.
    specialize (IH Hp' Hnd' Hdiv').
    assert (Hcop : Z.coprime q (fold_right Z.mul 1 qs)).
    { apply Z.coprime_prime_l; [ exact Hq | ].
      clear IH Hdiv' Hnd' Hqm Hdiv Hnd Hp. induction qs as [|q' qs IHq]; cbn [fold_right].
      - intros Hd. apply Z.divide_1_r_nonneg in Hd; pose proof (Z.prime_ge_2 _ Hq); lia.
      - inversion Hp' as [|? ? Hq' Hp'']; subst.
        intros Hd. apply (Z.divide_prime_mul _ _ q Hq) in Hd. destruct Hd as [Hd | Hd].
        + apply (Z.divide_prime_prime _ _ Hq Hq') in Hd. subst. apply Hnotin. now left.
        + apply IHq; [ exact Hp'' | | exact Hd ]. intros Hin. apply Hnotin. now right. }
    destruct IH as [k Hk]. subst m.
    assert (Hqk : (q | k)).
    { apply Z.gauss with (fold_right Z.mul 1 qs); [ | exact Hcop ].
      now rewrite Z.mul_comm. }
    destruct Hqk as [j Hj]. exists j. subst k. ring.
Qed.

(** Pocklington's criterion for a certified part F = q1 * ... * qk of
    N - 1 with distinct primes qi and N < F^2. *)
Theorem pocklington (N a : Z) (qs : list Z) :
  1 < N ->
  Forall Z.prime qs -> NoDup qs ->
  Forall (fun q => (q | N - 1)) qs ->
  N < fold_right Z.mul 1 qs * fold_right Z.mul 1 qs ->
  a ^ (N - 1) mod N = 1 ->
  Forall (fun q => Z.gcd (a ^ ((N - 1) / q) - 1) N = 1) qs ->
  Z.prime N.
Proof.
  intros HN Hp Hnd Hdiv Hbig Hfermat Hgcd.
  destruct (prime_dec N) as [Hyes | Hno]; [ apply prime_alt, Hyes | exfalso ].
  rewrite <- prime_alt in Hno.
  destruct (@small_prime_divisor N HN Hno) as (r & Hr & HrN & Hsmall).
  pose proof (Z.prime_ge_2 _ Hr) as Hr2.
  assert (Hall : Forall (fun q => (q | r - 1)) qs).
  { rewrite Forall_forall in *. intros q Hin.
    apply (@pocklington_step N a q r); auto. }
  pose proof (@prime_list_product_divides qs (r - 1) Hp Hnd Hall) as HF.
  apply Z.divide_pos_le in HF; [ | lia ].
  assert (0 < fold_right Z.mul 1 qs).
  { clear -Hp. induction Hp as [|q qs Hq _ IH]; cbn [fold_right]; [ lia | ].
    pose proof (Z.prime_ge_2 _ Hq). nia. }
  nia.
Qed.

(** Trial division for small numbers. *)
Fixpoint no_divisor_upto (n : Z) (k : nat) : bool :=
  match k with
  | O => true
  | S k' => negb (n mod (Z.of_nat k' + 2) =? 0) && no_divisor_upto n k'
  end.

Lemma no_divisor_upto_spec (n : Z) (k : nat) :
  no_divisor_upto n k = true ->
  forall dv, 2 <= dv < Z.of_nat k + 2 -> ~ (dv | n).
Proof.
  induction k as [|k IH]; intros H dv Hdv; [ lia | ].
  cbn [no_divisor_upto] in H. apply andb_true_iff in H. destruct H as [H1 H2].
  destruct (Z.eq_dec dv (Z.of_nat k + 2)) as [-> | Hne].
  - intros Hd. apply Z.mod_divide in Hd; [ | lia ].
    rewrite Hd in H1. discriminate H1.
  - apply IH; [ exact H2 | lia ].
Qed.

Lemma trial_division (n : Z) (k : nat) :
  1 < n -> n < (Z.of_nat k + 2) * (Z.of_nat k + 2) ->
  no_divisor_upto n k = true -> Z.prime n.
Proof.
  intros Hn Hk Hnd.
  destruct (prime_dec n) as [Hyes | Hno]; [ apply prime_alt, Hyes | exfalso ].
  rewrite <- prime_alt in Hno.
  destruct (@small_prime_divisor n Hn Hno) as (r & Hr & Hrn & Hsmall).
  pose proof (Z.prime_ge_2 _ Hr).
  apply (@no_divisor_upto_spec n k Hnd r); [ nia | exact Hrn ].
Qed.

(** A certificate check that computes. *)
Definition pocklington_check (N a : Z) (qs : list Z) : bool :=
  (1 <? N)
  && forallb (fun q => (N - 1) mod q =? 0) qs
  && (N <? fold_right Z.mul 1 qs * fold_right Z.mul 1 qs)
  && (powmod a (N - 1) N =? 1)
  && forallb (fun q => Z.gcd (powmod a ((N - 1) / q) N - 1) N =? 1) qs.

Lemma pocklington_check_sound (N a : Z) (qs : list Z) :
  Forall Z.prime qs -> NoDup qs ->
  pocklington_check N a qs = true -> Z.prime N.
Proof.
  intros Hp Hnd Hc. unfold pocklington_check in Hc.
  repeat (apply andb_true_iff in Hc; destruct Hc as [Hc ?]).
  apply Z.ltb_lt in Hc.
  apply (@pocklington N a qs); auto.
  - rewrite forallb_forall in *. apply Forall_forall. intros q Hin.
    apply Z.mod_divide; [ | apply Z.eqb_eq; auto ].
    rewrite Forall_forall in Hp. pose proof (Z.prime_ge_2 _ (Hp q Hin)). lia.
  - now apply Z.ltb_lt.
  - rewrite <- powmod_spec by lia. now apply Z.eqb_eq.
  - rewrite forallb_forall in *. apply Forall_forall. intros q Hin.
    rewrite Forall_forall in Hp. pose proof (Z.prime_ge_2 _ (Hp q Hin)) as Hq2.
    assert (Hge : 0 <= (N - 1) / q) by (apply Z.div_pos; lia).
    specialize (H q Hin). apply Z.eqb_eq in H.
    rewrite powmod_spec in H by exact Hge.
    rewrite <- Z.gcd_mod_l, Zminus_mod, Z.mod_mod in H by lia.
    rewrite <- Zminus_mod, Z.gcd_mod_l in H. exact H.
Qed.

(** ** The field prime p = 2^255 - 19 *)

Create HintDb primes.

Ltac prove_NoDup :=
  repeat (constructor; [ cbn; intuition discriminate | ]); constructor.

Ltac prove_primes :=
  repeat (apply Forall_cons; [ solve [ auto with primes ] | ]); apply Forall_nil.

Ltac by_trial k :=
  apply (@trial_division _ k); [ lia | vm_compute; reflexivity | vm_compute; reflexivity ].

Ltac by_pocklington a qs :=
  apply (@pocklington_check_sound _ a qs);
    [ prove_primes | prove_NoDup | vm_compute; reflexivity ].

Lemma prime_97 : Z.prime 97. Proof. by_trial 8%nat. Qed.
Lemma prime_103 : Z.prime 103. Proof. by_trial 9%nat. Qed.
Lemma prime_127 : Z.prime 127. Proof. by_trial 10%nat. Qed.
Lemma prime_419 : Z.prime 419. Proof. by_trial 19%nat. Qed.
Lemma prime_991 : Z.prime 991. Proof. by_trial 30%nat. Qed.
Lemma prime_1723 : Z.prime 1723. Proof. by_trial 40%nat. Qed.
Lemma prime_4153 : Z.prime 4153. Proof. by_trial 63%nat. Qed.
#[local] Hint Resolve prime_97 prime_103 prime_127 prime_419 prime_991 prime_1723
  prime_4153 : primes.

Lemma prime_8574133 : Z.prime 8574133.
Proof. by_pocklington 2 [991; 103]. Qed.
#[local] Hint Resolve prime_8574133 : primes.

Lemma prime_1919519569386763 : Z.prime 1919519569386763.
Proof. by_pocklington 2 [8574133; 127]. Qed.

Lemma prime_569003 : Z.prime 569003.
Proof. by_pocklington 2 [419; 97]. Qed.
#[local] Hint Resolve prime_1919519569386763 prime_569003 : primes.

Lemma prime_2773320623 : Z.prime 2773320623.
Proof. by_pocklington 2 [569003]. Qed.
#[local] Hint Resolve prime_2773320623 : primes.

Lemma prime_72106336199 : Z.prime 72106336199.
Proof. by_pocklington 2 [2773320623]. Qed.
#[local] Hint Resolve prime_72106336199 : primes.

Lemma prime_75445702479781427272750846543864801 :
  Z.prime 75445702479781427272750846543864801.
Proof. by_pocklington 2 [1919519569386763; 72106336199]. Qed.

Lemma prime_430751 : Z.prime 430751.
Proof. by_pocklington 2 [1723]. Qed.
#[local] Hint Resolve prime_75445702479781427272750846543864801 prime_430751 : primes.

Lemma prime_31757755568855353 : Z.prime 31757755568855353.
Proof. by_pocklington 2 [430751; 4153]. Qed.
#[local] Hint Resolve prime_31757755568855353 : primes.

Lemma prime_q236 :
  Z.prime 74058212732561358302231226437062788676166966415465897661863160754340907.
Proof.
  by_pocklington 2 [75445702479781427272750846543864801; 31757755568855353].
Qed.
#[local] Hint Resolve prime_q236 : primes.

Theorem prime_2_255_19 : Z.prime (2 ^ 255 - 19).
Proof.
  by_pocklington 2
    [74058212732561358302231226437062788676166966415465897661863160754340907].
Qed.

(** ** The field of residues modulo p *)

Lemma P_value : CURVE.P = 2 ^ 255 - 19.
Proof. reflexivity. Qed.

Lemma prime_P : Z.prime CURVE.P.
Proof. rewrite P_value. exact prime_2_255_19. Qed.

Definition finv (z : Z) : Z := Z.invmod z CURVE.P.
Definition fdiv (a b : Z) : Z := a * finv b.

Lemma eqP_0_iff (a : Z) : a == 0 <-> a mod CURVE.P = 0.
Proof. unfold eqP. rewrite (Z.mod_0_l CURVE.P) by discriminate. reflexivity. Qed.

Lemma finv_l (z : Z) : ~ z == 0 -> finv z * z == 1.
Proof.
  intros Hz. unfold eqP, finv. rewrite Z.invmod_prime; [ reflexivity | exact prime_P | ].
  now rewrite <- eqP_0_iff.
Qed.

#[global] Instance finv_Proper : Proper (eqP ==> eqP) finv.
Proof.
  intros a b Hab. unfold finv. rewrite <- (Z.invmod_mod_l a), <- (Z.invmod_mod_l b).
  unfold eqP in Hab. rewrite Hab. reflexivity.
Qed.

#[global] Instance fdiv_Proper : Proper (eqP ==> eqP ==> eqP) fdiv.
Proof. intros a b Hab c d Hcd. unfold fdiv. now rewrite Hab, Hcd. Qed.

Lemma finv_range (z : Z) : 0 <= finv z < CURVE.P.
Proof. unfold finv. rewrite <- Z.mod_invmod. apply Z.mod_pos_bound. reflexivity. Qed.

Lemma eqP_ring_theory : ring_theory 0 1 Z.add Z.mul Z.sub Z.opp eqP.
Proof.
  split; intros; apply eqP_of_eq; ring.
Qed.

Lemma eqP_1_neq_0 : ~ 1 == 0.
Proof. unfold eqP. vm_compute. discriminate. Qed.

Lemma eqP_field_theory : field_theory 0 1 Z.add Z.mul Z.sub Z.opp fdiv finv eqP.
Proof.
  split.
  - exact eqP_ring_theory.
  - exact eqP_1_neq_0.
  - intros a b. reflexivity.
  - intros a Ha. apply finv_l, Ha.
Qed.

Lemma eqP_ring_eq_ext : ring_eq_ext Z.add Z.mul Z.opp eqP.
Proof. split; [ exact eqP_add | exact eqP_mul | exact eqP_opp ]. Qed.

Lemma eqP_morph :
  ring_morph 0 1 Z.add Z.mul Z.sub Z.opp eqP 0 1 Z.add Z.mul Z.sub Z.opp Z.eqb (fun z => z).
Proof.
  split; intros; try reflexivity. apply eqP_of_eq. now apply Z.eqb_eq.
Qed.

Lemma eqP_integral (a b : Z) : a * b == 0 -> a == 0 \/ b == 0.
Proof.
  rewrite !eqP_0_iff. intros H.
  apply Z.mod_divide in H; [ | discriminate ].
  apply (Z.divide_prime_mul _ _ _ prime_P) in H.
  destruct H as [H | H]; [ left | right ]; apply Z.mod_divide; try discriminate; exact H.
Qed.

Lemma eqP_dec (a b : Z) : {a == b} + {~ a == b}.
Proof. unfold eqP. apply Z.eq_dec. Qed.

Lemma modP_eq_of_eqP (a b : Z) : a == b -> math.modP a = math.modP b.
Proof. intros H. rewrite !modP_spec. exact H. Qed.

Lemma modP_eq_0_iff (a : Z) : math.modP a = 0 <-> a == 0.
Proof. rewrite modP_spec. symmetry. apply eqP_0_iff. Qed.

(** ** The twisted Edwards curve -x^2 + y^2 = 1 + d x^2 y^2 *)

Definition curveEq (d x y : Z) : Z := y * y - x * x - 1 - d * x * x * y * y.

(** Polynomial identities behind the group law.  The cofactors of the
    curve equations were found by dividing the left-hand sides by the
    three curve polynomials; [ring] checks them. *)

Lemma assoc_cert_x (d x1 y1 x2 y2 x3 y3 : Z) :
  let n1 := x1 * y2 + y1 * x2 in
  let n2 := y1 * y2 + x1 * x2 in
  let D1p := 1 + d * x1 * x2 * y1 * y2 in
  let D1m := 1 - d * x1 * x2 * y1 * y2 in
  let m1 := x2 * y3 + y2 * x3 in
  let m2 := y2 * y3 + x2 * x3 in
  let D2p := 1 + d * x2 * x3 * y2 * y3 in
  let D2m := 1 - d * x2 * x3 * y2 * y3 in
  (n1 * D1m * y3 + n2 * D1p * x3) * (D2p * D2m + d * x1 * y1 * m1 * m2)
  - (x1 * m2 * D2p + y1 * m1 * D2m) * (D1p * D1m + d * n1 * n2 * x3 * y3)
  = (y1*y2*x3 - y1*y2*x3*y3*y3 + y1*y2*x3*x3*x3 - y1*y2*y2*y2*x3 + y1*y2*y2*y2*x3*y3*y3
    - y1*y2*y2*y2*x3*x3*x3 + y1*x2*y3 - y1*x2*y3*y3*y3 + y1*x2*x3*x3*y3 -
    y1*x2*y2*y2*y3 + y1*x2*y2*y2*y3*y3*y3 - y1*x2*y2*y2*x3*x3*y3 + y1*x2*x2*y2*x3 -
    y1*x2*x2*y2*x3*y3*y3 + y1*x2*x2*y2*x3*x3*x3 + y1*x2*x2*x2*y3 - y1*x2*x2*x2*y3*y3*y3
    + y1*x2*x2*x2*x3*x3*y3 + x1*y2*y3 - x1*y2*y3*y3*y3 + x1*y2*x3*x3*y3 -
    x1*y2*y2*y2*y3 + x1*y2*y2*y2*y3*y3*y3 - x1*y2*y2*y2*x3*x3*y3 + x1*x2*x3 -
    x1*x2*x3*y3*y3 + x1*x2*x3*x3*x3 - x1*x2*y2*y2*x3 + x1*x2*y2*y2*x3*y3*y3 -
    x1*x2*y2*y2*x3*x3*x3 + x1*x2*x2*y2*y3 - x1*x2*x2*y2*y3*y3*y3 + x1*x2*x2*y2*x3*x3*y3
    + x1*x2*x2*x2*x3 - x1*x2*x2*x2*x3*y3*y3 + x1*x2*x2*x2*x3*x3*x3 -
    d*y1*x2*y2*y2*x3*x3*y3 - d*y1*x2*x2*y2*x3*y3*y3 + d*x1*x2*y2*y2*x3*y3*y3 +
    d*x1*x2*x2*y2*x3*x3*y3)
    * curveEq d x1 y1
  + (d*y1*y2*x3*x3*x3*y3*y3 + d*y1*x2*x3*x3*y3*y3*y3 - d*y1*y1*y1*y2*x3*x3*x3*y3*y3 -
    d*y1*y1*y1*x2*x3*x3*y3*y3*y3 + d*x1*y2*x3*x3*y3*y3*y3 + d*x1*x2*x3*x3*x3*y3*y3 -
    d*x1*y1*y1*y2*x3*x3*y3*y3*y3 - d*x1*y1*y1*x2*x3*x3*x3*y3*y3 +
    d*x1*x1*y1*y2*x3*x3*x3*y3*y3 + d*x1*x1*y1*x2*x3*x3*y3*y3*y3 -
    d*x1*x1*y1*y1*y1*y2*x3 + d*x1*x1*y1*y1*y1*y2*x3*y3*y3 -
    d*x1*x1*y1*y1*y1*y2*x3*x3*x3 - d*x1*x1*y1*y1*y1*x2*y3 +
    d*x1*x1*y1*y1*y1*x2*y3*y3*y3 - d*x1*x1*y1*y1*y1*x2*x3*x3*y3 +
    d*x1*x1*x1*y2*x3*x3*y3*y3*y3 + d*x1*x1*x1*x2*x3*x3*x3*y3*y3 -
    d*x1*x1*x1*y1*y1*y2*y3 + d*x1*x1*x1*y1*y1*y2*y3*y3*y3 -
    d*x1*x1*x1*y1*y1*y2*x3*x3*y3 - d*x1*x1*x1*y1*y1*x2*x3 +
    d*x1*x1*x1*y1*y1*x2*x3*y3*y3 - d*x1*x1*x1*y1*y1*x2*x3*x3*x3 +
    d*d*x1*y1*y1*x2*y2*y2*x3*x3*x3*y3*y3 - d*d*x1*y1*y1*x2*x2*y2*x3*x3*y3*y3*y3 -
    d*d*x1*x1*y1*x2*y2*y2*x3*x3*y3*y3*y3 + d*d*x1*x1*y1*x2*x2*y2*x3*x3*x3*y3*y3 +
    d*d*x1*x1*y1*y1*y1*x2*y2*y2*x3*x3*y3 + d*d*x1*x1*y1*y1*y1*x2*x2*y2*x3*y3*y3 -
    d*d*x1*x1*x1*y1*y1*x2*y2*y2*x3*y3*y3 - d*d*x1*x1*x1*y1*y1*x2*x2*y2*x3*x3*y3)
    * curveEq d x2 y2
  + (- y1*y2*x3 + y1*y2*y2*y2*x3 - y1*x2*y3 + y1*x2*y2*y2*y3 - y1*x2*x2*y2*x3 -
    y1*x2*x2*x2*y3 + y1*y1*y1*y2*x3 - y1*y1*y1*y2*y2*y2*x3 + y1*y1*y1*x2*y3 -
    y1*y1*y1*x2*y2*y2*y3 + y1*y1*y1*x2*x2*y2*x3 + y1*y1*y1*x2*x2*x2*y3 - x1*y2*y3 +
    x1*y2*y2*y2*y3 - x1*x2*x3 + x1*x2*y2*y2*x3 - x1*x2*x2*y2*y3 - x1*x2*x2*x2*x3 +
    x1*y1*y1*y2*y3 - x1*y1*y1*y2*y2*y2*y3 + x1*y1*y1*x2*x3 - x1*y1*y1*x2*y2*y2*x3 +
    x1*y1*y1*x2*x2*y2*y3 + x1*y1*y1*x2*x2*x2*x3 - x1*x1*y1*y2*x3 + x1*x1*y1*y2*y2*y2*x3
    - x1*x1*y1*x2*y3 + x1*x1*y1*x2*y2*y2*y3 - x1*x1*y1*x2*x2*y2*x3 -
    x1*x1*y1*x2*x2*x2*y3 - x1*x1*x1*y2*y3 + x1*x1*x1*y2*y2*y2*y3 - x1*x1*x1*x2*x3 +
    x1*x1*x1*x2*y2*y2*x3 - x1*x1*x1*x2*x2*y2*y3 - x1*x1*x1*x2*x2*x2*x3 -
    d*x1*y1*y1*x2*y2*y2*x3 + d*x1*y1*y1*x2*x2*y2*y3 + d*x1*x1*y1*x2*y2*y2*y3 -
    d*x1*x1*y1*x2*x2*y2*x3)
    * curveEq d x3 y3.
Proof. unfold curveEq. cbv zeta. ring. Qed.

Lemma assoc_cert_y (d x1 y1 x2 y2 x3 y3 : Z) :
  let n1 := x1 * y2 + y1 * x2 in
  let n2 := y1 * y2 + x1 * x2 in
  let D1p := 1 + d * x1 * x2 * y1 * y2 in
  let D1m := 1 - d * x1 * x2 * y1 * y2 in
  let m1 := x2 * y3 + y2 * x3 in
  let m2 := y2 * y3 + x2 * x3 in
  let D2p := 1 + d * x2 * x3 * y2 * y3 in
  let D2m := 1 - d * x2 * x3 * y2 * y3 in
  (n2 * D1p * y3 + n1 * D1m * x3) * (D2p * D2m - d * x1 * y1 * m1 * m2)
  - (y1 * m2 * D2p + x1 * m1 * D2m) * (D1p * D1m - d * n1 * n2 * x3 * y3)
  = (y1*y2*y3 - y1*y2*y3*y3*y3 + y1*y2*x3*x3*y3 - y1*y2*y2*y2*y3 + y1*y2*y2*y2*y3*y3*y3
    - y1*y2*y2*y2*x3*x3*y3 + y1*x2*x3 - y1*x2*x3*y3*y3 + y1*x2*x3*x3*x3 -
    y1*x2*y2*y2*x3 + y1*x2*y2*y2*x3*y3*y3 - y1*x2*y2*y2*x3*x3*x3 + y1*x2*x2*y2*y3 -
    y1*x2*x2*y2*y3*y3*y3 + y1*x2*x2*y2*x3*x3*y3 + y1*x2*x2*x2*x3 - y1*x2*x2*x2*x3*y3*y3
    + y1*x2*x2*x2*x3*x3*x3 + x1*y2*x3 - x1*y2*x3*y3*y3 + x1*y2*x3*x3*x3 -
    x1*y2*y2*y2*x3 + x1*y2*y2*y2*x3*y3*y3 - x1*y2*y2*y2*x3*x3*x3 + x1*x2*y3 -
    x1*x2*y3*y3*y3 + x1*x2*x3*x3*y3 - x1*x2*y2*y2*y3 + x1*x2*y2*y2*y3*y3*y3 -
    x1*x2*y2*y2*x3*x3*y3 + x1*x2*x2*y2*x3 - x1*x2*x2*y2*x3*y3*y3 + x1*x2*x2*y2*x3*x3*x3
    + x1*x2*x2*x2*y3 - x1*x2*x2*x2*y3*y3*y3 + x1*x2*x2*x2*x3*x3*y3 +
    d*y1*x2*y2*y2*x3*y3*y3 + d*y1*x2*x2*y2*x3*x3*y3 - d*x1*x2*y2*y2*x3*x3*y3 -
    d*x1*x2*x2*y2*x3*y3*y3)
    * curveEq d x1 y1
  + (d*y1*y2*x3*x3*y3*y3*y3 + d*y1*x2*x3*x3*x3*y3*y3 - d*y1*y1*y1*y2*x3*x3*y3*y3*y3 -
    d*y1*y1*y1*x2*x3*x3*x3*y3*y3 + d*x1*y2*x3*x3*x3*y3*y3 + d*x1*x2*x3*x3*y3*y3*y3 -
    d*x1*y1*y1*y2*x3*x3*x3*y3*y3 - d*x1*y1*y1*x2*x3*x3*y3*y3*y3 +
    d*x1*x1*y1*y2*x3*x3*y3*y3*y3 + d*x1*x1*y1*x2*x3*x3*x3*y3*y3 -
    d*x1*x1*y1*y1*y1*y2*y3 + d*x1*x1*y1*y1*y1*y2*y3*y3*y3 -
    d*x1*x1*y1*y1*y1*y2*x3*x3*y3 - d*x1*x1*y1*y1*y1*x2*x3 +
    d*x1*x1*y1*y1*y1*x2*x3*y3*y3 - d*x1*x1*y1*y1*y1*x2*x3*x3*x3 +
    d*x1*x1*x1*y2*x3*x3*x3*y3*y3 + d*x1*x1*x1*x2*x3*x3*y3*y3*y3 -
    d*x1*x1*x1*y1*y1*y2*x3 + d*x1*x1*x1*y1*y1*y2*x3*y3*y3 -
    d*x1*x1*x1*y1*y1*y2*x3*x3*x3 - d*x1*x1*x1*y1*y1*x2*y3 +
    d*x1*x1*x1*y1*y1*x2*y3*y3*y3 - d*x1*x1*x1*y1*y1*x2*x3*x3*y3 +
    d*d*x1*y1*y1*x2*y2*y2*x3*x3*y3*y3*y3 - d*d*x1*y1*y1*x2*x2*y2*x3*x3*x3*y3*y3 -
    d*d*x1*x1*y1*x2*y2*y2*x3*x3*x3*y3*y3 + d*d*x1*x1*y1*x2*x2*y2*x3*x3*y3*y3*y3 -
    d*d*x1*x1*y1*y1*y1*x2*y2*y2*x3*y3*y3 - d*d*x1*x1*y1*y1*y1*x2*x2*y2*x3*x3*y3 +
    d*d*x1*x1*x1*y1*y1*x2*y2*y2*x3*x3*y3 + d*d*x1*x1*x1*y1*y1*x2*x2*y2*x3*y3*y3)
    * curveEq d x2 y2
  + (- y1*y2*y3 + y1*y2*y2*y2*y3 - y1*x2*x3 + y1*x2*y2*y2*x3 - y1*x2*x2*y2*y3 -
    y1*x2*x2*x2*x3 + y1*y1*y1*y2*y3 - y1*y1*y1*y2*y2*y2*y3 + y1*y1*y1*x2*x3 -
    y1*y1*y1*x2*y2*y2*x3 + y1*y1*y1*x2*x2*y2*y3 + y1*y1*y1*x2*x2*x2*x3 - x1*y2*x3 +
    x1*y2*y2*y2*x3 - x1*x2*y3 + x1*x2*y2*y2*y3 - x1*x2*x2*y2*x3 - x1*x2*x2*x2*y3 +
    x1*y1*y1*y2*x3 - x1*y1*y1*y2*y2*y2*x3 + x1*y1*y1*x2*y3 - x1*y1*y1*x2*y2*y2*y3 +
    x1*y1*y1*x2*x2*y2*x3 + x1*y1*y1*x2*x2*x2*y3 - x1*x1*y1*y2*y3 + x1*x1*y1*y2*y2*y2*y3
    - x1*x1*y1*x2*x3 + x1*x1*y1*x2*y2*y2*x3 - x1*x1*y1*x2*x2*y2*y3 -
    x1*x1*y1*x2*x2*x2*x3 - x1*x1*x1*y2*x3 + x1*x1*x1*y2*y2*y2*x3 - x1*x1*x1*x2*y3 +
    x1*x1*x1*x2*y2*y2*y3 - x1*x1*x1*x2*x2*y2*x3 - x1*x1*x1*x2*x2*x2*y3 -
    d*x1*y1*y1*x2*y2*y2*y3 + d*x1*y1*y1*x2*x2*y2*x3 + d*x1*x1*y1*x2*y2*y2*x3 -
    d*x1*x1*y1*x2*x2*y2*y3)
    * curveEq d x3 y3.
Proof. unfold curveEq. cbv zeta. ring. Qed.

Lemma closure_cert (d x1 y1 x2 y2 : Z) :
  let n1 := x1 * y2 + y1 * x2 in
  let n2 := y1 * y2 + x1 * x2 in
  let D1p := 1 + d * x1 * x2 * y1 * y2 in
  let D1m := 1 - d * x1 * x2 * y1 * y2 in
  d * d * (n2 * n2 * D1p * D1p - n1 * n1 * D1m * D1m - D1p * D1p * D1m * D1m
           - d * n1 * n1 * n2 * n2)
  = (4 - 4*y2*y2 + 4*x2*x2 - 2*d + 2*d*y2*y2 - 2*d*x2*x2 + 4*d*x2*x2*y2*y2 - d*d +
    2*d*d*y2*y2 - 2*d*d*x2*x2 - 2*d*d*x2*x2*y2*y2 + d*d*y1*y1 - 2*d*d*y1*y1*y2*y2 +
    d*d*y1*y1*y2*y2*y2*y2 + 2*d*d*y1*y1*x2*x2 - 2*d*d*y1*y1*x2*x2*y2*y2 +
    d*d*y1*y1*x2*x2*x2*x2 - d*d*x1*x1 + 2*d*d*x1*x1*y2*y2 - d*d*x1*x1*y2*y2*y2*y2 -
    2*d*d*x1*x1*x2*x2 + 2*d*d*x1*x1*x2*x2*y2*y2 - d*d*x1*x1*x2*x2*x2*x2 -
    2*d*d*d*x2*x2*y2*y2 - d*d*d*y1*y1*x2*x2*y2*y2*y2*y2 + d*d*d*y1*y1*x2*x2*x2*x2*y2*y2
    + d*d*d*x1*x1*x2*x2*y2*y2*y2*y2 - d*d*d*x1*x1*x2*x2*x2*x2*y2*y2 +
    d*d*d*d*d*x1*x1*y1*y1*x2*x2*x2*x2*y2*y2*y2*y2)
    * curveEq d x1 y1
  + (- 4 + 4*y1*y1 - 4*x1*x1 + 2*d - 2*d*y1*y1 + 2*d*x1*x1 - 4*d*x1*x1*y1*y1 + 2*d*d -
    2*d*d*y1*y1 + d*d*y1*y1*y2*y2 - d*d*y1*y1*x2*x2 + d*d*y1*y1*y1*y1 -
    d*d*y1*y1*y1*y1*y2*y2 + d*d*y1*y1*y1*y1*x2*x2 + 2*d*d*x1*x1 - d*d*x1*x1*y2*y2 +
    d*d*x1*x1*x2*x2 + 2*d*d*x1*x1*y1*y1*y2*y2 - 2*d*d*x1*x1*y1*y1*x2*x2 +
    d*d*x1*x1*x1*x1 - d*d*x1*x1*x1*x1*y2*y2 + d*d*x1*x1*x1*x1*x2*x2 + d*d*d*x1*x1*y1*y1
    - d*d*d*x1*x1*y1*y1*y2*y2 + d*d*d*x1*x1*y1*y1*x2*x2 - d*d*d*x1*x1*y1*y1*y1*y1 +
    d*d*d*x1*x1*y1*y1*y1*y1*y2*y2 - d*d*d*x1*x1*y1*y1*y1*y1*x2*x2 +
    d*d*d*x1*x1*x1*x1*y1*y1 - d*d*d*x1*x1*x1*x1*y1*y1*y2*y2 +
    d*d*d*x1*x1*x1*x1*y1*y1*x2*x2 - d*d*d*d*x1*x1*y1*y1*x2*x2*y2*y2 +
    d*d*d*d*x1*x1*y1*y1*y1*y1*x2*x2*y2*y2 - d*d*d*d*x1*x1*x1*x1*y1*y1*x2*x2*y2*y2)
    * curveEq d x2 y2.
Proof. unfold curveEq. cbv zeta. ring. Qed.

Lemma dedicated_cert_x (d x1 y1 x2 y2 : Z) :
  (x1 * y1 + x2 * y2) * (1 + d * x1 * x2 * y1 * y2)
  - (x1 * y2 + y1 * x2) * (y1 * y2 - x1 * x2)
  = - (x2 * y2) * curveEq d x1 y1 - x1 * y1 * curveEq d x2 y2.
Proof. unfold curveEq. ring. Qed.

Lemma dedicated_cert_y (d x1 y1 x2 y2 : Z) :
  (x1 * y1 - x2 * y2) * (1 - d * x1 * x2 * y1 * y2)
  - (y1 * y2 + x1 * x2) * (x1 * y2 - y1 * x2)
  = x2 * y2 * curveEq d x1 y1 - x1 * y1 * curveEq d x2 y2.
Proof. unfold curveEq. ring. Qed.

(** With e = d x1 x2 y1 y2 and i^2 = -1: if e^2 = 1 then d times a square
    is a square. *)
Lemma completeness_cert (d i s x1 y1 x2 y2 : Z) :
  let e := d * x1 * x2 * y1 * y2 in
  d * (x1 * y1 * (y2 + s * i * x2)) * (x1 * y1 * (y2 + s * i * x2))
  - (y1 + s * e * i * x1) * (y1 + s * e * i * x1)
  = d * x1 * x1 * y1 * y1 * curveEq d x2 y2 - curveEq d x1 y1
    + (e * e - 1) * (1 + x1 * x1)
    + (i * i + 1) * (d * x1 * x1 * y1 * y1 * x2 * x2 - e * e * x1 * x1)
    + (s * s - 1) * (i * i * (d * x1 * x1 * y1 * y1 * x2 * x2 - e * e * x1 * x1)).
Proof. unfold curveEq. cbv zeta. ring. Qed.

(** Affine points are pairs of residues; the group law is the unified
    addition of the twisted Edwards curve with a = -1. *)
Definition onCurve (P : Z * Z) : Prop := curveEq CURVE.d (fst P) (snd P) == 0.

Definition reduced (P : Z * Z) : Prop :=
  0 <= fst P < CURVE.P /\ 0 <= snd P < CURVE.P.

Definition eadd (P Q : Z * Z) : Z * Z :=
  (math.modP ((fst P * snd Q + snd P * fst Q)
              * finv (1 + CURVE.d * fst P * fst Q * snd P * snd Q)),
   math.modP ((snd P * snd Q + fst P * fst Q)
              * finv (1 - CURVE.d * fst P * fst Q * snd P * snd Q))).

Definition eneg (P : Z * Z) : Z * Z := (math.modP (- fst P), snd P).

Definition ezero : Z * Z := (0, 1).

Section Field.

Add Field Fp_field : eqP_field_theory
  (setoid eqP_Equivalence eqP_ring_eq_ext, morphism eqP_morph, constants [Zcst]).

Lemma eqP_sub_0 (a b : Z) : a - b == 0 -> a == b.
Proof. intros H. transitivity (a - b + b); [ ring | rewrite H; ring ]. Qed.

Lemma eqP_mul_nonzero (a b : Z) : ~ a == 0 -> ~ b == 0 -> ~ a * b == 0.
Proof. intros Ha Hb H. destruct (eqP_integral _ _ H); contradiction. Qed.

Lemma eqP_mul_cancel_r (a b c : Z) : ~ c == 0 -> a * c == b * c -> a == b.
Proof.
  intros Hc H. transitivity (a * c * finv c); [ field; exact Hc | ].
  rewrite H. field. exact Hc.
Qed.

Lemma finv_r (z : Z) : ~ z == 0 -> z * finv z == 1.
Proof. intros Hz. field. exact Hz. Qed.

(** A quotient is characterised by its product with the denominator. *)
Lemma frac_unique (q a b : Z) : ~ b == 0 -> q * b == a -> q == a * finv b.
Proof. intros Hb H. rewrite <- H. field. exact Hb. Qed.

Lemma frac_spec (a b : Z) : ~ b == 0 -> a * finv b * b == a.
Proof. intros Hb. field. exact Hb. Qed.

Lemma two_nonzero : ~ 2 == 0.
Proof. unfold eqP. vm_compute. discriminate. Qed.

Lemma d_nonzero : ~ CURVE.d == 0.
Proof. unfold eqP. vm_compute. discriminate. Qed.

(** d is not a square modulo p (Euler's criterion, checked by computing
    d^((p-1)/2) = -1). *)
Lemma d_nonsquare (s : Z) : ~ s * s == CURVE.d.
Proof.
  intros Hs.
  assert (Hs0 : s mod CURVE.P <> 0).
  { intros H0. apply d_nonzero. rewrite <- Hs. apply eqP_0_iff in H0. rewrite H0. ring. }
  pose proof (Z.fermat_nz CURVE.P s prime_P Hs0) as Hflt.
  assert (Hd : powmod CURVE.d ((CURVE.P - 1) / 2) CURVE.P = CURVE.P - 1)
    by (vm_compute; reflexivity).
  rewrite powmod_spec in Hd by (vm_compute; discriminate).
  assert (E : s ^ (CURVE.P - 1) = (s * s) ^ ((CURVE.P - 1) / 2)).
  { rewrite <- Z.pow_2_r, <- Z.pow_mul_r by (vm_compute; discriminate).
    f_equal. }
  rewrite E in Hflt. rewrite <- Z.mod_pow_l in Hflt. unfold eqP in Hs. rewrite Hs in Hflt.
  rewrite Z.mod_pow_l in Hflt. rewrite Hd in Hflt. vm_compute in Hflt. discriminate Hflt.
Qed.

(** *** Completeness: the denominators of the addition law never vanish *)

Lemma SQRT_M1_sq' : CONSTANTS.SQRT_M1 * CONSTANTS.SQRT_M1 + 1 == 0.
Proof. unfold eqP. vm_compute. reflexivity. Qed.

Lemma denominators_nonzero (x1 y1 x2 y2 : Z) :
  curveEq CURVE.d x1 y1 == 0 -> curveEq CURVE.d x2 y2 == 0 ->
  ~ (CURVE.d * x1 * x2 * y1 * y2) * (CURVE.d * x1 * x2 * y1 * y2) == 1.
Proof.
  intros H1 H2 He.
  assert (Hxy : ~ x1 * y1 == 0).
  { intros H0. apply eqP_1_neq_0. rewrite <- He.
    transitivity (CURVE.d * x2 * y2 * (CURVE.d * x2 * y2) * (x1 * y1) * (x1 * y1)); [ ring | ].
    rewrite H0. ring. }
  assert (Hy2 : ~ y2 == 0).
  { intros H0. apply eqP_1_neq_0. rewrite <- He. rewrite H0. ring. }
  assert (Hsq : forall s, s * s == 1 ->
            CURVE.d * (x1 * y1 * (y2 + s * CONSTANTS.SQRT_M1 * x2))
                    * (x1 * y1 * (y2 + s * CONSTANTS.SQRT_M1 * x2))
            == (y1 + s * (CURVE.d * x1 * x2 * y1 * y2) * CONSTANTS.SQRT_M1 * x1)
               * (y1 + s * (CURVE.d * x1 * x2 * y1 * y2) * CONSTANTS.SQRT_M1 * x1)).
  { intros s Hs. apply eqP_sub_0.
    rewrite (eqP_of_eq (completeness_cert CURVE.d CONSTANTS.SQRT_M1 s x1 y1 x2 y2)).
    cbv zeta. rewrite H1, H2, He, Hs, SQRT_M1_sq'. ring. }
  assert (Hfinal : forall s, s * s == 1 ->
            ~ y2 + s * CONSTANTS.SQRT_M1 * x2 == 0 -> False).
  { intros s Hs Hnz. specialize (Hsq s Hs).
    set (A := x1 * y1 * (y2 + s * CONSTANTS.SQRT_M1 * x2)) in *.
    set (B := y1 + s * (CURVE.d * x1 * x2 * y1 * y2) * CONSTANTS.SQRT_M1 * x1) in *.
    assert (HA : ~ A == 0) by (apply eqP_mul_nonzero; assumption).
    apply (d_nonsquare (B * finv A)).
    transitivity (B * B * finv A * finv A); [ ring | ].
    rewrite <- Hsq. field. exact HA. }
  destruct (eqP_dec (y2 + 1 * CONSTANTS.SQRT_M1 * x2) 0) as [Hz | Hnz].
  - destruct (eqP_dec (y2 + (-1) * CONSTANTS.SQRT_M1 * x2) 0) as [Hz' | Hnz'].
    + apply (eqP_mul_nonzero 2 y2 two_nonzero Hy2).
      transitivity ((y2 + 1 * CONSTANTS.SQRT_M1 * x2) + (y2 + -1 * CONSTANTS.SQRT_M1 * x2));
        [ ring | ].
      rewrite Hz, Hz'. ring.
    + apply (Hfinal (-1)); [ ring | exact Hnz' ].
  - apply (Hfinal 1); [ ring | exact Hnz ].
Qed.

Lemma denominator_plus (x1 y1 x2 y2 : Z) :
  curveEq CURVE.d x1 y1 == 0 -> curveEq CURVE.d x2 y2 == 0 ->
  ~ 1 + CURVE.d * x1 * x2 * y1 * y2 == 0.
Proof.
  intros H1 H2 H. apply (@denominators_nonzero x1 y1 x2 y2 H1 H2).
  set (e := CURVE.d * x1 * x2 * y1 * y2) in *.
  transitivity ((1 + e) * (e - 1) + 1); [ ring | rewrite H; ring ].
Qed.

Lemma denominator_minus (x1 y1 x2 y2 : Z) :
  curveEq CURVE.d x1 y1 == 0 -> curveEq CURVE.d x2 y2 == 0 ->
  ~ 1 - CURVE.d * x1 * x2 * y1 * y2 == 0.
Proof.
  intros H1 H2 H. apply (@denominators_nonzero x1 y1 x2 y2 H1 H2).
  set (e := CURVE.d * x1 * x2 * y1 * y2) in *.
  transitivity (1 - (1 - e) * (1 + e)); [ ring | rewrite H; ring ].
Qed.

(** *** The group law *)

#[local] Instance curveEq_Proper : Proper (eq ==> eqP ==> eqP ==> eqP) curveEq.
Proof. intros d d' <- x x' Hx y y' Hy. unfold curveEq. now rewrite Hx, Hy. Qed.

Lemma eadd_reduced (P Q : Z * Z) : reduced (eadd P Q).
Proof. split; apply modP_range. Qed.

Lemma eadd_fst (P Q : Z * Z) :
  onCurve P -> onCurve Q ->
  fst (eadd P Q) * (1 + CURVE.d * fst P * fst Q * snd P * snd Q)
  == fst P * snd Q + snd P * fst Q.
Proof.
  intros HP HQ. unfold eadd. cbn [fst]. rewrite modP_eqP.
  apply frac_spec. apply denominator_plus; assumption.
Qed.

Lemma eadd_snd (P Q : Z * Z) :
  onCurve P -> onCurve Q ->
  snd (eadd P Q) * (1 - CURVE.d * fst P * fst Q * snd P * snd Q)
  == snd P * snd Q + fst P * fst Q.
Proof.
  intros HP HQ. unfold eadd. cbn [snd]. rewrite modP_eqP.
  apply frac_spec. apply denominator_minus; assumption.
Qed.

(** Closure, for any pair characterised by the two products. *)
Lemma closure_rel (x1 y1 x2 y2 x3 y3 : Z) :
  curveEq CURVE.d x1 y1 == 0 -> curveEq CURVE.d x2 y2 == 0 ->
  x3 * (1 + CURVE.d * x1 * x2 * y1 * y2) == x1 * y2 + y1 * x2 ->
  y3 * (1 - CURVE.d * x1 * x2 * y1 * y2) == y1 * y2 + x1 * x2 ->
  curveEq CURVE.d x3 y3 == 0.
Proof.
  intros H1 H2 Hx Hy.
  pose proof (denominator_plus x1 y1 x2 y2 H1 H2) as Hp.
  pose proof (denominator_minus x1 y1 x2 y2 H1 H2) as Hm.
  set (Dp := 1 + CURVE.d * x1 * x2 * y1 * y2) in *.
  set (Dm := 1 - CURVE.d * x1 * x2 * y1 * y2) in *.
  apply (eqP_mul_cancel_r _ 0 (CURVE.d * CURVE.d * (Dp * Dp * Dm * Dm))).
  { repeat apply eqP_mul_nonzero; auto using d_nonzero. }
  transitivity (CURVE.d * CURVE.d
                * ((y3 * Dm) * (y3 * Dm) * Dp * Dp - (x3 * Dp) * (x3 * Dp) * Dm * Dm
                   - Dp * Dp * Dm * Dm
                   - CURVE.d * (x3 * Dp) * (x3 * Dp) * (y3 * Dm) * (y3 * Dm)));
    [ unfold curveEq; ring | ].
  rewrite Hx, Hy. unfold Dp, Dm.
  rewrite (eqP_of_eq (closure_cert CURVE.d x1 y1 x2 y2)). cbv zeta.
  rewrite H1, H2. ring.
Qed.

Lemma eadd_onCurve (P Q : Z * Z) : onCurve P -> onCurve Q -> onCurve (eadd P Q).
Proof.
  intros HP HQ. unfold onCurve.
  apply (closure_rel (fst P) (snd P) (fst Q) (snd Q)); auto.
  - apply eadd_fst; assumption.
  - apply eadd_snd; assumption.
Qed.

Lemma eadd_comm (P Q : Z * Z) : eadd P Q = eadd Q P.
Proof.
  unfold eadd. f_equal; apply modP_eq_of_eqP.
  - assert (E : CURVE.d * fst P * fst Q * snd P * snd Q
                == CURVE.d * fst Q * fst P * snd Q * snd P) by ring.
    rewrite E. ring.
  - assert (E : CURVE.d * fst P * fst Q * snd P * snd Q
                == CURVE.d * fst Q * fst P * snd Q * snd P) by ring.
    rewrite E. ring.
Qed.

Lemma finv_1 : finv 1 == 1.
Proof. transitivity (finv 1 * 1); [ ring | apply finv_l, eqP_1_neq_0 ]. Qed.

Lemma eadd_zero_r (P : Z * Z) : reduced P -> eadd P ezero = P.
Proof.
  intros [Hx Hy]. destruct P as [x y]. unfold eadd, ezero. cbn [fst snd] in *.
  f_equal.
  - transitivity (math.modP x); [ | apply modP_small; exact Hx ].
    apply modP_eq_of_eqP.
    assert (E : 1 + CURVE.d * x * 0 * y * 1 == 1) by ring.
    rewrite E, finv_1. ring.
  - transitivity (math.modP y); [ | apply modP_small; exact Hy ].
    apply modP_eq_of_eqP.
    assert (E : 1 - CURVE.d * x * 0 * y * 1 == 1) by ring.
    rewrite E, finv_1. ring.
Qed.

Lemma eadd_zero_l (P : Z * Z) : reduced P -> eadd ezero P = P.
Proof. intros H. rewrite eadd_comm. apply eadd_zero_r, H. Qed.

Lemma ezero_onCurve : onCurve ezero.
Proof. unfold onCurve, ezero, curveEq. cbn [fst snd]. ring. Qed.

Lemma ezero_reduced : reduced ezero.
Proof. unfold reduced, ezero. cbn. split; split; vm_compute; congruence. Qed.

Lemma eneg_onCurve (P : Z * Z) : onCurve P -> onCurve (eneg P).
Proof.
  unfold onCurve, eneg. cbn [fst snd]. intros H. rewrite modP_eqP.
  rewrite <- H. unfold curveEq. ring.
Qed.

Lemma eneg_reduced (P : Z * Z) : reduced P -> reduced (eneg P).
Proof. intros [_ Hy]. split; [ apply modP_range | exact Hy ]. Qed.

Lemma eadd_neg_r (P : Z * Z) : onCurve P -> eadd P (eneg P) = ezero.
Proof.
  intros HP. pose proof (eneg_onCurve P HP) as HN.
  pose proof (denominator_minus _ _ _ _ HP HN) as Hm.
  unfold eadd, ezero. unfold eneg in *. cbn [fst snd] in *.
  f_equal.
  - transitivity (math.modP 0); [ | vm_compute; reflexivity ].
    apply modP_eq_of_eqP. rewrite modP_eqP. ring.
  - transitivity (math.modP 1); [ | vm_compute; reflexivity ].
    apply modP_eq_of_eqP.
    symmetry. apply frac_unique; [ exact Hm | ].
    rewrite modP_eqP. unfold onCurve, curveEq in HP. cbn [fst snd] in HP.
    apply eqP_sub_0.
    transitivity (- (snd P * snd P - fst P * fst P - 1
                     - CURVE.d * fst P * fst P * snd P * snd P)); [ ring | ].
    rewrite HP. ring.
Qed.

(** Associativity, for any values characterised by their products with the
    denominators. *)
Lemma assoc_rel (x1 y1 x2 y2 x3 y3 x12 y12 x23 y23 xl yl xr yr : Z) :
  curveEq CURVE.d x1 y1 == 0 -> curveEq CURVE.d x2 y2 == 0 -> curveEq CURVE.d x3 y3 == 0 ->
  x12 * (1 + CURVE.d * x1 * x2 * y1 * y2) == x1 * y2 + y1 * x2 ->
  y12 * (1 - CURVE.d * x1 * x2 * y1 * y2) == y1 * y2 + x1 * x2 ->
  x23 * (1 + CURVE.d * x2 * x3 * y2 * y3) == x2 * y3 + y2 * x3 ->
  y23 * (1 - CURVE.d * x2 * x3 * y2 * y3) == y2 * y3 + x2 * x3 ->
  xl * (1 + CURVE.d * x12 * x3 * y12 * y3) == x12 * y3 + y12 * x3 ->
  yl * (1 - CURVE.d * x12 * x3 * y12 * y3) == y12 * y3 + x12 * x3 ->
  xr * (1 + CURVE.d * x1 * x23 * y1 * y23) == x1 * y23 + y1 * x23 ->
  yr * (1 - CURVE.d * x1 * x23 * y1 * y23) == y1 * y23 + x1 * x23 ->
  xl == xr /\ yl == yr.
Proof.
  intros H1 H2 H3 Hx12 Hy12 Hx23 Hy23 Hxl Hyl Hxr Hyr.
  pose proof (closure_rel _ _ _ _ _ _ H1 H2 Hx12 Hy12) as H12.
  pose proof (closure_rel _ _ _ _ _ _ H2 H3 Hx23 Hy23) as H23.
  pose proof (denominator_plus _ _ _ _ H1 H2) as N1p.
  pose proof (denominator_minus _ _ _ _ H1 H2) as N1m.
  pose proof (denominator_plus _ _ _ _ H2 H3) as N2p.
  pose proof (denominator_minus _ _ _ _ H2 H3) as N2m.
  pose proof (denominator_plus _ _ _ _ H12 H3) as Nlp.
  pose proof (denominator_minus _ _ _ _ H12 H3) as Nlm.
  pose proof (denominator_plus _ _ _ _ H1 H23) as Nrp.
  pose proof (denominator_minus _ _ _ _ H1 H23) as Nrm.
  set (n1 := x1 * y2 + y1 * x2) in *. set (n2 := y1 * y2 + x1 * x2) in *.
  set (m1 := x2 * y3 + y2 * x3) in *. set (m2 := y2 * y3 + x2 * x3) in *.
  set (D1p := 1 + CURVE.d * x1 * x2 * y1 * y2) in *.
  set (D1m := 1 - CURVE.d * x1 * x2 * y1 * y2) in *.
  set (D2p := 1 + CURVE.d * x2 * x3 * y2 * y3) in *.
  set (D2m := 1 - CURVE.d * x2 * x3 * y2 * y3) in *.
  set (Vlp := 1 + CURVE.d * x12 * x3 * y12 * y3) in *.
  set (Vlm := 1 - CURVE.d * x12 * x3 * y12 * y3) in *.
  set (Vrp := 1 + CURVE.d * x1 * x23 * y1 * y23) in *.
  set (Vrm := 1 - CURVE.d * x1 * x23 * y1 * y23) in *.
  (* numerators and denominators over the common denominators *)
  assert (EBl : Vlp * (D1p * D1m) == D1p * D1m + CURVE.d * n1 * n2 * x3 * y3).
  { unfold Vlp. rewrite <- Hx12, <- Hy12. ring. }
  assert (EDl : Vlm * (D1p * D1m) == D1p * D1m - CURVE.d * n1 * n2 * x3 * y3).
  { unfold Vlm. rewrite <- Hx12, <- Hy12. ring. }
  assert (EBr : Vrp * (D2p * D2m) == D2p * D2m + CURVE.d * x1 * y1 * m1 * m2).
  { unfold Vrp. rewrite <- Hx23, <- Hy23. ring. }
  assert (EDr : Vrm * (D2p * D2m) == D2p * D2m - CURVE.d * x1 * y1 * m1 * m2).
  { unfold Vrm. rewrite <- Hx23, <- Hy23. ring. }
  assert (EAl : xl * Vlp * (D1p * D1m) == n1 * D1m * y3 + n2 * D1p * x3).
  { rewrite Hxl, <- Hx12, <- Hy12. ring. }
  assert (ECl : yl * Vlm * (D1p * D1m) == n2 * D1p * y3 + n1 * D1m * x3).
  { rewrite Hyl, <- Hx12, <- Hy12. ring. }
  assert (EAr : xr * Vrp * (D2p * D2m) == x1 * m2 * D2p + y1 * m1 * D2m).
  { rewrite Hxr, <- Hx23, <- Hy23. ring. }
  assert (ECr : yr * Vrm * (D2p * D2m) == y1 * m2 * D2p + x1 * m1 * D2m).
  { rewrite Hyr, <- Hx23, <- Hy23. ring. }
  split.
  - apply (eqP_mul_cancel_r _ _ ((Vlp * (D1p * D1m)) * (Vrp * (D2p * D2m)))).
    { repeat apply eqP_mul_nonzero; assumption. }
    apply eqP_sub_0.
    transitivity ((xl * Vlp * (D1p * D1m)) * (Vrp * (D2p * D2m))
                  - (xr * Vrp * (D2p * D2m)) * (Vlp * (D1p * D1m))); [ ring | ].
    rewrite EAl, EAr, EBl, EBr. unfold n1, n2, m1, m2, D1p, D1m, D2p, D2m.
    rewrite (eqP_of_eq (assoc_cert_x CURVE.d x1 y1 x2 y2 x3 y3)).
    rewrite H1, H2, H3. ring.
  - apply (eqP_mul_cancel_r _ _ ((Vlm * (D1p * D1m)) * (Vrm * (D2p * D2m)))).
    { repeat apply eqP_mul_nonzero; assumption. }
    apply eqP_sub_0.
    transitivity ((yl * Vlm * (D1p * D1m)) * (Vrm * (D2p * D2m))
                  - (yr * Vrm * (D2p * D2m)) * (Vlm * (D1p * D1m))); [ ring | ].
    rewrite ECl, ECr, EDl, EDr. unfold n1, n2, m1, m2, D1p, D1m, D2p, D2m.
    rewrite (eqP_of_eq (assoc_cert_y CURVE.d x1 y1 x2 y2 x3 y3)).
    rewrite H1, H2, H3. ring.
Qed.

End Field.

(** ** The group of curve points *)

Definition isPoint (P : Z * Z) : Prop := onCurve P /\ reduced P.

(** Scalar multiples: [smulN] by iteration, [smul] for integers. *)
Fixpoint smulN (n : nat) (P : Z * Z) : Z * Z :=
  match n with
  | O => ezero
  | S n' => eadd P (smulN n' P)
  end.

Definition smulZ (k : Z) (P : Z * Z) : Z * Z :=
  if k <? 0 then eneg (smulN (Z.to_nat (- k)) P) else smulN (Z.to_nat k) P.

(** The same by double-and-add, which evaluates. *)
Fixpoint smul_bin (p : positive) (P : Z * Z) : Z * Z :=
  match p with
  | xH => P
  | xO p' => let Q := smul_bin p' P in eadd Q Q
  | xI p' => let Q := smul_bin p' P in eadd P (eadd Q Q)
  end.

Definition smul (k : Z) (P : Z * Z) : Z * Z :=
  match k with
  | Z0 => ezero
  | Zpos p => smul_bin p P
  | Zneg p => eneg (smul_bin p P)
  end.

(** The subgroup of points killed by the group order [CURVE.n]. *)
Definition inSubgroup (P : Z * Z) : Prop :=
  isPoint P /\ smul CURVE.n P = ezero.

(** Membership test that evaluates: projective coordinates (no inversion)
    and reduction modulo [2^255 - 19] by folding the high bits. *)
Definition fastmod (x : Z) : Z :=
  let x1 := Z.land x (Z.ones 255) + 19 * Z.shiftr x 255 in
  Z.land x1 (Z.ones 255) + 19 * Z.shiftr x1 255.

Definition padd (T1 T2 : Z * Z * Z) : Z * Z * Z :=
  let '(X1, Y1, Z1) := T1 in
  let '(X2, Y2, Z2) := T2 in
  let A := fastmod (Z1 * Z2) in
  let B := fastmod (A * A) in
  let C := fastmod (X1 * X2) in
  let D := fastmod (Y1 * Y2) in
  let E := fastmod (CURVE.d * fastmod (C * D)) in
  let F := B - E in
  let G := B + E in
  (fastmod (fastmod (A * F) * fastmod (X1 * Y2 + Y1 * X2)),
   fastmod (fastmod (A * G) * (D + C)),
   fastmod (F * G)).

Fixpoint psmul_bin (p : positive) (T : Z * Z * Z) : Z * Z * Z :=
  match p with
  | xH => T
  | xO p' => let Q := psmul_bin p' T in padd Q Q
  | xI p' => let Q := psmul_bin p' T in padd T (padd Q Q)
  end.

Definition isPointb (P : Z * Z) : bool :=
  (curveEq CURVE.d (fst P) (snd P) mod CURVE.P =? 0)
  && (0 <=? fst P) && (fst P <? CURVE.P) && (0 <=? snd P) && (snd P <? CURVE.P).

Definition inSubgroupb (P : Z * Z) : bool :=
  isPointb P &&
  let '(X, Y, Z) := psmul_bin (Z.to_pos CURVE.n) (fst P, snd P, 1) in
  (X mod CURVE.P =? 0) && ((Y - Z) mod CURVE.P =? 0).

(** [T] represents the affine point [A]. *)
Definition prepr (T : Z * Z * Z) (A : Z * Z) : Prop :=
  let '(X, Y, Z) := T in ~ Z == 0 /\ X == fst A * Z /\ Y == snd A * Z.

Section Group.

Add Field Fp_field3 : eqP_field_theory
  (setoid eqP_Equivalence eqP_ring_eq_ext, morphism eqP_morph, constants [Zcst]).

Lemma point_ext (P Q : Z * Z) :
  reduced P -> reduced Q -> fst P == fst Q -> snd P == snd Q -> P = Q.
Proof.
  intros [Hx Hy] [Hx' Hy'] H1 H2. destruct P, Q. cbn [fst snd] in *.
  f_equal; apply eqP_small; assumption.
Qed.

Lemma isPoint_ezero : isPoint ezero.
Proof. split; [ exact ezero_onCurve | exact ezero_reduced ]. Qed.

Lemma isPoint_eadd (P Q : Z * Z) : isPoint P -> isPoint Q -> isPoint (eadd P Q).
Proof.
  intros [HP _] [HQ _]. split; [ apply eadd_onCurve; assumption | apply eadd_reduced ].
Qed.

Lemma isPoint_eneg (P : Z * Z) : isPoint P -> isPoint (eneg P).
Proof.
  intros [HP HR]. split; [ apply eneg_onCurve, HP | apply eneg_reduced, HR ].
Qed.

Lemma eadd_assoc (P Q R : Z * Z) :
  onCurve P -> onCurve Q -> onCurve R ->
  eadd (eadd P Q) R = eadd P (eadd Q R).
Proof.
  intros HP HQ HR.
  pose proof (eadd_onCurve P Q HP HQ) as HPQ.
  pose proof (eadd_onCurve Q R HQ HR) as HQR.
  destruct (assoc_rel (fst P) (snd P) (fst Q) (snd Q) (fst R) (snd R)
              (fst (eadd P Q)) (snd (eadd P Q)) (fst (eadd Q R)) (snd (eadd Q R))
              (fst (eadd (eadd P Q) R)) (snd (eadd (eadd P Q) R))
              (fst (eadd P (eadd Q R))) (snd (eadd P (eadd Q R)))) as [Hx Hy];
    try assumption;
    try (apply eadd_fst; assumption); try (apply eadd_snd; assumption).
  apply point_ext; try apply eadd_reduced; assumption.
Qed.

Lemma eadd_neg_l (P : Z * Z) : onCurve P -> eadd (eneg P) P = ezero.
Proof. intros H. rewrite eadd_comm. apply eadd_neg_r, H. Qed.

Lemma eneg_involutive (P : Z * Z) : reduced P -> eneg (eneg P) = P.
Proof.
  intros HR. apply point_ext; [ apply eneg_reduced, eneg_reduced, HR | exact HR | | ].
  - unfold eneg. cbn [fst snd]. rewrite !modP_eqP. ring.
  - reflexivity.
Qed.

Lemma eneg_ezero : eneg ezero = ezero.
Proof. vm_compute. reflexivity. Qed.

Lemma eadd_cancel_l (P Q R : Z * Z) :
  isPoint P -> isPoint Q -> isPoint R -> eadd P Q = eadd P R -> Q = R.
Proof.
  intros [HP HPr] [HQ HQr] [HR HRr] H.
  rewrite <- (eadd_zero_l Q HQr), <- (eadd_zero_l R HRr).
  rewrite <- (eadd_neg_l P HP).
  rewrite !eadd_assoc by (try apply eneg_onCurve; assumption).
  now rewrite H.
Qed.

Lemma eneg_unique (P Q : Z * Z) :
  isPoint P -> isPoint Q -> eadd P Q = ezero -> Q = eneg P.
Proof.
  intros HP HQ H. apply (eadd_cancel_l P); try assumption.
  - apply isPoint_eneg, HP.
  - rewrite H. symmetry. apply eadd_neg_r, HP.
Qed.

Lemma eneg_eadd (P Q : Z * Z) :
  isPoint P -> isPoint Q -> eneg (eadd P Q) = eadd (eneg P) (eneg Q).
Proof.
  intros HP HQ. symmetry. apply eneg_unique.
  - apply isPoint_eadd; assumption.
  - apply isPoint_eadd; apply isPoint_eneg; assumption.
  - pose proof (isPoint_eneg P HP) as HnP. pose proof (isPoint_eneg Q HQ) as HnQ.
    destruct HP as [HP HPr], HQ as [HQ HQr], HnP as [HnP HnPr], HnQ as [HnQ HnQr].
    rewrite (eadd_comm (eneg P)).
    rewrite eadd_assoc by (try apply eadd_onCurve; assumption).
    rewrite <- (eadd_assoc Q) by assumption.
    rewrite (eadd_neg_r Q HQ).
    rewrite eadd_zero_l by assumption.
    apply eadd_neg_r, HP.
Qed.

(** *** Scalar multiples *)

Lemma isPoint_smulN (n : nat) (P : Z * Z) : isPoint P -> isPoint (smulN n P).
Proof.
  intros HP. induction n; cbn [smulN].
  - exact isPoint_ezero.
  - apply isPoint_eadd; assumption.
Qed.

Lemma isPoint_smulZ (k : Z) (P : Z * Z) : isPoint P -> isPoint (smulZ k P).
Proof.
  intros HP. unfold smulZ. destruct (k <? 0).
  - apply isPoint_eneg, isPoint_smulN, HP.
  - apply isPoint_smulN, HP.
Qed.

Lemma smulN_add (n m : nat) (P : Z * Z) :
  isPoint P -> smulN (n + m) P = eadd (smulN n P) (smulN m P).
Proof.
  intros HP. induction n; cbn [smulN Nat.add].
  - symmetry. apply eadd_zero_l. apply (isPoint_smulN m P HP).
  - rewrite IHn. symmetry. apply eadd_assoc.
    + apply HP.
    + apply (isPoint_smulN n P HP).
    + apply (isPoint_smulN m P HP).
Qed.

Lemma smulZ_nonneg (k : Z) (P : Z * Z) : 0 <= k -> smulZ k P = smulN (Z.to_nat k) P.
Proof.
  intros Hk. unfold smulZ. destruct (Z.ltb_spec k 0); [ lia | reflexivity ].
Qed.

Lemma smulZ_neg (k : Z) (P : Z * Z) : isPoint P -> smulZ (- k) P = eneg (smulZ k P).
Proof.
  intros HP. unfold smulZ.
  destruct (Z.ltb_spec k 0), (Z.ltb_spec (- k) 0); try lia.
  - rewrite eneg_involutive; [ reflexivity | apply (isPoint_smulN _ P HP) ].
  - rewrite Z.opp_involutive. reflexivity.
  - assert (k = 0) as -> by lia. cbn. symmetry. exact eneg_ezero.
Qed.

Lemma smulZ_0 (P : Z * Z) : smulZ 0 P = ezero.
Proof. reflexivity. Qed.

Lemma smulZ_1 (P : Z * Z) : isPoint P -> smulZ 1 P = P.
Proof. intros [_ HR]. cbn. apply eadd_zero_r, HR. Qed.

Lemma smulZ_succ (k : Z) (P : Z * Z) :
  isPoint P -> smulZ (k + 1) P = eadd P (smulZ k P).
Proof.
  intros HP. destruct (Z.ltb_spec k 0) as [Hneg | Hpos].
  - (* k = - (m + 1) *)
    replace (k + 1) with (- (- k - 1)) by lia.
    replace k with (- (- k - 1 + 1)) at 2 by lia.
    rewrite !smulZ_neg by exact HP.
    rewrite !smulZ_nonneg by lia.
    replace (Z.to_nat (- k - 1 + 1)) with (S (Z.to_nat (- k - 1))) by lia.
    cbn [smulN]. set (Q := smulN (Z.to_nat (- k - 1)) P).
    assert (HQ : isPoint Q) by apply (isPoint_smulN _ P HP).
    rewrite eneg_eadd by assumption.
    pose proof (isPoint_eneg P HP) as HnP. pose proof (isPoint_eneg Q HQ) as HnQ.
    rewrite <- eadd_assoc by (first [ apply HP | apply HnP | apply HnQ ]).
    rewrite eadd_neg_r by apply HP.
    symmetry. apply eadd_zero_l, HnQ.
  - rewrite !smulZ_nonneg by lia.
    replace (Z.to_nat (k + 1)) with (S (Z.to_nat k)) by lia. reflexivity.
Qed.

Lemma smulZ_pred (k : Z) (P : Z * Z) :
  isPoint P -> smulZ (k - 1) P = eadd (eneg P) (smulZ k P).
Proof.
  intros HP. replace k with (k - 1 + 1) at 2 by lia.
  rewrite smulZ_succ by exact HP.
  pose proof (isPoint_smulZ (k - 1) P HP) as HQ.
  pose proof (isPoint_eneg P HP) as HnP.
  rewrite <- eadd_assoc by (first [ apply HP | apply HnP | apply HQ ]).
  rewrite eadd_neg_l by apply HP.
  symmetry. apply eadd_zero_l, HQ.
Qed.

Lemma smulZ_add (a b : Z) (P : Z * Z) :
  isPoint P -> smulZ (a + b) P = eadd (smulZ a P) (smulZ b P).
Proof.
  intros HP. pose proof (isPoint_smulZ b P HP) as Hb.
  pattern a. apply Z.peano_ind; clear a.
  - cbn [Z.add]. rewrite smulZ_0. symmetry. apply eadd_zero_l, Hb.
  - intros a IH. replace (Z.succ a + b) with (a + b + 1) by lia.
    replace (Z.succ a) with (a + 1) by lia.
    rewrite !smulZ_succ by exact HP. rewrite IH.
    symmetry. apply eadd_assoc; [ apply HP | apply (isPoint_smulZ a P HP) | apply Hb ].
  - intros a IH. replace (Z.pred a + b) with (a + b - 1) by lia.
    replace (Z.pred a) with (a - 1) by lia.
    rewrite !smulZ_pred by exact HP. rewrite IH.
    symmetry. apply eadd_assoc;
      [ apply (isPoint_eneg P HP) | apply (isPoint_smulZ a P HP) | apply Hb ].
Qed.

Lemma smulZ_ezero (k : Z) : smulZ k ezero = ezero.
Proof.
  pattern k. apply Z.peano_ind; clear k.
  - reflexivity.
  - intros k IH. replace (Z.succ k) with (k + 1) by lia.
    rewrite smulZ_succ by exact isPoint_ezero. rewrite IH. vm_compute. reflexivity.
  - intros k IH. replace (Z.pred k) with (k - 1) by lia.
    rewrite smulZ_pred by exact isPoint_ezero. rewrite IH. vm_compute. reflexivity.
Qed.

Lemma smulZ_mul (a b : Z) (P : Z * Z) :
  isPoint P -> smulZ (a * b) P = smulZ a (smulZ b P).
Proof.
  intros HP. pose proof (isPoint_smulZ b P HP) as Hb.
  pattern a. apply Z.peano_ind; clear a.
  - reflexivity.
  - intros a IH. replace (Z.succ a * b) with (b + a * b) by lia.
    replace (Z.succ a) with (a + 1) by lia.
    rewrite smulZ_add, smulZ_succ by assumption. now rewrite IH.
  - intros a IH. replace (Z.pred a * b) with (- b + a * b) by lia.
    replace (Z.pred a) with (a - 1) by lia.
    rewrite smulZ_add, smulZ_pred, smulZ_neg by assumption. now rewrite IH.
Qed.

Lemma smul_bin_spec (p : positive) (P : Z * Z) :
  isPoint P -> smul_bin p P = smulZ (Z.pos p) P.
Proof.
  intros HP. induction p; cbn [smul_bin].
  - rewrite IHp. rewrite <- smulZ_add by exact HP.
    rewrite <- (smulZ_1 P HP) at 1. rewrite <- smulZ_add by exact HP.
    f_equal. lia.
  - rewrite IHp. rewrite <- smulZ_add by exact HP. f_equal. lia.
  - symmetry. apply smulZ_1, HP.
Qed.

Lemma smul_smulZ (k : Z) (P : Z * Z) : isPoint P -> smul k P = smulZ k P.
Proof.
  intros HP. destruct k as [ | p | p ]; cbn [smul].
  - reflexivity.
  - apply smul_bin_spec, HP.
  - rewrite smul_bin_spec by exact HP.
    change (Z.neg p) with (- Z.pos p). symmetry. apply smulZ_neg, HP.
Qed.

Lemma isPoint_smul (k : Z) (P : Z * Z) : isPoint P -> isPoint (smul k P).
Proof. intros HP. rewrite smul_smulZ by exact HP. apply isPoint_smulZ, HP. Qed.

Lemma smul_0 (P : Z * Z) : smul 0 P = ezero.
Proof. reflexivity. Qed.

Lemma smul_1 (P : Z * Z) : smul 1 P = P.
Proof. reflexivity. Qed.

Lemma smul_neg (k : Z) (P : Z * Z) : isPoint P -> smul (- k) P = eneg (smul k P).
Proof. intros HP. rewrite !smul_smulZ by exact HP. apply smulZ_neg, HP. Qed.

Lemma smul_add (a b : Z) (P : Z * Z) :
  isPoint P -> smul (a + b) P = eadd (smul a P) (smul b P).
Proof. intros HP. rewrite !smul_smulZ by exact HP. apply smulZ_add, HP. Qed.

Lemma smul_succ (k : Z) (P : Z * Z) :
  isPoint P -> smul (k + 1) P = eadd P (smul k P).
Proof. intros HP. rewrite !smul_smulZ by exact HP. apply smulZ_succ, HP. Qed.

Lemma smul_pred (k : Z) (P : Z * Z) :
  isPoint P -> smul (k - 1) P = eadd (eneg P) (smul k P).
Proof. intros HP. rewrite !smul_smulZ by exact HP. apply smulZ_pred, HP. Qed.

Lemma smul_ezero (k : Z) : smul k ezero = ezero.
Proof. rewrite smul_smulZ by exact isPoint_ezero. apply smulZ_ezero. Qed.

Lemma smul_mul (a b : Z) (P : Z * Z) :
  isPoint P -> smul (a * b) P = smul a (smul b P).
Proof.
  intros HP. pose proof (isPoint_smulZ b P HP) as Hb.
  rewrite (smul_smulZ b) by exact HP. rewrite !smul_smulZ by assumption.
  apply smulZ_mul, HP.
Qed.

(** *** The subgroup of order [CURVE.n] *)

Lemma inSubgroup_isPoint (P : Z * Z) : inSubgroup P -> isPoint P.
Proof. intros [H _]. exact H. Qed.

Lemma inSubgroup_ezero : inSubgroup ezero.
Proof. split; [ exact isPoint_ezero | apply smul_ezero ]. Qed.

Lemma inSubgroup_eadd (P Q : Z * Z) :
  inSubgroup P -> inSubgroup Q -> inSubgroup (eadd P Q).
Proof.
  intros [HP HnP] [HQ HnQ]. split; [ apply isPoint_eadd; assumption | ].
  (* n (P + Q) = n P + n Q *)
  assert (H : forall k, smul k (eadd P Q) = eadd (smul k P) (smul k Q)).
  { intros k. pattern k. apply Z.peano_ind; clear k.
    - symmetry. apply eadd_zero_l, ezero_reduced.
    - intros k IH. replace (Z.succ k) with (k + 1) by lia.
      rewrite !smul_succ by (try apply isPoint_eadd; assumption). rewrite IH.
      pose proof (isPoint_smul k P HP) as [HkP _].
      pose proof (isPoint_smul k Q HQ) as [HkQ _].
      destruct HP as [HP0 _], HQ as [HQ0 _].
      rewrite !eadd_assoc by (try apply eadd_onCurve; assumption).
      f_equal.
      rewrite <- !eadd_assoc by assumption.
      f_equal. apply eadd_comm.
    - intros k IH. replace (Z.pred k) with (k - 1) by lia.
      rewrite !smul_pred by (try apply isPoint_eadd; assumption). rewrite IH.
      rewrite eneg_eadd by assumption.
      pose proof (isPoint_smul k P HP) as [HkP _].
      pose proof (isPoint_smul k Q HQ) as [HkQ _].
      pose proof (isPoint_eneg P HP) as [HnP0 _].
      pose proof (isPoint_eneg Q HQ) as [HnQ0 _].
      rewrite !eadd_assoc by (try apply eadd_onCurve; assumption).
      f_equal.
      rewrite <- !eadd_assoc by assumption.
      f_equal. apply eadd_comm. }
  rewrite H, HnP, HnQ. vm_compute. reflexivity.
Qed.

Lemma inSubgroup_smul (k : Z) (P : Z * Z) : inSubgroup P -> inSubgroup (smul k P).
Proof.
  intros [HP Hn]. split; [ apply isPoint_smul, HP | ].
  rewrite <- smul_mul by exact HP. rewrite Z.mul_comm, smul_mul by exact HP.
  rewrite Hn. apply smul_ezero.
Qed.

Lemma inSubgroup_eneg (P : Z * Z) : inSubgroup P -> inSubgroup (eneg P).
Proof.
  intros H. pose proof (inSubgroup_smul (-1) P H) as H'.
  rewrite (smul_neg 1) in H' by apply H. rewrite smul_1 in H'. exact H'.
Qed.

Lemma smul_mod_order (k : Z) (P : Z * Z) :
  inSubgroup P -> smul (k mod CURVE.n) P = smul k P.
Proof.
  intros [HP Hn]. rewrite (Z.div_mod k CURVE.n) at 2 by discriminate.
  rewrite smul_add by exact HP. rewrite Z.mul_comm, smul_mul by exact HP.
  rewrite Hn, smul_ezero. symmetry. apply eadd_zero_l.
  apply (isPoint_smul _ P HP).
Qed.

(** The order is odd and congruent to 1 modulo 4, so the subgroup contains
    no point of order 2 or 4. *)
Definition order2 : Z * Z := (0, CURVE.P - 1).

Lemma order2_double : eadd order2 order2 = ezero.
Proof. vm_compute. reflexivity. Qed.

Lemma isPoint_order2 : isPoint order2.
Proof.
  split; [ unfold onCurve, eqP; vm_compute; reflexivity
         | split; vm_compute; split; congruence ].
Qed.

Lemma sqrt_one (y : Z) : y * y == 1 -> y == 1 \/ y == -1.
Proof.
  intros H. destruct (eqP_integral (y - 1) (y + 1)) as [H1 | H1].
  - transitivity (y * y - 1); [ ring | rewrite H; ring ].
  - left. apply eqP_sub_0. exact H1.
  - right. apply eqP_sub_0. rewrite <- H1. ring.
Qed.

Lemma sqrt_minus_one (x : Z) :
  x * x == -1 -> x == CONSTANTS.SQRT_M1 \/ x == - CONSTANTS.SQRT_M1.
Proof.
  intros H. destruct (eqP_integral (x - CONSTANTS.SQRT_M1) (x + CONSTANTS.SQRT_M1)) as [H1 | H1].
  - transitivity (x * x - (CONSTANTS.SQRT_M1 * CONSTANTS.SQRT_M1 + 1) + 1); [ ring | ].
    rewrite H, SQRT_M1_sq'. ring.
  - left. apply eqP_sub_0. exact H1.
  - right. apply eqP_sub_0. rewrite <- H1. ring.
Qed.

Lemma smul_order_of_four (P : Z * Z) :
  isPoint P -> smul 4 P = ezero -> smul CURVE.n P = P.
Proof.
  intros HP H4.
  replace CURVE.n with ((CURVE.n / 4) * 4 + 1) by (vm_compute; reflexivity).
  rewrite smul_add, smul_mul, H4, smul_ezero, smul_1 by exact HP.
  apply eadd_zero_l, HP.
Qed.

Lemma fst_zero_points (P : Z * Z) :
  isPoint P -> fst P == 0 -> P = ezero \/ P = order2.
Proof.
  intros [HC HR] Hx. destruct P as [x y]. cbn [fst snd] in *.
  unfold onCurve, curveEq in HC. cbn [fst snd] in HC.
  assert (Hy : y * y == 1).
  { apply eqP_sub_0. rewrite <- HC. rewrite Hx. ring. }
  assert (x = 0) as ->.
  { apply eqP_small; [ apply HR | vm_compute; split; congruence | exact Hx ]. }
  destruct (sqrt_one y Hy) as [H1 | H1].
  - left. unfold ezero. f_equal.
    apply eqP_small; [ apply HR | vm_compute; split; congruence | exact H1 ].
  - right. unfold order2. f_equal.
    apply eqP_small; [ apply HR | vm_compute; split; congruence | ].
    rewrite H1. unfold eqP. vm_compute. reflexivity.
Qed.

Lemma subgroup_fst_zero (P : Z * Z) : inSubgroup P -> fst P == 0 -> P = ezero.
Proof.
  intros [HP Hn] Hx. destruct (fst_zero_points P HP Hx) as [H | H]; [ exact H | ].
  exfalso. subst P.
  rewrite (smul_order_of_four order2 isPoint_order2) in Hn.
  - vm_compute in Hn. discriminate Hn.
  - vm_compute. reflexivity.
Qed.

Lemma subgroup_snd_nonzero (P : Z * Z) : inSubgroup P -> ~ snd P == 0.
Proof.
  intros [HP Hn] Hy. destruct HP as [HC HR]. destruct P as [x y]. cbn [fst snd] in *.
  unfold onCurve, curveEq in HC. cbn [fst snd] in HC.
  assert (y = 0) as ->.
  { apply eqP_small; [ apply HR | vm_compute; split; congruence | exact Hy ]. }
  assert (Hx : x * x == -1).
  { apply eqP_sub_0. transitivity (- (0 * 0 - x * x - 1 - CURVE.d * x * x * 0 * 0)); [ ring | ].
    rewrite HC. ring. }
  assert (Hcases : x = CONSTANTS.SQRT_M1 \/ x = CURVE.P - CONSTANTS.SQRT_M1).
  { destruct (sqrt_minus_one x Hx) as [H1 | H1]; [ left | right ].
    - apply eqP_small; [ apply HR | vm_compute; split; congruence | exact H1 ].
    - apply eqP_small; [ apply HR | vm_compute; split; congruence | ].
      rewrite H1, eqP_P_0. ring. }
  destruct Hcases as [-> | ->].
  - rewrite smul_order_of_four in Hn.
    + vm_compute in Hn. discriminate Hn.
    + split; [ unfold onCurve, eqP; vm_compute; reflexivity
             | split; vm_compute; split; congruence ].
    + vm_compute. reflexivity.
  - rewrite smul_order_of_four in Hn.
    + vm_compute in Hn. discriminate Hn.
    + split; [ unfold onCurve, eqP; vm_compute; reflexivity
             | split; vm_compute; split; congruence ].
    + vm_compute. reflexivity.
Qed.

(** *** The evaluating membership test *)

Lemma fold_eqP (x : Z) : Z.land x (Z.ones 255) + 19 * Z.shiftr x 255 == x.
Proof.
  rewrite Z.land_ones, Z.shiftr_div_pow2 by lia.
  pose proof (Z.div_mod x (2 ^ 255)) as Hdm.
  set (q := x / 2 ^ 255) in *. set (r := x mod 2 ^ 255) in *.
  assert (E : 2 ^ 255 == 19) by (unfold eqP; vm_compute; reflexivity).
  transitivity (2 ^ 255 * q + r).
  - rewrite E. ring.
  - apply eqP_of_eq. symmetry. apply Hdm. vm_compute. discriminate.
Qed.

Lemma fastmod_eqP (x : Z) : fastmod x == x.
Proof. unfold fastmod. cbv zeta. now rewrite !fold_eqP. Qed.

Lemma isPointb_sound (P : Z * Z) : isPointb P = true -> isPoint P.
Proof.
  unfold isPointb. rewrite !andb_true_iff.
  intros [[[[H1 H2] H3] H4] H5].
  apply Z.eqb_eq in H1. apply Z.leb_le in H2, H4. apply Z.ltb_lt in H3, H5.
  split; [ apply eqP_0_iff; exact H1 | split; lia ].
Qed.

Lemma padd_correct (T1 T2 : Z * Z * Z) (A1 A2 : Z * Z) :
  onCurve A1 -> onCurve A2 -> prepr T1 A1 -> prepr T2 A2 ->
  prepr (padd T1 T2) (eadd A1 A2).
Proof.
  intros H1 H2. destruct T1 as [[X1 Y1] Z1], T2 as [[X2 Y2] Z2].
  intros (Hz1 & Hx1 & Hy1) (Hz2 & Hx2 & Hy2).
  pose proof (eadd_fst A1 A2 H1 H2) as Hx3.
  pose proof (eadd_snd A1 A2 H1 H2) as Hy3.
  pose proof (denominator_plus _ _ _ _ H1 H2) as Hp.
  pose proof (denominator_minus _ _ _ _ H1 H2) as Hm.
  set (x3 := fst (eadd A1 A2)) in *. set (y3 := snd (eadd A1 A2)) in *.
  destruct A1 as [x1 y1], A2 as [x2 y2]. cbn [fst snd] in *.
  set (Dp := 1 + CURVE.d * x1 * x2 * y1 * y2) in *.
  set (Dm := 1 - CURVE.d * x1 * x2 * y1 * y2) in *.
  unfold padd, prepr. cbv zeta.
  set (A := fastmod (Z1 * Z2)).
  assert (EA : A == Z1 * Z2) by apply fastmod_eqP.
  set (B := fastmod (A * A)).
  assert (EB : B == A * A) by apply fastmod_eqP.
  set (C := fastmod (X1 * X2)).
  assert (EC : C == x1 * x2 * (Z1 * Z2)).
  { unfold C. rewrite fastmod_eqP, Hx1, Hx2. ring. }
  set (D := fastmod (Y1 * Y2)).
  assert (ED : D == y1 * y2 * (Z1 * Z2)).
  { unfold D. rewrite fastmod_eqP, Hy1, Hy2. ring. }
  set (E := fastmod (CURVE.d * fastmod (C * D))).
  assert (EE : E == CURVE.d * x1 * x2 * y1 * y2 * (A * A)).
  { unfold E. rewrite fastmod_eqP, fastmod_eqP, EC, ED, EA. ring. }
  assert (EN : fastmod (X1 * Y2 + Y1 * X2) == (x1 * y2 + y1 * x2) * A).
  { rewrite fastmod_eqP, Hx1, Hx2, Hy1, Hy2, EA. ring. }
  assert (HA : ~ A == 0) by (rewrite EA; apply eqP_mul_nonzero; assumption).
  assert (EF : B - E == A * A * Dm) by (rewrite EB, EE; unfold Dm; ring).
  assert (EG : B + E == A * A * Dp) by (rewrite EB, EE; unfold Dp; ring).
  generalize dependent (fastmod (X1 * Y2 + Y1 * X2)). intros N EN.
  generalize dependent (B - E). intros F EF.
  generalize dependent (B + E). intros G EG.
  rewrite (fastmod_eqP (fastmod (A * F) * N)), (fastmod_eqP (A * F)).
  rewrite (fastmod_eqP (fastmod (A * G) * (D + C))), (fastmod_eqP (A * G)).
  rewrite (fastmod_eqP (F * G)).
  rewrite EF, EG, EN, ED, EC, <- EA.
  fold x3 y3.
  split; [ | split ].
  - repeat apply eqP_mul_nonzero; assumption.
  - transitivity (A * A * A * A * Dm * (x1 * y2 + y1 * x2)); [ ring | ].
    rewrite <- Hx3. ring.
  - transitivity (A * A * A * A * Dp * (y1 * y2 + x1 * x2)); [ ring | ].
    rewrite <- Hy3. ring.
Qed.

Lemma isPoint_smul_bin (p : positive) (A : Z * Z) : isPoint A -> isPoint (smul_bin p A).
Proof. intros HA. rewrite smul_bin_spec by exact HA. apply isPoint_smulZ, HA. Qed.

Lemma psmul_bin_correct (p : positive) (T : Z * Z * Z) (A : Z * Z) :
  isPoint A -> prepr T A -> prepr (psmul_bin p T) (smul_bin p A).
Proof.
  intros HA HT. induction p; cbn [psmul_bin smul_bin]; cbv zeta.
  - pose proof (isPoint_smul_bin p A HA) as [HQ _].
    apply padd_correct; [ apply HA | apply eadd_onCurve; exact HQ | exact HT | ].
    apply padd_correct; assumption.
  - pose proof (isPoint_smul_bin p A HA) as [HQ _].
    apply padd_correct; assumption.
  - exact HT.
Qed.

Lemma inSubgroupb_sound (P : Z * Z) : inSubgroupb P = true -> inSubgroup P.
Proof.
  unfold inSubgroupb. rewrite andb_true_iff. intros [HP H].
  apply isPointb_sound in HP. split; [ exact HP | ].
  assert (Hr : prepr (fst P, snd P, 1) P).
  { split; [ exact eqP_1_neq_0 | split; ring ]. }
  pose proof (psmul_bin_correct (Z.to_pos CURVE.n) _ P HP Hr) as Hc.
  change (smul CURVE.n P) with (smul_bin (Z.to_pos CURVE.n) P).
  pose proof (isPoint_smul_bin (Z.to_pos CURVE.n) P HP) as [_ HR].
  destruct (psmul_bin (Z.to_pos CURVE.n) (fst P, snd P, 1)) as [[X Y] Z0].
  apply andb_true_iff in H. destruct H as [HX HY].
  apply Z.eqb_eq in HX, HY. apply eqP_0_iff in HX, HY.
  destruct Hc as (Hz & Hx & Hy).
  apply point_ext; [ exact HR | exact ezero_reduced | | ]; cbn [fst snd ezero].
  - apply (eqP_mul_cancel_r _ _ Z0 Hz). rewrite <- Hx, HX. ring.
  - apply (eqP_mul_cancel_r _ _ Z0 Hz). rewrite <- Hy.
    apply eqP_sub_0. rewrite <- HY. ring.
Qed.

(** The base point lies in the subgroup. *)
Lemma isPoint_base : isPoint basePoint.
Proof.
  split; [ unfold onCurve, eqP; vm_compute; reflexivity
         | split; vm_compute; split; congruence ].
Qed.

Lemma inSubgroup_base : inSubgroup basePoint.
Proof. apply inSubgroupb_sound. vm_compute. reflexivity. Qed.

End Group.

(** ** Extended coordinates represent affine points *)

(** [e] represents the affine point [A]: X = x Z, Y = y Z, T = x y Z,
    with Z invertible. *)
Definition repr (e : ExtendedPoint.point) (A : Z * Z) : Prop :=
  ~ ExtendedPoint.z e == 0
  /\ ExtendedPoint.x e == fst A * ExtendedPoint.z e
  /\ ExtendedPoint.y e == snd A * ExtendedPoint.z e
  /\ ExtendedPoint.t e == fst A * snd A * ExtendedPoint.z e.

(** Names for the values of [math.modP], innermost first. *)
Ltac name_modP :=
  match goal with
  | |- context [math.modP ?t] =>
      lazymatch t with
      | context [math.modP _] => fail
      | _ =>
          let v := fresh "m" in
          let H := fresh "Em" in
          pose proof (modP_eqP t) as H;
          set (v := math.modP t) in *; clearbody v
      end
  end.

Ltac drop_names :=
  repeat match goal with
         | H : ?v == _ |- _ => is_var v; rewrite H; clear H; try clear v
         end.

Lemma invert_loop_ok (a0 m : Z) (fuel : nat) :
  forall a b x y u v : Z,
    0 <= a < b -> a * b < 2 ^ Z.of_nat fuel ->
    (m | a - u * a0) -> (m | b - x * a0) ->
    exists x', math.invert_loop fuel a b x y u v = Some (Z.gcd a b, x')
               /\ (m | Z.gcd a b - x' * a0).
Proof.
  induction fuel as [ | fuel IH ]; intros a b x y u v Hab Hfuel Ha Hb.
  - assert (a = 0) as -> by (change (2 ^ Z.of_nat 0) with 1 in Hfuel; nia).
    exists x. cbn. rewrite Z.abs_eq by lia. split; [ reflexivity | exact Hb ].
  - cbn [math.invert_loop]. unfold Ints.notEqual.
    destruct (Z.eqb_spec a 0) as [-> | Hnz]; cbn [negb].
    + exists x. cbn. rewrite Z.abs_eq by lia. split; [ reflexivity | exact Hb ].
    + unfold Ints.divide, Ints.remainder, Ints.subtract, Ints.multiply.
      rewrite Z.rem_mod_nonneg, Z.quot_div_nonneg by lia.
      pose proof (Z.mod_pos_bound b a ltac:(lia)) as Hr.
      pose proof (Z.div_mod b a Hnz) as Hdm.
      assert (Hq : 1 <= b / a).
      { apply Z.div_le_lower_bound; lia. }
      destruct (IH (b mod a) a u v (x - u * (b / a)) (y - v * (b / a))) as (x' & E & Hd).
      * exact Hr.
      * rewrite Nat2Z.inj_succ, Z.pow_succ_r in Hfuel by lia. nia.
      * replace (b mod a - (x - u * (b / a)) * a0)
          with ((b - x * a0) - (b / a) * (a - u * a0)) by (rewrite Hdm at 1; ring).
        apply Z.divide_sub_r; [ exact Hb | apply Z.divide_mul_r, Ha ].
      * exact Ha.
      * exists x'. rewrite E. rewrite Z.gcd_mod in * by exact Hnz.
        split; [ reflexivity | exact Hd ].
Qed.

Section Extended.

Add Field Fp_field4 : eqP_field_theory
  (setoid eqP_Equivalence eqP_ring_eq_ext, morphism eqP_morph, constants [Zcst]).

Lemma repr_ZERO : repr ExtendedPoint.ZERO ezero.
Proof.
  unfold repr, ExtendedPoint.ZERO, ezero. cbn.
  split; [ exact eqP_1_neq_0 | repeat split; ring ].
Qed.

Lemma repr_BASE : repr ExtendedPoint.BASE basePoint.
Proof.
  unfold repr, ExtendedPoint.BASE, basePoint. cbn [ExtendedPoint.x ExtendedPoint.y
    ExtendedPoint.z ExtendedPoint.t fst snd].
  split; [ exact eqP_1_neq_0 | split; [ ring | split; [ ring | ] ] ].
  unfold Ints.multiply. rewrite modP_eqP. ring.
Qed.

Lemma repr_affine (x y : Z) :
  repr (ExtendedPoint.new x y 1 (math.modP (Ints.multiply x y))) (x, y).
Proof.
  unfold repr. cbn [ExtendedPoint.x ExtendedPoint.y ExtendedPoint.z ExtendedPoint.t fst snd].
  split; [ exact eqP_1_neq_0 | split; [ ring | split; [ ring | ] ] ].
  unfold Ints.multiply. rewrite modP_eqP. ring.
Qed.

Lemma negate_correct (e : ExtendedPoint.point) (A : Z * Z) :
  repr e A -> repr (ExtendedPoint.negate e) (eneg A).
Proof.
  intros (Hz & Hx & Hy & Ht). unfold repr, ExtendedPoint.negate, eneg.
  cbn [ExtendedPoint.x ExtendedPoint.y ExtendedPoint.z ExtendedPoint.t fst snd].
  unfold Ints.unaryMinus. rewrite !modP_eqP.
  split; [ exact Hz | split; [ | split ] ].
  - rewrite Hx. ring.
  - exact Hy.
  - rewrite Ht. ring.
Qed.

Lemma double_correct (e : ExtendedPoint.point) (A : Z * Z) :
  onCurve A -> repr e A -> repr (ExtendedPoint.double e) (eadd A A).
Proof.
  intros HA (Hz & Hx & Hy & Ht).
  pose proof (eadd_fst A A HA HA) as Hx3.
  pose proof (eadd_snd A A HA HA) as Hy3.
  pose proof (denominator_plus _ _ _ _ HA HA) as Hp.
  pose proof (denominator_minus _ _ _ _ HA HA) as Hm.
  unfold repr.
  set (x3 := fst (eadd A A)) in *. set (y3 := snd (eadd A A)) in *.
  clearbody x3 y3.
  destruct e as [X1 Y1 Z1 T1], A as [x1 y1].
  unfold onCurve, curveEq in HA.
  cbn [ExtendedPoint.x ExtendedPoint.y ExtendedPoint.z ExtendedPoint.t fst snd] in *.
  set (Dp := 1 + CURVE.d * x1 * x1 * y1 * y1) in *.
  set (Dm := 1 - CURVE.d * x1 * x1 * y1 * y1) in *.
  unfold repr, ExtendedPoint.double. cbv zeta.
  cbn [ExtendedPoint.x ExtendedPoint.y ExtendedPoint.z ExtendedPoint.t fst snd].
  unfold Ints.multiply, Ints.add, Ints.subtract, CURVE.a.
  set (ZZ := Z1 * Z1).
  assert (HZZ : ~ ZZ == 0) by (apply eqP_mul_nonzero; assumption).
  (* A, B, C, D, E, G, F, H of the source *)
  set (cA := math.modP (X1 * X1)).
  assert (EA : cA == x1 * x1 * ZZ) by (unfold cA, ZZ; rewrite modP_eqP, Hx; ring).
  set (cB := math.modP (Y1 * Y1)).
  assert (EB : cB == y1 * y1 * ZZ) by (unfold cB, ZZ; rewrite modP_eqP, Hy; ring).
  set (cC := math.modP (2 * Z1 * Z1)).
  assert (EC : cC == 2 * ZZ) by (unfold cC, ZZ; rewrite modP_eqP; ring).
  set (cD := math.modP (-1 * cA)).
  assert (ED : cD == - (x1 * x1 * ZZ)) by (unfold cD; rewrite modP_eqP, EA; ring).
  set (cE := math.modP ((X1 + Y1) * (X1 + Y1) - cA - cB)).
  assert (EE : cE == 2 * x1 * y1 * ZZ).
  { unfold cE. rewrite modP_eqP, EA, EB, Hx, Hy. unfold ZZ. ring. }
  set (cG := math.modP (cD + cB)).
  assert (EG : cG == ZZ * Dp).
  { unfold cG. rewrite modP_eqP, ED, EB. apply eqP_sub_0.
    transitivity (ZZ * (y1 * y1 - x1 * x1 - 1 - CURVE.d * x1 * x1 * y1 * y1));
      [ unfold Dp; ring | rewrite HA; ring ]. }
  set (cF := math.modP (cG - cC)).
  assert (EF : cF == - (ZZ * Dm)).
  { unfold cF. rewrite modP_eqP, EG, EC. unfold Dp, Dm. ring. }
  set (cH := math.modP (cD - cB)).
  assert (EH : cH == - (ZZ * (x1 * x1 + y1 * y1))).
  { unfold cH. rewrite modP_eqP, ED, EB. ring. }
  clearbody cA cB cC cD cE cG cF cH.
  rewrite (modP_eqP (cE * cF)), (modP_eqP (cG * cH)), (modP_eqP (cE * cH)),
    (modP_eqP (cF * cG)).
  rewrite EE, EF, EG, EH.
  split; [ | split; [ | split ] ].
  - repeat apply eqP_mul_nonzero; try assumption.
    intros H0. apply Hm. transitivity (- (- Dm * 1)); [ ring | ].
    apply (eqP_mul_cancel_r _ _ ZZ HZZ).
    transitivity (- (- (ZZ * Dm))); [ ring | rewrite H0; ring ].
  - transitivity (- (ZZ * ZZ * Dm * (2 * x1 * y1))); [ ring | ].
    transitivity (- (ZZ * ZZ * Dm * (x3 * Dp))); [ | ring ].
    rewrite Hx3. ring.
  - transitivity (- (ZZ * ZZ * Dp * (y1 * y1 + x1 * x1))); [ ring | ].
    transitivity (- (ZZ * ZZ * Dp * (y3 * Dm))); [ | ring ].
    rewrite Hy3. ring.
  - transitivity (- (ZZ * ZZ * ((2 * x1 * y1) * (y1 * y1 + x1 * x1)))); [ ring | ].
    transitivity (- (ZZ * ZZ * ((x3 * Dp) * (y3 * Dm)))); [ | ring ].
    rewrite Hx3, Hy3. ring.
Qed.

(** The dedicated addition formula is right whenever the difference of
    the two points has non-zero coordinates; when the x-coordinate of the
    difference vanishes the code doubles instead, which is right for equal
    points. *)
Lemma add_correct (e1 e2 : ExtendedPoint.point) (A1 A2 : Z * Z) :
  onCurve A1 -> onCurve A2 -> repr e1 A1 -> repr e2 A2 ->
  (fst (eadd A1 (eneg A2)) == 0 -> A1 = A2) ->
  ~ snd (eadd A1 (eneg A2)) == 0 ->
  repr (ExtendedPoint.add e1 e2) (eadd A1 A2).
Proof.
  intros H1 H2 (Hz1 & Hx1 & Hy1 & Ht1) (Hz2 & Hx2 & Hy2 & Ht2) Hsame Hdiff.
  pose proof (eneg_onCurve A2 H2) as HN2.
  pose proof (eadd_fst A1 (eneg A2) H1 HN2) as Hxd.
  pose proof (eadd_snd A1 (eneg A2) H1 HN2) as Hyd.
  pose proof (denominator_plus _ _ _ _ H1 HN2) as Hpd.
  pose proof (denominator_minus _ _ _ _ H1 HN2) as Hmd.
  pose proof (eadd_fst A1 A2 H1 H2) as Hx3.
  pose proof (eadd_snd A1 A2 H1 H2) as Hy3.
  pose proof (denominator_plus _ _ _ _ H1 H2) as Hp.
  pose proof (denominator_minus _ _ _ _ H1 H2) as Hm.
  set (xd := fst (eadd A1 (eneg A2))) in *. set (yd := snd (eadd A1 (eneg A2))) in *.
  clearbody xd yd.
  unfold ExtendedPoint.add. cbv zeta.
  unfold Ints.multiply, Ints.add, Ints.subtract, Ints.equal.
  set (ZZ := ExtendedPoint.z e1 * ExtendedPoint.z e2).
  assert (HZZ : ~ ZZ == 0) by (apply eqP_mul_nonzero; assumption).
  set (cA := math.modP ((ExtendedPoint.y e1 - ExtendedPoint.x e1)
                        * (ExtendedPoint.y e2 + ExtendedPoint.x e2))).
  assert (EA : cA == (snd A1 - fst A1) * (snd A2 + fst A2) * ZZ).
  { unfold cA, ZZ. rewrite modP_eqP, Hx1, Hy1, Hx2, Hy2. ring. }
  set (cB := math.modP ((ExtendedPoint.y e1 + ExtendedPoint.x e1)
                        * (ExtendedPoint.y e2 - ExtendedPoint.x e2))).
  assert (EB : cB == (snd A1 + fst A1) * (snd A2 - fst A2) * ZZ).
  { unfold cB, ZZ. rewrite modP_eqP, Hx1, Hy1, Hx2, Hy2. ring. }
  set (cF := math.modP (cB - cA)).
  assert (EF : cF == 2 * ZZ * (fst A1 * snd A2 - snd A1 * fst A2)).
  { unfold cF. rewrite modP_eqP, EA, EB. ring. }
  (* the difference of the two points *)
  unfold eneg in Hxd, Hyd, Hpd, Hmd. cbn [fst snd] in Hxd, Hyd, Hpd, Hmd.
  rewrite modP_eqP in Hxd, Hyd, Hpd, Hmd.
  assert (EF' : cF == 2 * ZZ * (xd * (1 + CURVE.d * fst A1 * - fst A2 * snd A1 * snd A2))).
  { rewrite EF, Hxd. ring. }
  destruct (Z.eqb_spec cF 0) as [HF0 | HF0].
  - (* same point *)
    assert (Hxd0 : xd == 0).
    { rewrite HF0 in EF'. symmetry in EF'.
      destruct (eqP_integral _ _ EF') as [E1 | E1].
      - exfalso. revert E1. apply eqP_mul_nonzero; [ exact two_nonzero | exact HZZ ].
      - destruct (eqP_integral _ _ E1) as [E2 | E2]; [ exact E2 | contradiction ]. }
    rewrite <- (Hsame Hxd0). apply double_correct; [ exact H1 | ].
    repeat split; assumption.
  - assert (HF : ~ cF == 0).
    { intros E0. apply HF0. apply eqP_small.
      - unfold cF. apply modP_range.
      - vm_compute. split; congruence.
      - exact E0. }
    unfold repr.
    set (x3 := fst (eadd A1 A2)) in *. set (y3 := snd (eadd A1 A2)) in *.
    clearbody x3 y3.
    cbn [ExtendedPoint.x ExtendedPoint.y ExtendedPoint.z ExtendedPoint.t].
    set (cC := math.modP (ExtendedPoint.z e1 * 2 * ExtendedPoint.t e2)).
    assert (EC : cC == 2 * ZZ * (fst A2 * snd A2)).
    { unfold cC, ZZ. rewrite modP_eqP, Ht2. ring. }
    set (cD := math.modP (ExtendedPoint.t e1 * 2 * ExtendedPoint.z e2)).
    assert (ED : cD == 2 * ZZ * (fst A1 * snd A1)).
    { unfold cD, ZZ. rewrite modP_eqP, Ht1. ring. }
    set (cE := math.modP (cD + cC)).
    assert (EE : cE == 2 * ZZ * (fst A1 * snd A1 + fst A2 * snd A2)).
    { unfold cE. rewrite modP_eqP, EC, ED. ring. }
    set (cG := math.modP (cB + cA)).
    assert (EG : cG == 2 * ZZ * (snd A1 * snd A2 - fst A1 * fst A2)).
    { unfold cG. rewrite modP_eqP, EA, EB. ring. }
    set (cH := math.modP (cD - cC)).
    assert (EH : cH == 2 * ZZ * (fst A1 * snd A1 - fst A2 * snd A2)).
    { unfold cH. rewrite modP_eqP, EC, ED. ring. }
    assert (HG : ~ cG == 0).
    { rewrite EG.
      assert (E : snd A1 * snd A2 - fst A1 * fst A2
                  == yd * (1 - CURVE.d * fst A1 * - fst A2 * snd A1 * snd A2)).
      { rewrite Hyd. ring. }
      rewrite E. repeat apply eqP_mul_nonzero; try assumption. exact two_nonzero. }
    (* the dedicated formulas agree with the unified ones on the curve *)
    assert (ExG : cE == x3 * cG).
    { apply (eqP_mul_cancel_r _ _ (1 + CURVE.d * fst A1 * fst A2 * snd A1 * snd A2) Hp).
      rewrite EE, EG.
      transitivity (2 * ZZ * ((snd A1 * snd A2 - fst A1 * fst A2)
                    * (x3 * (1 + CURVE.d * fst A1 * fst A2 * snd A1 * snd A2))));
        [ | ring ].
      rewrite Hx3. apply eqP_sub_0.
      transitivity (2 * ZZ * ((fst A1 * snd A1 + fst A2 * snd A2)
                       * (1 + CURVE.d * fst A1 * fst A2 * snd A1 * snd A2)
                     - (fst A1 * snd A2 + snd A1 * fst A2)
                       * (snd A1 * snd A2 - fst A1 * fst A2))); [ ring | ].
      rewrite (eqP_of_eq (dedicated_cert_x CURVE.d (fst A1) (snd A1) (fst A2) (snd A2))).
      unfold onCurve in H1, H2. rewrite H1, H2. ring. }
    assert (EyF : cH == y3 * cF).
    { apply (eqP_mul_cancel_r _ _ (1 - CURVE.d * fst A1 * fst A2 * snd A1 * snd A2) Hm).
      rewrite EH, EF.
      transitivity (2 * ZZ * ((fst A1 * snd A2 - snd A1 * fst A2)
                    * (y3 * (1 - CURVE.d * fst A1 * fst A2 * snd A1 * snd A2))));
        [ | ring ].
      rewrite Hy3. apply eqP_sub_0.
      transitivity (2 * ZZ * ((fst A1 * snd A1 - fst A2 * snd A2)
                       * (1 - CURVE.d * fst A1 * fst A2 * snd A1 * snd A2)
                     - (snd A1 * snd A2 + fst A1 * fst A2)
                       * (fst A1 * snd A2 - snd A1 * fst A2))); [ ring | ].
      rewrite (eqP_of_eq (dedicated_cert_y CURVE.d (fst A1) (snd A1) (fst A2) (snd A2))).
      unfold onCurve in H1, H2. rewrite H1, H2. ring. }
    clearbody cA cB cC cD cE cG cF cH.
    rewrite (modP_eqP (cE * cF)), (modP_eqP (cG * cH)), (modP_eqP (cE * cH)),
      (modP_eqP (cF * cG)).
    split; [ | split; [ | split ] ].
    + apply eqP_mul_nonzero; assumption.
    + rewrite ExG. ring.
    + rewrite EyF. ring.
    + rewrite ExG, EyF. ring.
Qed.

(** In the subgroup of odd order the case distinction of [add] is sound. *)
Lemma add_correct_subgroup (e1 e2 : ExtendedPoint.point) (A1 A2 : Z * Z) :
  inSubgroup A1 -> inSubgroup A2 -> repr e1 A1 -> repr e2 A2 ->
  repr (ExtendedPoint.add e1 e2) (eadd A1 A2).
Proof.
  intros HS1 HS2 Hr1 Hr2.
  pose proof (inSubgroup_eadd _ _ HS1 (inSubgroup_eneg _ HS2)) as HD.
  destruct HS1 as [HP1 Hn1], HS2 as [HP2 Hn2].
  apply add_correct; try assumption; try apply HP1; try apply HP2.
  - intros Hx. pose proof (subgroup_fst_zero _ HD Hx) as E.
    (* A1 - A2 = 0 gives A1 = A2 *)
    pose proof (isPoint_eneg A2 HP2) as HN2.
    apply (eadd_cancel_l (eneg A2)); try assumption.
    rewrite (eadd_comm (eneg A2) A1), E. symmetry. apply eadd_neg_l, HP2.
  - apply subgroup_snd_nonzero, HD.
Qed.

Lemma double_correct_subgroup (e : ExtendedPoint.point) (A : Z * Z) :
  inSubgroup A -> repr e A -> repr (ExtendedPoint.double e) (eadd A A).
Proof. intros [[HA _] _] Hr. apply double_correct; assumption. Qed.

(** *** Modular inversion *)

Lemma invert_correct (z : Z) : ~ z == 0 -> math.invert z CURVE.P = Ok (finv z).
Proof.
  intros Hz. unfold math.invert, Ints.equal, Ints.lessThanOrEqual.
  destruct (Z.eqb_spec z 0) as [-> | Hnz]; [ exfalso; apply Hz; reflexivity | ].
  change (CURVE.P <=? 0) with false. cbn [orb].
  rewrite mod__spec by exact P_pos.
  assert (Hrange : 1 <= z mod CURVE.P < CURVE.P).
  { pose proof (Z.mod_pos_bound z CURVE.P P_pos).
    rewrite eqP_0_iff in Hz. lia. }
  destruct (invert_loop_ok (z mod CURVE.P) CURVE.P (math.invert_fuel CURVE.P)
              (z mod CURVE.P) CURVE.P 0 1 1 0) as (x' & E & Hd).
  - lia.
  - apply Z.lt_le_trans with (CURVE.P * CURVE.P); [ nia | vm_compute; discriminate ].
  - replace (z mod CURVE.P - 1 * (z mod CURVE.P)) with 0 by lia. apply Z.divide_0_r.
  - replace (CURVE.P - 0 * (z mod CURVE.P)) with CURVE.P by lia. apply Z.divide_refl.
  - rewrite E. rewrite Z.gcd_comm in *.
    rewrite (Z.coprime_prime_small _ _ prime_P Hrange) in *.
    unfold Ints.notEqual. change (negb (1 =? 1)) with false. cbv iota.
    f_equal. rewrite mod__spec by exact P_pos.
    assert (Hzm : z mod CURVE.P == z).
    { unfold eqP. apply Z.mod_mod. discriminate. }
    assert (Hinv : x' * z == 1).
    { rewrite <- Hzm. symmetry. apply eqP_sub_0. apply eqP_0_iff.
      apply Z.mod0_divide. exact Hd. }
    apply eqP_small.
    + apply Z.mod_pos_bound. exact P_pos.
    + apply finv_range.
    + transitivity x'; [ unfold eqP; apply Z.mod_mod; discriminate | ].
      transitivity (x' * (z * finv z)); [ rewrite finv_r by exact Hz; ring | ].
      transitivity (x' * z * finv z); [ ring | ]. rewrite Hinv. ring.
Qed.

Lemma repr_nonzero (e : ExtendedPoint.point) (A : Z * Z) :
  repr e A -> ~ ExtendedPoint.z e == 0.
Proof. intros [H _]. exact H. Qed.

Lemma toAffineWith_correct (e : ExtendedPoint.point) (A : Z * Z) :
  reduced A -> repr e A ->
  ExtendedPoint.toAffineWith e (finv (ExtendedPoint.z e)) = A.
Proof.
  intros HR (Hz & Hx & Hy & _). unfold ExtendedPoint.toAffineWith, Ints.multiply.
  apply point_ext; [ split; apply modP_range | exact HR | | ]; cbn [fst snd];
    rewrite modP_eqP.
  - rewrite Hx. transitivity (fst A * (ExtendedPoint.z e * finv (ExtendedPoint.z e)));
      [ ring | rewrite finv_r by exact Hz; ring ].
  - rewrite Hy. transitivity (snd A * (ExtendedPoint.z e * finv (ExtendedPoint.z e)));
      [ ring | rewrite finv_r by exact Hz; ring ].
Qed.

Lemma toAffine_correct (e : ExtendedPoint.point) (A : Z * Z) :
  reduced A -> repr e A -> ExtendedPoint.toAffine e = Ok A.
Proof.
  intros HR Hr. unfold ExtendedPoint.toAffine.
  rewrite invert_correct by exact (repr_nonzero e A Hr). cbn [rbind].
  f_equal. apply toAffineWith_correct; assumption.
Qed.

(** *** Batch inversion *)

Lemma eqP_nonzero_neq (z : Z) : ~ z == 0 -> z <> 0.
Proof. intros H E. apply H. rewrite E. reflexivity. Qed.

Lemma invertBatch_fwd_snoc (nums : list Z) (z : Z) :
  ~ z == 0 ->
  forall acc : Z,
    math.invertBatch_fwd (nums ++ [z]) CURVE.P acc =
    (fst (math.invertBatch_fwd nums CURVE.P acc)
       ++ [Some (snd (math.invertBatch_fwd nums CURVE.P acc))],
     math.modP (snd (math.invertBatch_fwd nums CURVE.P acc) * z)).
Proof.
  intros Hz. apply eqP_nonzero_neq in Hz.
  induction nums as [ | num rest IH ]; intros acc; cbn [app math.invertBatch_fwd].
  - unfold Ints.equal. destruct (Z.eqb_spec z 0); [ contradiction | reflexivity ].
  - destruct (Ints.equal num 0).
    + rewrite IH. destruct (math.invertBatch_fwd rest CURVE.P acc). reflexivity.
    + rewrite IH.
      destruct (math.invertBatch_fwd rest CURVE.P
                  (math.mod_ (Ints.multiply acc num) CURVE.P)). reflexivity.
Qed.

Lemma invertBatch_fwd_nonzero (nums : list Z) :
  Forall (fun z => ~ z == 0) nums ->
  forall acc : Z, ~ acc == 0 -> ~ snd (math.invertBatch_fwd nums CURVE.P acc) == 0.
Proof.
  induction 1 as [ | z rest Hz Hrest IH ]; intros acc Hacc; cbn [math.invertBatch_fwd].
  - exact Hacc.
  - unfold Ints.equal. destruct (Z.eqb_spec z 0) as [E | _].
    + exfalso. apply Hz. rewrite E. reflexivity.
    + specialize (IH (math.mod_ (Ints.multiply acc z) CURVE.P)).
      destruct (math.invertBatch_fwd rest CURVE.P (math.mod_ (Ints.multiply acc z) CURVE.P)).
      cbn [snd] in *. apply IH.
      change (math.mod_ (Ints.multiply acc z) CURVE.P) with (math.modP (acc * z)).
      rewrite modP_eqP. apply eqP_mul_nonzero; assumption.
Qed.

Lemma invertBatch_bwd_correct (nums : list Z) :
  Forall (fun z => ~ z == 0) nums ->
  forall acc inv : Z, forall done : list Z,
    ~ acc == 0 ->
    inv == finv (snd (math.invertBatch_fwd nums CURVE.P acc)) ->
    math.invertBatch_bwd (rev nums) (rev (fst (math.invertBatch_fwd nums CURVE.P acc)))
      CURVE.P inv done
    = map finv nums ++ done.
Proof.
  induction nums as [ | z l IH ] using rev_ind; intros Hall acc inv done Hacc Hinv.
  - reflexivity.
  - apply Forall_app in Hall. destruct Hall as [Hl Hz].
    inversion Hz as [ | ? ? Hz' _ ]; subst.
    rewrite invertBatch_fwd_snoc in * by exact Hz'. cbn [fst snd] in *.
    rewrite !rev_app_distr. cbn [rev app math.invertBatch_bwd].
    unfold Ints.equal. destruct (Z.eqb_spec z 0) as [E | _].
    { exfalso. apply Hz'. rewrite E. reflexivity. }
    pose proof (invertBatch_fwd_nonzero l Hl acc Hacc) as Ha.
    set (a := snd (math.invertBatch_fwd l CURVE.P acc)) in *.
    change (math.mod_ (Ints.multiply inv z) CURVE.P) with (math.modP (inv * z)).
    change (math.mod_ (Ints.multiply inv a) CURVE.P) with (math.modP (inv * a)).
    rewrite modP_eqP in Hinv.
    rewrite IH; try assumption.
    + rewrite map_app, <- app_assoc. cbn [map app]. f_equal. f_equal.
      apply eqP_small; [ apply modP_range | apply finv_range | ].
      rewrite modP_eqP, Hinv. field. split; assumption.
    + fold a. rewrite modP_eqP, Hinv. field. split; assumption.
Qed.

Lemma invertBatch_correct (nums : list Z) :
  Forall (fun z => ~ z == 0) nums ->
  math.invertBatch nums CURVE.P = Ok (map finv nums).
Proof.
  intros Hall. unfold math.invertBatch.
  pose proof (invertBatch_fwd_nonzero nums Hall 1 eqP_1_neq_0) as Hacc.
  pose proof (invertBatch_bwd_correct nums Hall 1
                (finv (snd (math.invertBatch_fwd nums CURVE.P 1))) []
                eqP_1_neq_0 ltac:(reflexivity)) as Hb.
  destruct (math.invertBatch_fwd nums CURVE.P 1) as [scratch acc]. cbn [fst snd] in *.
  rewrite invert_correct by exact Hacc. cbn [rbind].
  rewrite Hb, app_nil_r. reflexivity.
Qed.

(** *** Normalisation *)

Definition affineExt (A : Z * Z) : ExtendedPoint.point :=
  ExtendedPoint.new (fst A) (snd A) 1 (math.modP (Ints.multiply (fst A) (snd A))).

Lemma repr_affineExt (A : Z * Z) : repr (affineExt A) A.
Proof. destruct A as [x y]. apply repr_affine. Qed.

Lemma origin_not_onCurve (A : Z * Z) : onCurve A -> (fst A =? 0) && (snd A =? 0) = false.
Proof.
  intros HA. destruct (Z.eqb_spec (fst A) 0) as [E1 | ]; [ | reflexivity ].
  destruct (Z.eqb_spec (snd A) 0) as [E2 | ]; [ | reflexivity ].
  exfalso. unfold onCurve in HA. rewrite E1, E2 in HA.
  revert HA. unfold eqP. vm_compute. discriminate.
Qed.

Lemma fromAffine_JSBI_point (A : Z * Z) :
  onCurve A -> ExtendedPoint.fromAffine JSBI (ExtendedPoint.affineObject A) = Ok (affineExt A).
Proof.
  intros HA. destruct A as [x y]. rewrite fromAffine_JSBI.
  pose proof (origin_not_onCurve (x, y) HA) as E. cbn [fst snd] in E.
  rewrite E. reflexivity.
Qed.

Lemma toAffineBatch_correct (es : list ExtendedPoint.point) (As : list (Z * Z)) :
  Forall2 repr es As -> Forall reduced As ->
  ExtendedPoint.toAffineBatch es = Ok As.
Proof.
  intros Hr HR. unfold ExtendedPoint.toAffineBatch.
  rewrite invertBatch_correct.
  - cbn [rbind]. f_equal.
    induction Hr as [ | e A es' As' HeA Hrest IH ]; [ reflexivity | ].
    inversion HR; subst. cbn [map combine fst snd].
    rewrite (toAffineWith_correct e A) by assumption. f_equal. apply IH. assumption.
  - clear HR. induction Hr as [ | e A es' As' HeA Hrest IH ]; cbn [map]; constructor.
    + exact (repr_nonzero e A HeA).
    + exact IH.
Qed.

Lemma normalizeZ_correct (es : list ExtendedPoint.point) (As : list (Z * Z)) :
  Forall2 repr es As -> Forall isPoint As ->
  ExtendedPoint.normalizeZ JSBI es = Ok (map affineExt As).
Proof.
  intros Hr HP. unfold ExtendedPoint.normalizeZ.
  rewrite (toAffineBatch_correct es As Hr).
  - cbn [rbind]. clear Hr. induction HP as [ | A As' [HA _] _ IH ]; [ reflexivity | ].
    cbn [mapM map]. rewrite (fromAffine_JSBI_point A HA). cbn [rbind].
    rewrite IH. reflexivity.
  - apply Forall_impl with (2 := HP). intros A [_ H]. exact H.
Qed.

Lemma Forall2_repr_affineExt (As : list (Z * Z)) : Forall2 repr (map affineExt As) As.
Proof. induction As; cbn [map]; constructor; [ apply repr_affineExt | assumption ]. Qed.

End Extended.

(** ** The precomputed table *)

(** The multiples 1 B, 2 B, ..., 2^(W-1) B of one window, and the table
    of [windows] windows, window w holding the multiples of 2^(W w) B. *)
Definition windowSpec (W : Z) (B : Z * Z) : list (Z * Z) :=
  map (fun j => smul (Z.of_nat j + 1) B) (seq 0 (Z.to_nat (2 ^ (W - 1)))).

Fixpoint tableSpec (windows : nat) (W : Z) (B : Z * Z) : list (Z * Z) :=
  match windows with
  | O => []
  | S n => windowSpec W B ++ tableSpec n W (smul (2 ^ W) B)
  end.

Section Table.

Variable W : Z.
Hypothesis W_pos : 1 <= W.

Lemma windowSize_pos : 1 <= 2 ^ (W - 1).
Proof. pose proof (Z.pow_pos_nonneg 2 (W - 1)). lia. Qed.

Lemma windowSize_double : 2 * 2 ^ (W - 1) = 2 ^ W.
Proof. rewrite <- Z.pow_succ_r by lia. f_equal. lia. Qed.

Lemma windowSpec_length (B : Z * Z) :
  List.length (windowSpec W B) = Z.to_nat (2 ^ (W - 1)).
Proof. unfold windowSpec. now rewrite length_map, length_seq. Qed.

Lemma windowSpec_nth (B : Z * Z) (j : Z) :
  0 <= j < 2 ^ (W - 1) ->
  nth_error (windowSpec W B) (Z.to_nat j) = Some (smul (j + 1) B).
Proof.
  intros Hj. unfold windowSpec.
  rewrite nth_error_map, nth_error_seq.
  destruct (Nat.ltb_spec (Z.to_nat j) (Z.to_nat (2 ^ (W - 1)))); [ | lia ].
  cbn. do 2 f_equal. lia.
Qed.

Lemma tableSpec_nth (windows : nat) :
  forall (B : Z * Z) (w : nat) (j : Z),
    isPoint B -> (w < windows)%nat -> 0 <= j < 2 ^ (W - 1) ->
    nth_error (tableSpec windows W B) (Z.to_nat (Z.of_nat w * 2 ^ (W - 1) + j))
    = Some (smul ((j + 1) * 2 ^ (W * Z.of_nat w)) B).
Proof.
  pose proof windowSize_pos as Hws.
  induction windows as [ | windows IH ]; intros B w j HB Hw Hj; [ lia | ].
  cbn [tableSpec]. destruct w as [ | w ].
  - cbn [Z.of_nat]. rewrite Z.mul_0_l, Z.add_0_l, Z.mul_0_r, Z.pow_0_r, Z.mul_1_r.
    rewrite nth_error_app1 by (rewrite windowSpec_length; lia).
    apply windowSpec_nth, Hj.
  - rewrite nth_error_app2 by (rewrite windowSpec_length; nia).
    rewrite windowSpec_length.
    replace (Z.to_nat (Z.of_nat (S w) * 2 ^ (W - 1) + j) - Z.to_nat (2 ^ (W - 1)))%nat
      with (Z.to_nat (Z.of_nat w * 2 ^ (W - 1) + j)) by nia.
    rewrite IH; [ | apply isPoint_smul, HB | lia | exact Hj ].
    f_equal. rewrite <- smul_mul by exact HB. f_equal.
    rewrite <- Z.mul_assoc, <- Z.pow_add_r by lia. do 2 f_equal. lia.
Qed.

Lemma tableSpec_inSubgroup (windows : nat) :
  forall B : Z * Z, inSubgroup B -> Forall inSubgroup (tableSpec windows W B).
Proof.
  induction windows as [ | windows IH ]; intros B HB; cbn [tableSpec]; [ constructor | ].
  apply Forall_app. split.
  - unfold windowSpec. apply Forall_map, Forall_forall. intros j _.
    apply inSubgroup_smul, HB.
  - apply IH, inSubgroup_smul, HB.
Qed.

Lemma inner_correct (B : Z * Z) (p : ExtendedPoint.point) :
  inSubgroup B -> repr p B ->
  forall (count : nat) (base : ExtendedPoint.point) (j : Z),
    repr base (smul j B) ->
    repr (fst (ExtendedPoint.precomputeWindow_inner count base p))
         (smul (j + Z.of_nat count) B)
    /\ Forall2 repr (snd (ExtendedPoint.precomputeWindow_inner count base p))
                    (map (fun i => smul (j + 1 + Z.of_nat i) B) (seq 0 count)).
Proof.
  intros HB Hp. induction count as [ | count IH ]; intros base j Hbase.
  - cbn. rewrite Z.add_0_r. split; [ exact Hbase | constructor ].
  - cbn [ExtendedPoint.precomputeWindow_inner].
    assert (Hbase' : repr (ExtendedPoint.add base p) (smul (j + 1) B)).
    { rewrite smul_succ by apply HB. rewrite eadd_comm.
      apply add_correct_subgroup; try assumption. apply inSubgroup_smul, HB. }
    destruct (IH (ExtendedPoint.add base p) (j + 1) Hbase') as [Hlast Hpushed].
    destruct (ExtendedPoint.precomputeWindow_inner count (ExtendedPoint.add base p) p)
      as [last pushed].
    cbn [fst snd] in *. split.
    + replace (j + Z.of_nat (S count)) with (j + 1 + Z.of_nat count) by lia. exact Hlast.
    + cbn [seq map]. constructor.
      * rewrite Z.add_0_r. exact Hbase'.
      * rewrite <- seq_shift, map_map.
        erewrite map_ext; [ exact Hpushed | ].
        intros i. cbv beta. f_equal. lia.
Qed.

Lemma outer_correct (windows : nat) :
  forall (p : ExtendedPoint.point) (B : Z * Z),
    inSubgroup B -> repr p B ->
    Forall2 repr (ExtendedPoint.precomputeWindow_outer windows W p) (tableSpec windows W B).
Proof.
  pose proof windowSize_pos as Hws.
  induction windows as [ | windows IH ]; intros p B HB Hp; [ constructor | ].
  cbn [ExtendedPoint.precomputeWindow_outer tableSpec].
  destruct (inner_correct B p HB Hp (Z.to_nat (2 ^ (W - 1) - 1)) p 1 Hp) as [Hlast Hpushed].
  destruct (ExtendedPoint.precomputeWindow_inner (Z.to_nat (2 ^ (W - 1) - 1)) p p)
    as [last pushed].
  cbn [fst snd] in *.
  apply Forall2_app.
  - unfold windowSpec.
    replace (Z.to_nat (2 ^ (W - 1))) with (S (Z.to_nat (2 ^ (W - 1) - 1))) by lia.
    cbn [seq map]. constructor; [ exact Hp | ].
    rewrite <- seq_shift, map_map.
    erewrite map_ext; [ exact Hpushed | ].
    intros i. cbv beta. f_equal. lia.
  - apply IH; [ apply inSubgroup_smul, HB | ].
    replace (2 ^ W) with (2 ^ (W - 1) + 2 ^ (W - 1)) by (pose proof windowSize_double; lia).
    rewrite smul_add by apply HB.
    replace (1 + Z.of_nat (Z.to_nat (2 ^ (W - 1) - 1))) with (2 ^ (W - 1)) in Hlast by lia.
    apply double_correct_subgroup; [ apply inSubgroup_smul, HB | exact Hlast ].
Qed.

End Table.

Lemma precomputeWindow_correct (W : Z) (e : ExtendedPoint.point) (A : Z * Z) :
  1 <= W -> inSubgroup A -> repr e A ->
  Forall2 repr (ExtendedPoint.precomputeWindow e W)
               (tableSpec (Z.to_nat (ExtendedPoint.windowCount W)) W A).
Proof.
  intros HW HA He. unfold ExtendedPoint.precomputeWindow.
  apply outer_correct; try assumption; destruct e; exact He.
Qed.

(** ** The window loop of [wNAF] *)

Lemma Forall2_nth_error_r {X Y : Type} (R : X -> Y -> Prop) (l : list X) (l' : list Y) :
  Forall2 R l l' ->
  forall (i : nat) (b : Y), nth_error l' i = Some b ->
                            exists a, nth_error l i = Some a /\ R a b.
Proof.
  induction 1 as [ | a b0 l l' Hab Hrest IH ]; intros i b Hi.
  - destruct i; discriminate Hi.
  - destruct i as [ | i ]; cbn in *.
    + inversion Hi; subst. eauto.
    + apply IH, Hi.
Qed.

Section WNAF.

Variable W : Z.
Hypothesis W_pos : 1 <= W.
Variable A : Z * Z.
Hypothesis A_sub : inSubgroup A.
Variable total : nat.
Variable pre : list ExtendedPoint.point.
Hypothesis pre_ok : Forall2 repr pre (tableSpec total W A).

Lemma lookup_table (w : nat) (j : Z) :
  (w < total)%nat -> 0 <= j < 2 ^ (W - 1) ->
  exists e, ExtendedPoint.lookup pre (Z.of_nat w * 2 ^ (W - 1) + j) = Ok e
            /\ repr e (smul ((j + 1) * 2 ^ (W * Z.of_nat w)) A).
Proof.
  intros Hw Hj. pose proof (windowSize_pos W W_pos) as Hws.
  pose proof (tableSpec_nth W W_pos total A w j (inSubgroup_isPoint A A_sub) Hw Hj) as Hn.
  destruct (Forall2_nth_error_r repr pre _ pre_ok _ _ Hn) as (e & He & Hr).
  exists e. unfold ExtendedPoint.lookup.
  destruct (Z.ltb_spec (Z.of_nat w * 2 ^ (W - 1) + j) 0); [ nia | ].
  rewrite He. split; [ reflexivity | exact Hr ].
Qed.

Lemma wNAF_loop_correct (count : nat) :
  forall (w : nat) (n : Z) (p f : ExtendedPoint.point) (m : Z) (Af : Z * Z),
    (w + count <= total)%nat ->
    0 <= n -> n * 2 ^ W <= 2 ^ (W * Z.of_nat count) ->
    repr p (smul m A) -> repr f Af -> inSubgroup Af ->
    exists (p' f' : ExtendedPoint.point) (Af' : Z * Z),
      ExtendedPoint.wNAF_loop count (Z.of_nat w) W pre n p f = Ok (p', f')
      /\ repr p' (smul (m + n * 2 ^ (W * Z.of_nat w)) A)
      /\ repr f' Af' /\ inSubgroup Af'.
Proof.
  pose proof (windowSize_pos W W_pos) as Hws.
  pose proof (windowSize_double W W_pos) as Hwd.
  pose proof (inSubgroup_isPoint A A_sub) as HA.
  induction count as [ | count IH ]; intros w n p f m Af Hw Hn Hbound Hp Hf HAf.
  - exists p, f, Af. cbn [ExtendedPoint.wNAF_loop].
    assert (n = 0) as ->.
    { rewrite Z.mul_0_r, Z.pow_0_r in Hbound. nia. }
    rewrite Z.mul_0_l, Z.add_0_r. auto.
  - cbn [ExtendedPoint.wNAF_loop]. cbv zeta.
    unfold Ints.bitwiseAnd, Ints.signedRightShift, Ints.add.
    replace (2 ^ W - 1) with (Z.ones W) by (rewrite Z.ones_equiv; lia).
    rewrite Z.land_ones, Z.shiftr_div_pow2 by lia.
    assert (H2W : 0 < 2 ^ W) by (apply Z.pow_pos_nonneg; lia).
    pose proof (Z.div_mod n (2 ^ W) ltac:(lia)) as Hdm.
    pose proof (Z.mod_pos_bound n (2 ^ W) H2W) as Hr.
    assert (Hq : 0 <= n / 2 ^ W) by (apply Z.div_pos; lia).
    set (q := n / 2 ^ W) in *. set (r := n mod 2 ^ W) in *.
    assert (Hpow : 2 ^ (W * Z.of_nat (S count)) = 2 ^ W * 2 ^ (W * Z.of_nat count)).
    { rewrite <- Z.pow_add_r by lia. f_equal. lia. }
    assert (Hpow' : 2 ^ (W * Z.of_nat (S w)) = 2 ^ W * 2 ^ (W * Z.of_nat w)).
    { rewrite <- Z.pow_add_r by lia. f_equal. lia. }
    assert (HK : 0 < 2 ^ (W * Z.of_nat count)) by (apply Z.pow_pos_nonneg; lia).
    assert (Hnle : n <= 2 ^ (W * Z.of_nat count)) by nia.
    replace (Z.of_nat w + 1) with (Z.of_nat (S w)) by lia.
    rewrite Z.gtb_ltb.
    destruct (Z.ltb_spec (2 ^ (W - 1)) r) as [Hcarry | Hnocarry].
    + (* the digit is negative, with a carry *)
      destruct (Z.eqb_spec (r - 2 ^ W) 0) as [ | _ ]; [ lia | ].
      destruct (Z.ltb_spec (r - 2 ^ W) 0) as [ _ | ]; [ | lia ].
      replace (Z.of_nat w * 2 ^ (W - 1) + Z.abs (r - 2 ^ W) - 1)
        with (Z.of_nat w * 2 ^ (W - 1) + (2 ^ W - r - 1)) by lia.
      destruct (lookup_table w (2 ^ W - r - 1)) as (e & He & Hre); [ lia | lia | ].
      rewrite He. cbn [rbind].
      assert (Hcount : count <> O).
      { intros ->. rewrite Z.mul_0_r, Z.pow_0_r in Hnle.
        assert (n = r) by (unfold r; symmetry; apply Z.mod_small; lia). lia. }
      assert (Hp' : repr (ExtendedPoint.add p (ExtendedPoint.negate e))
                         (smul (m + (r - 2 ^ W) * 2 ^ (W * Z.of_nat w)) A)).
      { rewrite smul_add by exact HA.
        apply add_correct_subgroup; try assumption; try (apply inSubgroup_smul, A_sub).
        replace ((r - 2 ^ W) * 2 ^ (W * Z.of_nat w))
          with (- ((2 ^ W - r - 1 + 1) * 2 ^ (W * Z.of_nat w))) by ring.
        rewrite smul_neg by exact HA. apply negate_correct, Hre. }
      destruct (IH (S w) (q + 1) (ExtendedPoint.add p (ExtendedPoint.negate e)) f
                  (m + (r - 2 ^ W) * 2 ^ (W * Z.of_nat w)) Af) as (p' & f' & Af' & E & Hp'' & Hf');
        try assumption; try lia.
      { (* the carry fits *)
        destruct count as [ | c ]; [ contradiction | ].
        assert (Hc : 2 ^ (W * Z.of_nat (S c)) = 2 ^ W * 2 ^ (W * Z.of_nat c)).
        { rewrite <- Z.pow_add_r by lia. f_equal. lia. }
        rewrite Hc in Hnle |- *. clear Hpow Hbound IH Hc.
        set (K := 2 ^ (W * Z.of_nat c)) in *.
        assert (HqK : q < K).
        { apply (Z.mul_lt_mono_pos_l (2 ^ W)); [ exact H2W | lia ]. }
        rewrite (Z.mul_comm (q + 1)). apply Z.mul_le_mono_nonneg_l; lia. }
      exists p', f', Af'. split; [ exact E | split; [ | exact Hf' ] ].
      replace (m + n * 2 ^ (W * Z.of_nat w))
        with (m + (r - 2 ^ W) * 2 ^ (W * Z.of_nat w) + (q + 1) * 2 ^ (W * Z.of_nat (S w)))
        by (rewrite Hpow', Hdm; ring).
      exact Hp''.
    + destruct (Z.eqb_spec r 0) as [Hr0 | Hr0].
      * (* a zero digit: the fake point absorbs an addition *)
        replace (Z.of_nat w * 2 ^ (W - 1)) with (Z.of_nat w * 2 ^ (W - 1) + 0) by lia.
        destruct (lookup_table w 0) as (e & He & Hre); [ lia | lia | ].
        rewrite He. cbn [rbind].
        assert (HS : inSubgroup (smul ((0 + 1) * 2 ^ (W * Z.of_nat w)) A))
          by apply inSubgroup_smul, A_sub.
        set (f1 := ExtendedPoint.add f
                        (if negb (Z.rem (Z.of_nat w) 2 =? 0)
                         then ExtendedPoint.negate e else e)).
        assert (Hf' : exists Af', repr f1 Af' /\ inSubgroup Af').
        { unfold f1. destruct (negb (Z.rem (Z.of_nat w) 2 =? 0)).
          - eexists. split.
            + apply add_correct_subgroup; [ exact HAf | | exact Hf | apply negate_correct, Hre ].
              apply inSubgroup_eneg, HS.
            + apply inSubgroup_eadd; [ exact HAf | apply inSubgroup_eneg, HS ].
          - eexists. split.
            + apply add_correct_subgroup; [ exact HAf | | exact Hf | exact Hre ].
              exact HS.
            + apply inSubgroup_eadd; [ exact HAf | exact HS ]. }
        destruct Hf' as (Af1 & Hf1 & HAf1).
        destruct (IH (S w) q p f1 m Af1) as (p' & f' & Af' & E & Hp'' & Hf');
          try assumption; try lia.
        exists p', f', Af'. split; [ exact E | split; [ | exact Hf' ] ].
        replace (m + n * 2 ^ (W * Z.of_nat w))
          with (m + q * 2 ^ (W * Z.of_nat (S w))) by (rewrite Hpow', Hdm, Hr0; ring).
        exact Hp''.
      * (* a positive digit *)
        destruct (Z.ltb_spec r 0) as [ | _ ]; [ lia | ].
        replace (Z.of_nat w * 2 ^ (W - 1) + Z.abs r - 1)
          with (Z.of_nat w * 2 ^ (W - 1) + (r - 1)) by lia.
        destruct (lookup_table w (r - 1)) as (e & He & Hre); [ lia | lia | ].
        rewrite He. cbn [rbind].
        assert (Hp' : repr (ExtendedPoint.add p e)
                           (smul (m + r * 2 ^ (W * Z.of_nat w)) A)).
        { rewrite smul_add by exact HA.
          apply add_correct_subgroup; try assumption; try (apply inSubgroup_smul, A_sub).
          replace (r * 2 ^ (W * Z.of_nat w))
            with ((r - 1 + 1) * 2 ^ (W * Z.of_nat w)) by ring.
          exact Hre. }
        destruct (IH (S w) q (ExtendedPoint.add p e) f
                    (m + r * 2 ^ (W * Z.of_nat w)) Af) as (p' & f' & Af' & E & Hp'' & Hf');
          try assumption; try lia.
        exists p', f', Af'. split; [ exact E | split; [ | exact Hf' ] ].
        replace (m + n * 2 ^ (W * Z.of_nat w))
          with (m + r * 2 ^ (W * Z.of_nat w) + q * 2 ^ (W * Z.of_nat (S w)))
          by (rewrite Hpow', Hdm; ring).
        exact Hp''.
Qed.

End WNAF.

(** ** [wNAF] and [multiply] on the heap *)

(** The window size in force for the object [r]. *)
Definition windowOf (h : ExtendedPoint.Heap) (r : ref) : Z :=
  match assoc_get r (ExtendedPoint.WINDOW_SIZE h) with
  | Some w => if (w =? 0)%N then 1 else Z.of_N w
  | None => 1
  end.

(** The state of the object [r], whose coordinates are [A]: its window
    size divides 256 and its cached table, if any, is a table of
    multiples of [A] for that window size. *)
Definition cacheOK (h : ExtendedPoint.Heap) (r : ref) (A : Z * Z) : Prop :=
  Z.rem 256 (windowOf h r) = 0 /\
  match assoc_get r (ExtendedPoint.pointPrecomputes h) with
  | None => True
  | Some pre =>
      Forall2 repr pre
        (tableSpec (Z.to_nat (ExtendedPoint.windowCount (windowOf h r))) (windowOf h r) A)
  end.

(** What an operation on the object [r] may change: it allocates [alloc]
    objects and may fill the cache of [r]. *)
Definition heapAfter (r : ref) (A : Z * Z) (alloc : nat) (h h' : ExtendedPoint.Heap) : Prop :=
  ExtendedPoint.next_ref h' = (ExtendedPoint.next_ref h + alloc)%nat
  /\ ExtendedPoint.WINDOW_SIZE h' = ExtendedPoint.WINDOW_SIZE h
  /\ (forall r', r' <> r ->
        assoc_get r' (ExtendedPoint.pointPrecomputes h')
        = assoc_get r' (ExtendedPoint.pointPrecomputes h))
  /\ cacheOK h' r A.

Definition scalarValue (k : NumOrBig) : Z :=
  match k with Num v => v | Big v => v end.

Lemma assoc_get_delete_other {V : Type} (k k' : ref) (m : list (ref * V)) :
  k' <> k -> assoc_get k' (assoc_delete k m) = assoc_get k' m.
Proof.
  intros Hne. induction m as [ | [k0 v] m IH ]; [ reflexivity | ].
  cbn [assoc_delete filter fst assoc_get].
  destruct (Nat.eqb_spec k k0) as [-> | Hk]; cbn [negb].
  - destruct (Nat.eqb_spec k' k0); [ contradiction | exact IH ].
  - cbn [assoc_get]. destruct (Nat.eqb k' k0); [ reflexivity | exact IH ].
Qed.

Lemma assoc_get_set_same {V : Type} (k : ref) (v : V) (m : list (ref * V)) :
  assoc_get k (assoc_set k v m) = Some v.
Proof. cbn. now rewrite Nat.eqb_refl. Qed.

Lemma assoc_get_set_other {V : Type} (k k' : ref) (v : V) (m : list (ref * V)) :
  k' <> k -> assoc_get k' (assoc_set k v m) = assoc_get k' m.
Proof.
  intros Hne. unfold assoc_set. cbn [assoc_get].
  destruct (Nat.eqb_spec k' k); [ contradiction | ].
  apply assoc_get_delete_other, Hne.
Qed.

Lemma windowOf_pos (h : ExtendedPoint.Heap) (r : ref) : 1 <= windowOf h r.
Proof.
  unfold windowOf. destruct (assoc_get r (ExtendedPoint.WINDOW_SIZE h)) as [w | ]; [ | lia ].
  destruct (N.eqb_spec w 0); lia.
Qed.

Lemma window_divides (W : Z) : 1 <= W -> Z.rem 256 W = 0 -> W * (256 / W + 1) = 256 + W.
Proof.
  intros HW Hrem. rewrite Z.rem_mod_nonneg in Hrem by lia.
  pose proof (Z.div_mod 256 W ltac:(lia)) as H. rewrite Hrem in H. lia.
Qed.

Lemma windowCount_divides (W : Z) :
  Z.rem 256 W = 0 -> ExtendedPoint.windowCount W = 256 / W + 1.
Proof. intros H. unfold ExtendedPoint.windowCount. now rewrite H. Qed.

Lemma order_bound : CURVE.n < 2 ^ 256.
Proof. vm_compute. reflexivity. Qed.

Lemma wNAF_correct (e : ExtendedPoint.point) (A : Z * Z) (n : Z) (r : ref)
      (h : ExtendedPoint.Heap) :
  inSubgroup A -> repr e A -> 0 <= n < CURVE.n -> cacheOK h r A ->
  exists (p f : ExtendedPoint.point) (Af : Z * Z) (h' : ExtendedPoint.Heap),
    ExtendedPoint.wNAF JSBI e n (Some r) h = (Ok (p, f), h')
    /\ repr p (smul n A) /\ repr f Af /\ inSubgroup Af
    /\ heapAfter r A 0 h h'.
Proof.
  intros HA He Hn [Hrem Hcache].
  pose proof (windowOf_pos h r) as HW.
  pose proof (window_divides _ HW Hrem) as Hdiv.
  pose proof (windowCount_divides _ Hrem) as Hcount.
  assert (Hloop : forall pre,
             Forall2 repr pre
               (tableSpec (Z.to_nat (ExtendedPoint.windowCount (windowOf h r)))
                  (windowOf h r) A) ->
             exists p f Af,
               ExtendedPoint.wNAF_loop (Z.to_nat (256 / windowOf h r + 1)) 0 (windowOf h r)
                 pre n ExtendedPoint.ZERO ExtendedPoint.ZERO = Ok (p, f)
               /\ repr p (smul n A) /\ repr f Af /\ inSubgroup Af).
  { intros pre Hpre.
    assert (Hq : 0 <= 256 / windowOf h r) by (apply Z.div_pos; lia).
    destruct (wNAF_loop_correct (windowOf h r) HW A HA _ pre Hpre
                (Z.to_nat (256 / windowOf h r + 1)) 0%nat n
                ExtendedPoint.ZERO ExtendedPoint.ZERO 0 ezero)
      as (p & f & Af & E & Hp & Hf & HAf).
    - rewrite Hcount. lia.
    - lia.
    - rewrite Z2Nat.id by lia. rewrite Hdiv, Z.pow_add_r by lia.
      apply Z.mul_le_mono_nonneg_r; [ apply Z.pow_nonneg; lia | ].
      pose proof order_bound. lia.
    - exact repr_ZERO.
    - exact repr_ZERO.
    - exact inSubgroup_ezero.
    - exists p, f, Af. cbn [Z.of_nat] in *. rewrite Z.mul_0_r, Z.pow_0_r, Z.mul_1_r in Hp.
      cbn [Z.add] in Hp. auto. }
  unfold ExtendedPoint.wNAF, bind, ExtendedPoint.getWindowSize, ExtendedPoint.getPrecomputes,
    gets, ret, lift, throw.
  fold (windowOf h r). rewrite Hrem. cbn [Z.eqb negb].
  destruct (assoc_get r (ExtendedPoint.pointPrecomputes h)) as [pre | ] eqn:Ecache.
  - (* the cached table is used *)
    destruct (Hloop pre Hcache) as (p & f & Af & E & Hp & Hf & HAf).
    exists p, f, Af, h. rewrite E. split; [ reflexivity | ].
    split; [ exact Hp | split; [ exact Hf | split; [ exact HAf | ] ] ].
    split; [ lia | split; [ reflexivity | split; [ reflexivity | ] ] ].
    split; [ exact Hrem | rewrite Ecache; exact Hcache ].
  - pose proof (precomputeWindow_correct (windowOf h r) e A HW HA He) as Hpre.
    destruct (Z.eqb_spec (windowOf h r) 1) as [HW1 | HW1]; cbn [negb].
    + (* window size 1: the table is not stored *)
      destruct (Hloop _ Hpre) as (p & f & Af & E & Hp & Hf & HAf).
      exists p, f, Af, h. rewrite E. split; [ reflexivity | ].
      split; [ exact Hp | split; [ exact Hf | split; [ exact HAf | ] ] ].
      split; [ lia | split; [ reflexivity | split; [ reflexivity | ] ] ].
      split; [ exact Hrem | rewrite Ecache; exact I ].
    + (* the table is normalised and stored *)
      pose proof (tableSpec_inSubgroup (windowOf h r)
                    (Z.to_nat (ExtendedPoint.windowCount (windowOf h r))) A HA) as Hsub.
      rewrite (normalizeZ_correct _ _ Hpre)
        by (apply Forall_impl with (2 := Hsub); apply inSubgroup_isPoint).
      unfold ExtendedPoint.setPrecomputes, modify.
      destruct (Hloop _ (Forall2_repr_affineExt _)) as (p & f & Af & E & Hp & Hf & HAf).
      eexists p, f, Af, _. rewrite E. split; [ reflexivity | ].
      split; [ exact Hp | split; [ exact Hf | split; [ exact HAf | ] ] ].
      split; [ cbn; lia | split; [ reflexivity | split ] ].
      * intros r' Hr'. cbn [ExtendedPoint.pointPrecomputes].
        apply assoc_get_set_other, Hr'.
      * split; [ exact Hrem | ].
        cbn [ExtendedPoint.pointPrecomputes]. rewrite assoc_get_set_same.
        apply Forall2_repr_affineExt.
Qed.

Lemma scalar_mod_range (s : Z) : 0 <= math.mod_ s CURVE.n < CURVE.n.
Proof.
  rewrite mod__spec by (vm_compute; reflexivity).
  apply Z.mod_pos_bound. vm_compute. reflexivity.
Qed.

Lemma ExtendedPoint_multiply_correct (e : ExtendedPoint.point) (A : Z * Z)
      (k : NumOrBig) (r : ref) (h : ExtendedPoint.Heap) :
  inSubgroup A -> repr e A -> serializer.isValidScalar k = true -> cacheOK h r A ->
  exists h' : ExtendedPoint.Heap,
    ExtendedPoint.multiply JSBI e k (Some r) h
    = (Ok (affineExt (smul (scalarValue k mod CURVE.n) A)), h')
    /\ heapAfter r A 0 h h'.
Proof.
  intros HA He Hk Hc. unfold ExtendedPoint.multiply. rewrite Hk. cbn [negb].
  fold (scalarValue k).
  destruct (wNAF_correct e A (math.mod_ (scalarValue k) CURVE.n) r h HA He
              (scalar_mod_range _) Hc) as (p & f & Af & h' & E & Hp & Hf & HAf & Hh).
  exists h'. unfold bind. rewrite E. cbn [fst snd]. unfold lift.
  rewrite (normalizeZ_correct [p; f] [smul (math.mod_ (scalarValue k) CURVE.n) A; Af]).
  - cbn [map]. unfold ret. rewrite mod__spec by (vm_compute; reflexivity).
    split; [ reflexivity | exact Hh ].
  - apply Forall2_cons; [ exact Hp | apply Forall2_cons; [ exact Hf | apply Forall2_nil ] ].
  - apply Forall_cons; [ apply isPoint_smul, HA | ].
    apply Forall_cons; [ apply HAf | apply Forall_nil ].
Qed.

(** The coordinates of an affine point object, and the object with given
    coordinates and identity. *)
Definition coords (P : Point.point) : Z * Z := (Point.x P, Point.y P).

Definition pointOf (A : Z * Z) (r : ref) : Point.point := Point.mk (fst A) (snd A) r.

Lemma coords_pointOf (A : Z * Z) (r : ref) : coords (pointOf A r) = A.
Proof. destruct A. reflexivity. Qed.

Lemma oid_pointOf (A : Z * Z) (r : ref) : Point.oid (pointOf A r) = r.
Proof. reflexivity. Qed.

(** [Point.multiply] on a point of the subgroup returns a new object
    holding the multiple by the scalar modulo the group order. *)
Lemma Point_multiply_correct (P : Point.point) (k : NumOrBig) (h : ExtendedPoint.Heap) :
  inSubgroup (coords P) ->
  serializer.isValidScalar k = true ->
  cacheOK h (Point.oid P) (coords P) ->
  exists h' : ExtendedPoint.Heap,
    Point.multiply JSBI P k h
    = (Ok (pointOf (smul (scalarValue k mod CURVE.n) (coords P)) (ExtendedPoint.next_ref h)),
       h')
    /\ heapAfter (Point.oid P) (coords P) 1 h h'.
Proof.
  intros HA Hk Hc. set (A := coords P) in *.
  unfold Point.multiply, bind at 1, lift at 1.
  change (Point.asObject P) with (ExtendedPoint.affineObject A).
  rewrite (fromAffine_JSBI_point A) by apply HA.
  destruct (ExtendedPoint_multiply_correct (affineExt A) A k (Point.oid P) h HA
              (repr_affineExt A) Hk Hc) as (h' & E & Hnext & Hws & Hframe & Hc').
  unfold bind at 1. rewrite E.
  unfold bind, lift.
  rewrite (toAffine_correct _ (smul (scalarValue k mod CURVE.n) A)).
  - unfold Point.new, pointOf. rewrite Hnext, Nat.add_0_r.
    eexists. split; [ reflexivity | ].
    split; [ cbn; lia | split; [ exact Hws | split; [ exact Hframe | ] ] ].
    destruct Hc' as [Hrem Hcache]. split; [ exact Hrem | exact Hcache ].
  - apply (isPoint_smul _ A), HA.
  - apply repr_affineExt.
Qed.

(** ** The laws of scalar multiplication, as programs *)

(** [(a + b) * P == a * P + b * P] *)
Definition law_add_scalars (be : Backend) (P : Point.point) (a b : Z)
  : M ExtendedPoint.Heap bool :=
  (lhs <- Point.multiply be P (Big (a + b)) ;;
   aP <- Point.multiply be P (Big a) ;;
   bP <- Point.multiply be P (Big b) ;;
   rhs <- Point.add be aP bP ;;
   ret (Point.equals lhs rhs))%heap.

(** [a * (b * P) == (a * b mod l) * P] *)
Definition law_mul_scalars (be : Backend) (P : Point.point) (a b : Z)
  : M ExtendedPoint.Heap bool :=
  (bP <- Point.multiply be P (Big b) ;;
   lhs <- Point.multiply be bP (Big a) ;;
   rhs <- Point.multiply be P (Big (math.mod_ (a * b) CURVE.n)) ;;
   ret (Point.equals lhs rhs))%heap.

(** [1 * P == P] *)
Definition law_one (be : Backend) (P : Point.point) : M ExtendedPoint.Heap bool :=
  (lhs <- Point.multiply be P (Big 1) ;;
   ret (Point.equals lhs P))%heap.

(** [l * P == ZERO] *)
Definition law_order (be : Backend) (P : Point.point) : M ExtendedPoint.Heap bool :=
  (lhs <- Point.multiply be P (Big CURVE.n) ;;
   ret (Point.equals lhs Point.ZERO))%heap.

Section Laws.

Lemma Point_add_correct (P Q : Point.point) (h : ExtendedPoint.Heap) :
  inSubgroup (coords P) -> inSubgroup (coords Q) ->
  Point.add JSBI P Q h
  = (Ok (pointOf (eadd (coords P) (coords Q)) (ExtendedPoint.next_ref h)),
     {| ExtendedPoint.next_ref := S (ExtendedPoint.next_ref h);
        ExtendedPoint.WINDOW_SIZE := ExtendedPoint.WINDOW_SIZE h;
        ExtendedPoint.pointPrecomputes := ExtendedPoint.pointPrecomputes h |}).
Proof.
  intros HP HQ. unfold Point.add, bind, lift.
  change (Point.asObject P) with (ExtendedPoint.affineObject (coords P)).
  change (Point.asObject Q) with (ExtendedPoint.affineObject (coords Q)).
  rewrite (fromAffine_JSBI_point (coords P)) by apply HP.
  rewrite (fromAffine_JSBI_point (coords Q)) by apply HQ.
  rewrite (toAffine_correct _ (eadd (coords P) (coords Q))).
  - reflexivity.
  - apply eadd_reduced.
  - apply add_correct_subgroup; try assumption; apply repr_affineExt.
Qed.

Lemma Point_equals_coords (P Q : Point.point) :
  coords P = coords Q -> Point.equals P Q = true.
Proof.
  unfold coords, Point.equals, Ints.equal. intros E. inversion E as [[Ex Ey]].
  now rewrite !Z.eqb_refl.
Qed.

Lemma cacheOK_frame (h h' : ExtendedPoint.Heap) (r : ref) (A : Z * Z) :
  ExtendedPoint.WINDOW_SIZE h' = ExtendedPoint.WINDOW_SIZE h ->
  assoc_get r (ExtendedPoint.pointPrecomputes h')
  = assoc_get r (ExtendedPoint.pointPrecomputes h) ->
  cacheOK h r A -> cacheOK h' r A.
Proof.
  intros Hws Hpp. unfold cacheOK, windowOf. rewrite Hws, Hpp. auto.
Qed.

Lemma cacheOK_fresh (h : ExtendedPoint.Heap) (r : ref) (A : Z * Z) :
  assoc_get r (ExtendedPoint.WINDOW_SIZE h) = None ->
  assoc_get r (ExtendedPoint.pointPrecomputes h) = None ->
  cacheOK h r A.
Proof.
  intros Hws Hpp. unfold cacheOK, windowOf. rewrite Hws, Hpp. split; [ reflexivity | exact I ].
Qed.

Lemma Big_valid (k : Z) : 0 < k -> serializer.isValidScalar (Big k) = true.
Proof. intros Hk. cbn. unfold Ints.greaterThan. rewrite Z.gtb_ltb. now apply Z.ltb_lt. Qed.

Lemma order_pos : 0 < CURVE.n.
Proof. reflexivity. Qed.

Variable P : Point.point.
Variable h : ExtendedPoint.Heap.
Hypothesis P_sub : inSubgroup (coords P).
Hypothesis P_cache : cacheOK h (Point.oid P) (coords P).

Lemma law_add_scalars_holds (a b : Z) :
  0 < a -> 0 < b -> fst (law_add_scalars JSBI P a b h) = Ok true.
Proof.
  intros Ha Hb. unfold law_add_scalars.
  destruct (Point_multiply_correct P (Big (a + b)) h P_sub (Big_valid (a + b) ltac:(lia))
              P_cache) as (h1 & E1 & _ & _ & _ & Hc1).
  destruct (Point_multiply_correct P (Big a) h1 P_sub (Big_valid _ Ha) Hc1)
    as (h2 & E2 & _ & _ & _ & Hc2).
  destruct (Point_multiply_correct P (Big b) h2 P_sub (Big_valid _ Hb) Hc2)
    as (h3 & E3 & _ & _ & _ & Hc3).
  unfold bind at 1. rewrite E1. unfold bind at 1. rewrite E2.
  unfold bind at 1. rewrite E3. unfold bind at 1.
  cbn [scalarValue].
  rewrite !smul_mod_order by exact P_sub.
  set (aP := pointOf (smul a (coords P)) (ExtendedPoint.next_ref h1)).
  set (bP := pointOf (smul b (coords P)) (ExtendedPoint.next_ref h2)).
  assert (HaP : inSubgroup (coords aP)).
  { unfold aP. rewrite coords_pointOf. apply inSubgroup_smul, P_sub. }
  assert (HbP : inSubgroup (coords bP)).
  { unfold bP. rewrite coords_pointOf. apply inSubgroup_smul, P_sub. }
  rewrite (Point_add_correct aP bP h3 HaP HbP).
  unfold ret. cbn [fst]. apply f_equal.
  apply Point_equals_coords. unfold aP, bP. rewrite !coords_pointOf.
  apply smul_add, P_sub.
Qed.

Lemma law_one_holds : fst (law_one JSBI P h) = Ok true.
Proof.
  unfold law_one.
  destruct (Point_multiply_correct P (Big 1) h P_sub (Big_valid 1 ltac:(lia)) P_cache)
    as (h1 & E1 & _).
  unfold bind at 1. rewrite E1. unfold ret. cbn [fst]. apply f_equal.
  apply Point_equals_coords. rewrite coords_pointOf. cbn [scalarValue].
  rewrite smul_mod_order by exact P_sub. apply smul_1.
Qed.

Lemma law_order_holds : fst (law_order JSBI P h) = Ok true.
Proof.
  unfold law_order.
  destruct (Point_multiply_correct P (Big CURVE.n) h P_sub (Big_valid _ order_pos) P_cache)
    as (h1 & E1 & _).
  unfold bind at 1. rewrite E1. unfold ret. cbn [fst]. apply f_equal.
  apply Point_equals_coords. rewrite coords_pointOf. cbn [scalarValue].
  rewrite Z.mod_same by discriminate. reflexivity.
Qed.

Hypothesis P_allocated : (Point.oid P < ExtendedPoint.next_ref h)%nat.
Hypothesis next_no_window :
  assoc_get (ExtendedPoint.next_ref h) (ExtendedPoint.WINDOW_SIZE h) = None.
Hypothesis next_no_cache :
  assoc_get (ExtendedPoint.next_ref h) (ExtendedPoint.pointPrecomputes h) = None.

Lemma law_mul_scalars_holds (a b : Z) :
  0 < a -> 0 < b -> (a * b) mod CURVE.n <> 0 ->
  fst (law_mul_scalars JSBI P a b h) = Ok true.
Proof.
  intros Ha Hb Hab. unfold law_mul_scalars.
  destruct (Point_multiply_correct P (Big b) h P_sub (Big_valid _ Hb) P_cache)
    as (h1 & E1 & Hn1 & Hw1 & Hf1 & Hc1).
  unfold bind at 1. rewrite E1. cbn [scalarValue].
  rewrite smul_mod_order by exact P_sub.
  set (B := smul b (coords P)).
  assert (HB : inSubgroup B) by apply inSubgroup_smul, P_sub.
  set (bP := pointOf B (ExtendedPoint.next_ref h)).
  assert (HbP : coords bP = B) by apply coords_pointOf.
  assert (Hne : ExtendedPoint.next_ref h <> Point.oid P) by lia.
  assert (HcB : cacheOK h1 (Point.oid bP) (coords bP)).
  { apply cacheOK_fresh; unfold bP; rewrite oid_pointOf.
    - rewrite Hw1. exact next_no_window.
    - rewrite Hf1 by exact Hne. exact next_no_cache. }
  assert (HBsub : inSubgroup (coords bP)) by (rewrite HbP; exact HB).
  destruct (Point_multiply_correct bP (Big a) h1 HBsub (Big_valid _ Ha) HcB)
    as (h2 & E2 & Hn2 & Hw2 & Hf2 & Hc2).
  unfold bind at 1. rewrite E2. cbn [scalarValue].
  assert (HcP : cacheOK h2 (Point.oid P) (coords P)).
  { apply (cacheOK_frame h1); [ exact Hw2 | | exact Hc1 ].
    apply Hf2. unfold bP. rewrite oid_pointOf. lia. }
  assert (Hpos : 0 < math.mod_ (a * b) CURVE.n).
  { rewrite mod__spec by exact order_pos.
    pose proof (Z.mod_pos_bound (a * b) CURVE.n order_pos). lia. }
  destruct (Point_multiply_correct P (Big (math.mod_ (a * b) CURVE.n)) h2 P_sub
              (Big_valid _ Hpos) HcP) as (h3 & E3 & _).
  unfold bind at 1. rewrite E3. unfold ret. cbn [fst scalarValue]. apply f_equal.
  apply Point_equals_coords. rewrite !coords_pointOf, HbP.
  rewrite mod__spec by exact order_pos.
  rewrite (smul_mod_order a B HB).
  rewrite !smul_mod_order by exact P_sub.
  unfold B. symmetry. rewrite Z.mul_comm. rewrite Z.mul_comm. apply smul_mul, P_sub.
Qed.

End Laws.



(** ** [multiplyUnsafe]: double-and-add *)

Lemma multiplyUnsafe_loop_correct (n : positive) :
  forall (p d : ExtendedPoint.point) (Pa D : Z * Z),
    inSubgroup Pa -> inSubgroup D -> repr p Pa -> repr d D ->
    repr (ExtendedPoint.multiplyUnsafe_loop n p d) (eadd Pa (smul (Z.pos n) D)).
Proof.
  induction n as [ n IH | n IH | ]; intros p d Pa D HPa HD Hp Hd;
    cbn [ExtendedPoint.multiplyUnsafe_loop].
  - pose proof (inSubgroup_isPoint _ HPa) as HPa'.
    pose proof (inSubgroup_isPoint _ HD) as HD'.
    replace (Z.pos n~1) with (1 + Z.pos n * 2) by lia.
    rewrite smul_add, smul_1, smul_mul by exact HD'.
    rewrite <- eadd_assoc;
      [ | apply HPa' | apply HD' | apply (isPoint_smul _ _ (isPoint_smul 2 D HD')) ].
    apply IH.
    + apply inSubgroup_eadd; assumption.
    + apply inSubgroup_smul, HD.
    + apply add_correct_subgroup; assumption.
    + change (smul 2 D) with (eadd D D). apply double_correct_subgroup; assumption.
  - pose proof (inSubgroup_isPoint _ HD) as HD'.
    replace (Z.pos n~0) with (Z.pos n * 2) by lia.
    rewrite smul_mul by exact HD'.
    apply IH; try assumption.
    + apply inSubgroup_smul, HD.
    + change (smul 2 D) with (eadd D D). apply double_correct_subgroup; assumption.
  - apply add_correct_subgroup; assumption.
Qed.

Lemma multiplyUnsafe_correct (e : ExtendedPoint.point) (A : Z * Z) (k : Z) :
  inSubgroup A -> repr e A -> 0 < k ->
  exists e' : ExtendedPoint.point,
    ExtendedPoint.multiplyUnsafe e k = Ok e' /\ repr e' (smul (k mod CURVE.n) A).
Proof.
  intros HA He Hk. unfold ExtendedPoint.multiplyUnsafe.
  rewrite (Big_valid k Hk). cbn [negb].
  rewrite mod__spec by exact order_pos.
  pose proof (Z.mod_pos_bound k CURVE.n order_pos) as Hn.
  unfold Ints.equal. destruct (Z.eqb_spec (k mod CURVE.n) 1) as [E1 | _].
  - exists e. rewrite E1. split; [ reflexivity | exact He ].
  - destruct (k mod CURVE.n) as [ | n | n ] eqn:En.
    + exists ExtendedPoint.ZERO. split; [ reflexivity | exact repr_ZERO ].
    + eexists. split; [ reflexivity | ].
      rewrite <- (eadd_zero_l (smul (Z.pos n) A))
        by apply (isPoint_smul _ _ (inSubgroup_isPoint _ HA)).
      apply multiplyUnsafe_loop_correct;
        [ exact inSubgroup_ezero | exact HA | exact repr_ZERO | destruct e; exact He ].
    + lia.
Qed.

(** ** Window sizes *)

Lemma assoc_get_delete_same {V : Type} (k : ref) (m : list (ref * V)) :
  assoc_get k (assoc_delete k m) = None.
Proof.
  induction m as [ | [k0 v] m IH ]; [ reflexivity | ].
  cbn [assoc_delete filter fst]. destruct (Nat.eqb_spec k k0) as [-> | Hk]; cbn [negb].
  - exact IH.
  - cbn [assoc_get]. destruct (Nat.eqb_spec k k0); [ contradiction | exact IH ].
Qed.

(** The window size [_setWindowSize] puts in force: 0 counts as unset. *)
Definition windowValue (w : N) : Z := if (w =? 0)%N then 1 else Z.of_N w.

Lemma setWindowSize_heap (P : Point.point) (w : N) (h : ExtendedPoint.Heap) :
  exists h' : ExtendedPoint.Heap,
    Point._setWindowSize P w h = (Ok tt, h')
    /\ windowOf h' (Point.oid P) = windowValue w
    /\ assoc_get (Point.oid P) (ExtendedPoint.pointPrecomputes h') = None
    /\ ExtendedPoint.next_ref h' = ExtendedPoint.next_ref h.
Proof.
  eexists. split; [ reflexivity | ].
  cbn [ExtendedPoint.WINDOW_SIZE ExtendedPoint.pointPrecomputes ExtendedPoint.next_ref
       snd]. unfold windowOf.
  cbn [ExtendedPoint.WINDOW_SIZE ExtendedPoint.pointPrecomputes ExtendedPoint.next_ref].
  rewrite assoc_get_set_same, assoc_get_delete_same. auto.
Qed.

Lemma setWindowSize_cacheOK (P : Point.point) (w : N) (h h' : ExtendedPoint.Heap) (A : Z * Z) :
  Z.rem 256 (windowValue w) = 0 ->
  Point._setWindowSize P w h = (Ok tt, h') ->
  cacheOK h' (Point.oid P) A.
Proof.
  intros Hw E. destruct (setWindowSize_heap P w h) as (h1 & E1 & HW & Hc & _).
  rewrite E in E1. inversion E1; subst h1.
  unfold cacheOK. rewrite HW, Hc. split; [ exact Hw | exact I ].
Qed.

(** X16.  A window size that does not divide 256 makes [multiply] throw, and
    the heap is left as it was. *)
Theorem Point_multiply_rejects_bad_window (P : Point.point) (k : NumOrBig) (h : ExtendedPoint.Heap) :
  onCurve (coords P) ->
  serializer.isValidScalar k = true ->
  Z.rem 256 (windowOf h (Point.oid P)) <> 0 ->
  Point.multiply JSBI P k h
  = (Throw (Error "Point#wNAF: Invalid precomputation window, must be power of 2"%string), h).
Proof.
  intros HP Hk HW. unfold Point.multiply, bind at 1, lift at 1.
  change (Point.asObject P) with (ExtendedPoint.affineObject (coords P)).
  rewrite (fromAffine_JSBI_point (coords P) HP).
  unfold bind at 1. unfold ExtendedPoint.multiply. rewrite Hk. cbn [negb].
  unfold bind at 1. unfold ExtendedPoint.wNAF, bind at 1, ExtendedPoint.getWindowSize, gets.
  fold (windowOf h (Point.oid P)).
  destruct (Z.eqb_spec (Z.rem 256 (windowOf h (Point.oid P))) 0) as [E | _];
    [ contradiction | ].
  reflexivity.
Qed.

(** ** Byte strings and numbers *)

Lemma valueLE_cons (b : byte) (l : bytes) : valueLE (b :: l) = b2z b + 256 * valueLE l.
Proof. reflexivity. Qed.

Lemma valueLE_app (l1 l2 : bytes) :
  valueLE (l1 ++ l2) = valueLE l1 + 256 ^ Z.of_nat (List.length l1) * valueLE l2.
Proof.
  induction l1 as [ | b l1 IH ].
  - cbn [app List.length Z.of_nat]. change (valueLE []) with 0.
    rewrite Z.pow_0_r. lia.
  - cbn [app List.length]. rewrite !valueLE_cons, IH, Nat2Z.inj_succ, Z.pow_succ_r by lia.
    lia.
Qed.

Lemma valueLE_range (l : bytes) : 0 <= valueLE l < 256 ^ Z.of_nat (List.length l).
Proof.
  induction l as [ | b l IH ].
  - cbn. lia.
  - cbn [List.length]. rewrite valueLE_cons, Nat2Z.inj_succ, Z.pow_succ_r by lia.
    pose proof (b2z_range b). lia.
Qed.

Lemma valueLE_repeat_zero (c : nat) : valueLE (repeat x00 c) = 0.
Proof. induction c as [ | c IH ]; [ reflexivity | ]. cbn [repeat]. rewrite valueLE_cons, IH. reflexivity. Qed.

(** Byte strings of equal length with equal little-endian value are equal. *)
Lemma valueLE_inj (l1 : bytes) :
  forall l2 : bytes,
    List.length l1 = List.length l2 -> valueLE l1 = valueLE l2 -> l1 = l2.
Proof.
  induction l1 as [ | b1 l1 IH ]; intros [ | b2 l2 ] Hlen Hval; try discriminate Hlen.
  - reflexivity.
  - rewrite !valueLE_cons in Hval.
    pose proof (b2z_range b1). pose proof (b2z_range b2).
    assert (Hb : b2z b1 = b2z b2) by lia.
    assert (Hv : valueLE l1 = valueLE l2) by lia.
    f_equal.
    + rewrite <- (z2b_b2z b1), <- (z2b_b2z b2), Hb. reflexivity.
    + apply IH; [ cbn in Hlen; lia | exact Hv ].
Qed.

Lemma hexDigits_nonempty (fuel : nat) :
  forall (k : Z) (acc : string), hexDigits fuel k acc <> EmptyString.
Proof.
  induction fuel as [ | fuel IH ]; intros k acc; cbn [hexDigits]; cbv zeta.
  - discriminate.
  - destruct (k <? 16); [ discriminate | apply IH ].
Qed.

(** [numberToHex]: an even number of hexadecimal digits. *)
Lemma numberToHex_spec (n : Z) :
  0 <= n ->
  exists (ds : list Z) (m : nat),
    serializer.numberToHex n = digitsToString ds
    /\ Forall isDigit16 ds /\ valueBE 16 ds = n
    /\ List.length ds = (2 * m)%nat /\ (1 <= m)%nat
    /\ (forall k : nat, (1 <= k)%nat -> n < 256 ^ Z.of_nat k -> (m <= k)%nat).
Proof.
  intros Hn. destruct (@toString16_spec n Hn) as (ds & Heq & Hds & Hval & Hlen).
  unfold serializer.numberToHex. cbv zeta. rewrite Heq.
  unfold strlen. rewrite digitsToString_length.
  assert (Hne : (1 <= List.length ds)%nat).
  { destruct ds as [ | d ds' ]; [ | cbn; lia ].
    exfalso. unfold toString16 in Heq. destruct (n <? 0).
    - discriminate Heq.
    - revert Heq. apply hexDigits_nonempty. }
  assert (Hpow : forall k : nat, 256 ^ Z.of_nat k = 16 ^ Z.of_nat (2 * k)).
  { intros k. rewrite Nat2Z.inj_mul, Z.pow_mul_r by lia. reflexivity. }
  change 1 with (Z.ones 1) at 1. rewrite Z.land_ones by lia. change (2 ^ 1) with 2.
  destruct (Z.eqb_spec (Z.of_nat (List.length ds) mod 2) 1) as [Hodd | Heven].
  - (* an odd number of digits: a zero is put in front *)
    exists (0 :: ds), (S (List.length ds / 2)).
    assert (Hl : List.length ds = (2 * (List.length ds / 2) + 1)%nat).
    { pose proof (Nat.div_mod_eq (List.length ds) 2).
      assert (List.length ds mod 2 = 1)%nat; [ | lia ].
      apply Nat2Z.inj. rewrite Nat2Z.inj_mod. exact Hodd. }
    split; [ reflexivity | ].
    split; [ constructor; [ unfold isDigit16; lia | exact Hds ] | ].
    split; [ rewrite <- Hval; apply (@valueBE_leading_zeros 1 ds) | ].
    split; [ cbn [List.length]; lia | ].
    split; [ lia | ].
    intros k Hk Hb. rewrite Hpow in Hb.
    specialize (Hlen (2 * k)%nat ltac:(lia) Hb). lia.
  - exists ds, (List.length ds / 2)%nat.
    assert (Hl : List.length ds = (2 * (List.length ds / 2))%nat).
    { pose proof (Nat.div_mod_eq (List.length ds) 2).
      assert (List.length ds mod 2 = 0)%nat; [ | lia ].
      apply Nat2Z.inj. rewrite Nat2Z.inj_mod.
      pose proof (Z.mod_pos_bound (Z.of_nat (List.length ds)) 2 ltac:(lia)).
      change (Z.of_nat 2) with 2. change (Z.of_nat 0) with 0. lia. }
    split; [ reflexivity | ].
    split; [ exact Hds | ].
    split; [ exact Hval | ].
    split; [ exact Hl | ].
    split; [ lia | ].
    intros k Hk Hb. rewrite Hpow in Hb.
    specialize (Hlen (2 * k)%nat ltac:(lia) Hb). lia.
Qed.

Lemma hexToBytes_digits (m : nat) (ds : list Z) :
  List.length ds = (2 * m)%nat -> Forall isDigit16 ds ->
  hexToBytes (digitsToString ds) = Ok (map z2b (pairUp ds)).
Proof.
  intros Hlen Hds. unfold hexToBytes, strlen. rewrite digitsToString_length, Hlen.
  rewrite Z.rem_mod_nonneg by lia.
  replace (Z.of_nat (2 * m) mod 2) with 0
    by (rewrite Nat2Z.inj_mul, Z.mul_comm, Z.mod_mul by lia; reflexivity).
  cbn [Z.eqb negb]. rewrite (@hexPairs_digits m ds Hlen Hds). reflexivity.
Qed.

Lemma valueLE_rev_pairUp (m : nat) (ds : list Z) :
  List.length ds = (2 * m)%nat -> Forall isDigit16 ds ->
  valueLE (rev (map z2b (pairUp ds))) = valueBE 16 ds.
Proof.
  intros Hlen Hds. rewrite valueLE_rev.
  rewrite map_b2z_z2b by (apply (@pairUp_range m ds Hlen Hds)).
  unfold valueBE. apply (@pairUp_value m ds 0 Hlen).
Qed.

(** [numberToBytesPadded] never throws on a non-negative number; the
    bytes are its little-endian digits, [length] of them when it fits. *)
Lemma numberToBytesPadded_spec (n len : Z) :
  0 <= n ->
  exists bs : bytes,
    serializer.numberToBytesPadded n len = Ok bs
    /\ valueLE bs = n
    /\ (1 <= len -> n < 256 ^ len -> Z.of_nat (List.length bs) = len).
Proof.
  intros Hn. destruct (numberToHex_spec n Hn) as (ds & m & Heq & Hds & Hval & Hlen & Hm & Hmin).
  unfold serializer.numberToBytesPadded. cbv zeta. rewrite Heq.
  unfold padStart0, strlen. rewrite digitsToString_length, repeatChar_digits.
  rewrite <- digitsToString_app.
  set (c := Z.to_nat (len * 2 - Z.of_nat (List.length ds))).
  assert (Hc : c = (2 * Z.to_nat (len - Z.of_nat m))%nat) by (unfold c; lia).
  assert (Hlen' : List.length (repeat 0 c ++ ds) = (2 * (Z.to_nat (len - Z.of_nat m) + m))%nat).
  { rewrite length_app, repeat_length. lia. }
  assert (Hall : Forall isDigit16 (repeat 0 c ++ ds)).
  { apply Forall_app. split; [ | exact Hds ].
    apply Forall_forall. intros v Hv. apply repeat_spec in Hv. subst. unfold isDigit16. lia. }
  rewrite (hexToBytes_digits _ _ Hlen' Hall). cbn [rbind].
  eexists. split; [ reflexivity | split ].
  - rewrite (valueLE_rev_pairUp _ _ Hlen' Hall), valueBE_leading_zeros. exact Hval.
  - intros Hl Hb. rewrite length_rev, length_map, (@pairUp_length _ _ Hlen').
    specialize (Hmin (Z.to_nat len) ltac:(lia)).
    rewrite Z2Nat.id in Hmin by lia. specialize (Hmin Hb). lia.
Qed.

(** Decoding then encoding with the same length gives the bytes back. *)
Lemma numberToBytesPadded_bytesToNumberLE (bs : bytes) :
  (1 <= List.length bs)%nat ->
  serializer.numberToBytesPadded (serializer.bytesToNumberLE bs) (Z.of_nat (List.length bs))
  = Ok bs.
Proof.
  intros Hlen. rewrite bytesToNumberLE_spec.
  pose proof (valueLE_range bs) as Hr.
  destruct (numberToBytesPadded_spec (valueLE bs) (Z.of_nat (List.length bs)) ltac:(lia))
    as (bs' & E & Hval & Hl).
  rewrite E. f_equal. apply valueLE_inj; [ | exact Hval ].
  apply Nat2Z.inj. apply Hl; lia.
Qed.

(** [hexToBytes] inverts [bytesToHex]. *)
Lemma byteToHex_digits (b : byte) :
  byteToHex b = digitsToString [b2z b / 16; b2z b mod 16].
Proof. reflexivity. Qed.

Lemma bytesToHex_digits (bs : bytes) :
  bytesToHex bs = digitsToString (flat_map (fun b => [b2z b / 16; b2z b mod 16]) bs).
Proof.
  induction bs as [ | b bs IH ]; [ reflexivity | ].
  cbn [bytesToHex fold_right flat_map]. fold (bytesToHex bs).
  rewrite IH, digitsToString_app. reflexivity.
Qed.

Lemma hexToBytes_bytesToHex (bs : bytes) : hexToBytes (bytesToHex bs) = Ok bs.
Proof.
  rewrite bytesToHex_digits.
  set (ds := flat_map (fun b => [b2z b / 16; b2z b mod 16]) bs).
  assert (Hlen : List.length ds = (2 * List.length bs)%nat).
  { unfold ds. induction bs as [ | b bs IH ]; [ reflexivity | ].
    cbn [flat_map app List.length]. rewrite IH. lia. }
  assert (Hds : Forall isDigit16 ds).
  { unfold ds. clear. induction bs as [ | b bs IH ]; [ constructor | ].
    cbn [flat_map app]. pose proof (b2z_range b).
    apply Forall_cons.
    { unfold isDigit16. split; [ apply Z.div_pos; lia | apply Z.div_lt_upper_bound; lia ]. }
    apply Forall_cons.
    { unfold isDigit16. apply Z.mod_pos_bound. lia. }
    exact IH. }
  rewrite (hexToBytes_digits _ _ Hlen Hds). f_equal.
  unfold ds. clear. induction bs as [ | b bs IH ]; [ reflexivity | ].
  cbn [flat_map app pairUp map]. rewrite IH. f_equal.
  rewrite <- (z2b_b2z b) at 3. f_equal.
  pose proof (Z.div_mod (b2z b) 16 ltac:(lia)). lia.
Qed.

Lemma bytesToHex_length (bs : bytes) :
  String.length (bytesToHex bs) = (2 * List.length bs)%nat.
Proof.
  induction bs as [ | b bs IH ]; [ reflexivity | ].
  cbn [bytesToHex fold_right]. fold (bytesToHex bs). cbn [byteToHex String.append String.length].
  rewrite IH. cbn [List.length]. lia.
Qed.

(** [hexToBytes] rejects strings of odd length. *)
Lemma hexToBytes_odd (s : string) :
  Nat.odd (String.length s) = true ->
  hexToBytes s = Throw (Error "hexToBytes: received invalid unpadded hex").
Proof.
  intros Hodd. unfold hexToBytes, strlen.
  rewrite Z.rem_mod_nonneg by lia.
  apply Nat.odd_spec in Hodd. destruct Hodd as [k Hk]. rewrite Hk.
  replace (Z.of_nat (2 * k + 1) mod 2) with 1; [ reflexivity | ].
  rewrite Nat2Z.inj_add, Nat2Z.inj_mul. cbn [Z.of_nat Pos.of_succ_nat].
  rewrite Z.add_comm, Z.mul_comm, Z.mod_add by lia. reflexivity.
Qed.

(** ** Powers modulo p *)

Lemma eqP_pow (a b n : Z) : a == b -> a ^ n == b ^ n.
Proof.
  intros H. unfold eqP in *. rewrite <- (Z.mod_pow_l a), <- (Z.mod_pow_l b), H. reflexivity.
Qed.

Lemma rem_eqP (a : Z) : Z.rem a CURVE.P == a.
Proof.
  unfold eqP. rewrite (Z.quot_rem' a CURVE.P) at 2.
  rewrite Z.add_comm, Z.mul_comm, Z.mod_add by discriminate. reflexivity.
Qed.

Lemma pow2_nat (x : Z) (n : nat) :
  nat_rect (fun _ => Z) x
    (fun _ res => Ints.remainder (Ints.multiply res res) CURVE.P) n
  == x ^ (2 ^ Z.of_nat n).
Proof.
  induction n as [ | n IH ].
  - cbn [nat_rect]. change (2 ^ Z.of_nat 0) with 1. rewrite Z.pow_1_r. reflexivity.
  - cbn [nat_rect]. unfold Ints.remainder, Ints.multiply. rewrite rem_eqP, IH.
    rewrite Nat2Z.inj_succ, Z.pow_succ_r by lia.
    rewrite <- Z.pow_add_r by (apply Z.pow_nonneg; lia).
    apply eqP_of_eq. f_equal. lia.
Qed.

(** [pow2(x, k)] is x^(2^k) modulo p. *)
Lemma pow2_spec (x k : Z) : 0 <= k -> math.pow2 x k == x ^ (2 ^ k).
Proof.
  intros Hk. unfold math.pow2. rewrite iter_nat_of_Z by exact Hk.
  rewrite pow2_nat. rewrite Zabs2Nat.id_abs, Z.abs_eq by exact Hk. reflexivity.
Qed.

Lemma mersenne_nonneg (k : Z) : 0 <= k -> 0 <= 2 ^ k - 1.
Proof. intros Hk. pose proof (Z.pow_pos_nonneg 2 k). lia. Qed.

(** One step of the addition chain of [pow_2_252_3]. *)
Lemma chain_step (x a b e1 e2 k e3 : Z) :
  0 <= e1 -> 0 <= e2 -> 0 <= k -> e3 = e1 * 2 ^ k + e2 ->
  a == x ^ e1 -> b == x ^ e2 ->
  Ints.remainder (Ints.multiply (math.pow2 a k) b) CURVE.P == x ^ e3.
Proof.
  intros H1 H2 Hk -> Ha Hb. unfold Ints.remainder, Ints.multiply.
  rewrite rem_eqP, pow2_spec by exact Hk. rewrite (eqP_pow _ _ (2 ^ k) Ha), Hb.
  rewrite <- Z.pow_mul_r, <- Z.pow_add_r; try assumption;
    try (apply Z.pow_nonneg; lia); try (apply Z.mul_nonneg_nonneg; try apply Z.pow_nonneg; lia).
  reflexivity.
Qed.

Ltac chain_side :=
  first [ assumption
        | apply mersenne_nonneg; discriminate
        | discriminate
        | vm_compute; reflexivity ].

(** [pow_2_252_3(x)] is x^(2^252 - 3), that is x^((p - 5) / 8), modulo p. *)
Lemma pow_2_252_3_spec (x : Z) : math.pow_2_252_3 x == x ^ (2 ^ 252 - 3).
Proof.
  unfold math.pow_2_252_3. cbv zeta.
  assert (Hx1 : x == x ^ 1) by (rewrite Z.pow_1_r; reflexivity).
  set (x2 := Ints.remainder (Ints.multiply x x) CURVE.P).
  assert (Ex2 : x2 == x ^ 2).
  { unfold x2, Ints.remainder, Ints.multiply. rewrite rem_eqP.
    apply eqP_of_eq. rewrite Z.pow_2_r. reflexivity. }
  set (b2 := Ints.remainder (Ints.multiply x2 x) CURVE.P).
  assert (Eb2 : b2 == x ^ (2 ^ 2 - 1)).
  { unfold b2, Ints.remainder, Ints.multiply. rewrite rem_eqP, Ex2.
    apply eqP_of_eq. change (2 ^ 2 - 1) with (2 + 1).
    rewrite Z.pow_add_r, Z.pow_1_r by lia. reflexivity. }
  clearbody b2. clear x2 Ex2.
  set (b4 := Ints.remainder (Ints.multiply (math.pow2 b2 2) b2) CURVE.P).
  assert (Eb4 : b4 == x ^ (2 ^ 4 - 1))
    by (apply (chain_step x b2 b2 (2 ^ 2 - 1) (2 ^ 2 - 1) 2 (2 ^ 4 - 1)); chain_side).
  clearbody b4.
  set (b5 := Ints.remainder (Ints.multiply (math.pow2 b4 1) x) CURVE.P).
  assert (Eb5 : b5 == x ^ (2 ^ 5 - 1))
    by (apply (chain_step x b4 x (2 ^ 4 - 1) 1 1 (2 ^ 5 - 1)); chain_side).
  clearbody b5. clear b4 Eb4 b2 Eb2.
  set (b10 := Ints.remainder (Ints.multiply (math.pow2 b5 5) b5) CURVE.P).
  assert (Eb10 : b10 == x ^ (2 ^ 10 - 1))
    by (apply (chain_step x b5 b5 (2 ^ 5 - 1) (2 ^ 5 - 1) 5 (2 ^ 10 - 1)); chain_side).
  clearbody b10. clear b5 Eb5.
  set (b20 := Ints.remainder (Ints.multiply (math.pow2 b10 10) b10) CURVE.P).
  assert (Eb20 : b20 == x ^ (2 ^ 20 - 1))
    by (apply (chain_step x b10 b10 (2 ^ 10 - 1) (2 ^ 10 - 1) 10 (2 ^ 20 - 1)); chain_side).
  clearbody b20.
  set (b40 := Ints.remainder (Ints.multiply (math.pow2 b20 20) b20) CURVE.P).
  assert (Eb40 : b40 == x ^ (2 ^ 40 - 1))
    by (apply (chain_step x b20 b20 (2 ^ 20 - 1) (2 ^ 20 - 1) 20 (2 ^ 40 - 1)); chain_side).
  clearbody b40. clear b20 Eb20.
  set (b80 := Ints.remainder (Ints.multiply (math.pow2 b40 40) b40) CURVE.P).
  assert (Eb80 : b80 == x ^ (2 ^ 80 - 1))
    by (apply (chain_step x b40 b40 (2 ^ 40 - 1) (2 ^ 40 - 1) 40 (2 ^ 80 - 1)); chain_side).
  clearbody b80. clear b40 Eb40.
  set (b160 := Ints.remainder (Ints.multiply (math.pow2 b80 80) b80) CURVE.P).
  assert (Eb160 : b160 == x ^ (2 ^ 160 - 1))
    by (apply (chain_step x b80 b80 (2 ^ 80 - 1) (2 ^ 80 - 1) 80 (2 ^ 160 - 1)); chain_side).
  clearbody b160.
  set (b240 := Ints.remainder (Ints.multiply (math.pow2 b160 80) b80) CURVE.P).
  assert (Eb240 : b240 == x ^ (2 ^ 240 - 1))
    by (apply (chain_step x b160 b80 (2 ^ 160 - 1) (2 ^ 80 - 1) 80 (2 ^ 240 - 1)); chain_side).
  clearbody b240. clear b160 Eb160 b80 Eb80.
  set (b250 := Ints.remainder (Ints.multiply (math.pow2 b240 10) b10) CURVE.P).
  assert (Eb250 : b250 == x ^ (2 ^ 250 - 1))
    by (apply (chain_step x b240 b10 (2 ^ 240 - 1) (2 ^ 10 - 1) 10 (2 ^ 250 - 1)); chain_side).
  clearbody b250. clear b240 Eb240 b10 Eb10.
  apply (chain_step x b250 x (2 ^ 250 - 1) 1 2 (2 ^ 252 - 3)); chain_side.
Qed.

(** ** Square roots of ratios: [uvRatio] finds a root whenever one exists *)

Lemma pow_square_chain (w e : Z) : 0 <= e -> w * (w ^ e * w ^ e) = w ^ (2 * e + 1).
Proof.
  intros He. rewrite <- Z.pow_add_r by lia. rewrite <- (Z.pow_1_r w) at 1.
  rewrite <- Z.pow_add_r by lia. f_equal. lia.
Qed.

Lemma pow_of_square (s n : Z) : 0 <= n -> (s * s) ^ n = s ^ (2 * n).
Proof.
  intros Hn. rewrite Z.pow_mul_l, <- Z.pow_add_r by lia. f_equal. lia.
Qed.

Lemma pow_double (s n : Z) : 0 <= n -> s ^ n * s ^ n = s ^ (2 * n).
Proof. intros Hn. rewrite <- Z.pow_add_r by lia. f_equal. lia. Qed.

Section UvRatioComplete.

Add Field Fp_field9 : eqP_field_theory
  (setoid eqP_Equivalence eqP_ring_eq_ext, morphism eqP_morph, constants [Zcst]).

Lemma fermat_eqP (s : Z) : ~ s == 0 -> s ^ (CURVE.P - 1) == 1.
Proof.
  intros Hs. unfold eqP. rewrite (Z.fermat_nz CURVE.P s prime_P).
  - reflexivity.
  - intros H0. apply Hs. apply eqP_0_iff. exact H0.
Qed.

(** With e = (p - 5) / 8, the candidate x0 = u v^3 (u v^7)^e has
    v x0^2 = u or -u as soon as u / v is a square. *)
Lemma uvRatio_core (u v x x0 e : Z) :
  0 <= e -> 8 * e + 4 = CURVE.P - 1 ->
  x0 == u * (v * v * v) * (u * (v * v * v * v * v * v * v)) ^ e ->
  x * x * v == u -> ~ v == 0 ->
  v * x0 * x0 == u \/ v * x0 * x0 == - u.
Proof.
  intros He Hexp Hx0 Hx Hv.
  set (w := u * (v * v * v * v * v * v * v)) in *.
  set (pw := w ^ e) in *.
  set (s := x * (v * v * v * v)).
  assert (Hw : w == s * s) by (unfold w, s; rewrite <- Hx; ring).
  assert (Hvx : v * x0 * x0 == u * (w * (pw * pw))) by (rewrite Hx0; unfold w; ring).
  rewrite Hvx. unfold pw. rewrite (eqP_of_eq (pow_square_chain w e He)).
  rewrite (eqP_pow _ _ (2 * e + 1) Hw).
  rewrite (eqP_of_eq (pow_of_square s (2 * e + 1) ltac:(lia))).
  set (t := s ^ (2 * (2 * e + 1))).
  destruct (eqP_dec s 0) as [Hs0 | Hs0].
  - (* x = 0, hence u = 0 *)
    left. assert (Hx0' : x == 0).
    { destruct (eqP_integral _ _ Hs0) as [H | H]; [ exact H | exfalso ].
      apply (eqP_mul_nonzero (v * v) (v * v)); try (apply eqP_mul_nonzero; assumption).
      rewrite <- H. ring. }
    assert (Hu0 : u == 0) by (rewrite <- Hx, Hx0'; ring).
    rewrite Hu0. ring.
  - assert (Ht : t * t == 1).
    { unfold t. rewrite (eqP_of_eq (pow_double s (2 * (2 * e + 1)) ltac:(lia))).
      replace (2 * (2 * (2 * e + 1))) with (CURVE.P - 1) by lia.
      apply fermat_eqP, Hs0. }
    destruct (sqrt_one t Ht) as [H1 | H1]; [ left | right ]; rewrite H1; ring.
Qed.

Lemma exponent_nonneg : 0 <= 2 ^ 252 - 3.
Proof. vm_compute. discriminate. Qed.

Lemma exponent_eq : 8 * (2 ^ 252 - 3) + 4 = CURVE.P - 1.
Proof. vm_compute. reflexivity. Qed.

Lemma uvRatio_candidate (u v : Z) :
  math.modP (Ints.multiply (Ints.multiply u (math.modP (Ints.multiply (Ints.multiply v v) v)))
       (math.pow_2_252_3 (Ints.multiply u
          (math.modP (Ints.multiply
             (Ints.multiply (math.modP (Ints.multiply (Ints.multiply v v) v))
                            (math.modP (Ints.multiply (Ints.multiply v v) v))) v)))))
  == u * (v * v * v) * (u * (v * v * v * v * v * v * v)) ^ (2 ^ 252 - 3).
Proof.
  unfold Ints.multiply. rewrite modP_eqP.
  set (v3 := math.modP (v * v * v)).
  assert (E3 : v3 == v * v * v) by apply modP_eqP.
  set (v7 := math.modP (v3 * v3 * v)).
  assert (E7 : v7 == v * v * v * v * v * v * v).
  { unfold v7. rewrite modP_eqP, E3. ring. }
  clearbody v7. clearbody v3.
  rewrite pow_2_252_3_spec, E3.
  assert (Ew : u * v7 == u * (v * v * v * v * v * v * v)) by (rewrite E7; reflexivity).
  rewrite (eqP_pow _ _ (2 ^ 252 - 3) Ew). reflexivity.
Qed.

(** Completeness of [uvRatio]: if u = x^2 v for some x, with v non-zero,
    the result is flagged valid. *)
Lemma uvRatio_complete (u v x : Z) :
  0 <= u < CURVE.P -> ~ v == 0 -> x * x * v == u ->
  math.isValid (math.uvRatio u v) = true.
Proof.
  intros Hu Hv Hx. unfold math.uvRatio. cbv zeta. cbn [math.isValid].
  pose proof (uvRatio_candidate u v) as Hc.
  set (x0 := math.modP (Ints.multiply (Ints.multiply u _) (math.pow_2_252_3 _))) in *.
  clearbody x0.
  set (vx2 := math.modP (Ints.multiply (Ints.multiply v x0) x0)).
  assert (Hvx2 : vx2 == v * x0 * x0) by (unfold vx2, Ints.multiply; apply modP_eqP).
  assert (Hr : 0 <= vx2 < CURVE.P) by apply modP_range.
  clearbody vx2.
  assert (Hcases : vx2 == u \/ vx2 == - u).
  { destruct (uvRatio_core u v x x0 (2 ^ 252 - 3) exponent_nonneg exponent_eq Hc Hx Hv)
      as [H | H]; [ left | right ]; (etransitivity; [ exact Hvx2 | exact H ]). }
  unfold Ints.equal, Ints.unaryMinus.
  destruct Hcases as [H | H].
  - assert (E : vx2 = u) by (apply eqP_small; assumption).
    rewrite E, Z.eqb_refl. reflexivity.
  - assert (E : vx2 = math.modP (- u)).
    { apply eqP_small; [ exact Hr | apply modP_range | rewrite modP_eqP; exact H ]. }
    rewrite E, Z.eqb_refl. apply orb_true_r.
Qed.

(** What [uvRatio] returns: a reduced, even value whose square times v
    is u whenever the result is flagged valid. *)
Lemma uvRatio_root (u v : Z) :
  0 <= u < CURVE.P ->
  0 <= math.value (math.uvRatio u v) < CURVE.P
  /\ Z.odd (math.value (math.uvRatio u v)) = false
  /\ (math.isValid (math.uvRatio u v) = true ->
      math.value (math.uvRatio u v) * math.value (math.uvRatio u v) * v == u).
Proof.
  intros Hu. unfold math.uvRatio. cbv zeta.
  set (x0 := math.modP (Ints.multiply (Ints.multiply u _) (math.pow_2_252_3 _))).
  assert (Hx0 : 0 <= x0 < CURVE.P) by apply modP_range.
  clearbody x0.
  set (vx2 := math.modP (Ints.multiply (Ints.multiply v x0) x0)).
  set (root2 := math.modP (Ints.multiply x0 CONSTANTS.SQRT_M1)).
  assert (Hvx2 : vx2 == v * x0 * x0) by (unfold vx2, Ints.multiply; apply modP_eqP).
  assert (Hroot2 : root2 * root2 == - (x0 * x0)).
  { unfold root2, Ints.multiply. rewrite modP_eqP.
    transitivity (x0 * x0 * (CONSTANTS.SQRT_M1 * CONSTANTS.SQRT_M1 + 1) - x0 * x0); [ ring | ].
    rewrite SQRT_M1_sq'. ring. }
  assert (Hr2 : 0 <= root2 < CURVE.P) by apply modP_range.
  clearbody vx2 root2.
  set (useRoot1 := Ints.equal vx2 u).
  set (useRoot2 := Ints.equal vx2 (math.modP (Ints.unaryMinus u))).
  set (noRoot := Ints.equal vx2
                   (math.modP (Ints.multiply (Ints.unaryMinus u) CONSTANTS.SQRT_M1))).
  set (pre := if useRoot2 || noRoot then root2 else if useRoot1 then x0 else x0).
  assert (Hpre : 0 <= pre < CURVE.P)
    by (unfold pre; destruct (useRoot2 || noRoot), useRoot1; assumption).
  destruct (@sign_fix pre Hpre) as (Hrange & Hodd & Hsq).
  cbn [math.value math.isValid].
  split; [ exact Hrange | split; [ exact Hodd | ] ].
  intros Hvalid. rewrite Hsq.
  destruct useRoot2 eqn:E2.
  - unfold pre. cbn [orb]. rewrite Hroot2.
    apply eqb_eqP in E2. rewrite modP_eqP in E2. unfold Ints.unaryMinus in E2.
    transitivity (- (v * x0 * x0)); [ ring | ]. rewrite <- Hvx2, E2. ring.
  - cbn [orb] in Hvalid. fold useRoot1 in Hvalid.
    assert (E1 : useRoot1 = true)
      by (destruct useRoot1; [ reflexivity | discriminate Hvalid ]).
    pose proof (@eqb_eqP _ _ E1) as H1.
    destruct noRoot eqn:En.
    + exfalso. apply eqb_eqP in En. rewrite modP_eqP in En.
      unfold Ints.multiply, Ints.unaryMinus in En.
      assert (Hu0 : u = 0).
      { apply self_neg_SQRT_M1; [ exact Hu | ].
        transitivity vx2; [ symmetry; exact H1 | exact En ]. }
      subst u. unfold useRoot1, Ints.equal in E1. apply Z.eqb_eq in E1.
      unfold useRoot2, Ints.equal, Ints.unaryMinus in E2. rewrite E1 in E2.
      vm_compute in E2. discriminate E2.
    + unfold pre. cbn [orb]. rewrite E1.
      transitivity (v * x0 * x0); [ ring | ]. rewrite <- Hvx2. exact H1.
Qed.

End UvRatioComplete.

(** ** Point encoding: [toRawBytes] and [fromHex] *)

Lemma updateAt_spec (f : byte -> byte) (l : bytes) :
  forall i : nat, (i < List.length l)%nat ->
    updateAt i f l = firstn i l ++ f (nth i l x00) :: skipn (S i) l.
Proof.
  induction l as [ | b l IH ]; intros i Hi; [ cbn in Hi; lia | ].
  destruct i as [ | i ]; [ reflexivity | ].
  cbn [updateAt firstn nth skipn app]. rewrite IH by (cbn in Hi; lia). reflexivity.
Qed.

Lemma split_last (l : bytes) (n : nat) :
  List.length l = S n -> l = firstn n l ++ [nth n l x00].
Proof.
  revert l. induction n as [ | n IH ]; intros l Hl.
  - destruct l as [ | b [ | c l ] ]; try discriminate Hl. reflexivity.
  - destruct l as [ | b l ]; [ discriminate Hl | ].
    cbn [firstn nth app]. rewrite <- IH by (cbn in Hl; lia). reflexivity.
Qed.

Lemma updateAt_last (f : byte -> byte) (l : bytes) (n : nat) :
  List.length l = S n -> updateAt n f l = firstn n l ++ [f (nth n l x00)].
Proof.
  intros Hl. rewrite updateAt_spec by lia.
  rewrite skipn_all2 by lia. reflexivity.
Qed.

Lemma land_1_odd (x : Z) : Z.land x 1 = if Z.odd x then 1 else 0.
Proof.
  change 1 with (Z.ones 1) at 1. rewrite Z.land_ones by lia.
  change (2 ^ 1) with 2. apply Zmod_odd.
Qed.

(** Bit 7 of a byte below 128. *)
Lemma byteOr_128 (b : byte) :
  b2z b < 128 ->
  b2z (byteOr 128 b) = b2z b + 128
  /\ Z.land (b2z (byteOr 128 b)) (Z.lnot 128) = b2z b
  /\ Z.land (b2z (byteOr 128 b)) 128 = 128.
Proof.
  destruct b; intros H; try (vm_compute; repeat split; reflexivity);
    exfalso; vm_compute in H; discriminate H.
Qed.

Lemma byteOr_0 (b : byte) : byteOr 0 b = b.
Proof. unfold byteOr. rewrite Z.lor_0_r. apply z2b_b2z. Qed.

Lemma byte_low (b : byte) :
  b2z b < 128 ->
  Z.land (b2z b) (Z.lnot 128) = b2z b /\ Z.land (b2z b) 128 = 0.
Proof.
  destruct b; intros H; try (vm_compute; repeat split; reflexivity);
    exfalso; vm_compute in H; discriminate H.
Qed.

Lemma firstn_rev_map_short {A B : Type} (f : A -> B) (l : list A) (n : nat) :
  (List.length l <= n)%nat -> map f (firstn n (rev l)) = rev (map f l).
Proof.
  intros H. rewrite firstn_all2 by (rewrite length_rev; exact H).
  apply map_rev.
Qed.

(** The bytes written by [toRawBytes]: the little-endian bytes of y in
    31 bytes and a last byte below 128, which receives the parity of x
    in its top bit. *)
Lemma toRawBytes_shape (P : Point.point) :
  0 <= Point.y P < 2 ^ 255 ->
  exists (front : bytes) (b31 : byte),
    List.length front = 31%nat /\ b2z b31 < 128
    /\ valueLE (front ++ [b31]) = Point.y P
    /\ Point.toRawBytes P
       = front ++ [byteOr (if Z.odd (Point.x P) then 128 else 0) b31].
Proof.
  intros Hy. unfold Point.toRawBytes. cbv zeta.
  destruct (numberToHex_spec (Point.y P) (proj1 Hy))
    as (ds & m & Ehex & Hds & Hval & Hlen & Hm1 & Hmin).
  assert (Hm : (m <= 32)%nat).
  { apply Hmin; [ lia | ]. change (256 ^ Z.of_nat 32) with (2 ^ 256).
    assert (2 ^ 255 < 2 ^ 256) by (vm_compute; reflexivity). lia. }
  rewrite Ehex.
  set (pairs := hexPairs (digitsToString ds)).
  assert (Hpl : List.length pairs = m).
  { pose proof (f_equal (@List.length byte) (@hexPairs_digits m ds Hlen Hds)) as E.
    rewrite !length_map in E. fold pairs in E. rewrite E. apply (@pairUp_length m ds Hlen). }
  rewrite (firstn_rev_map_short _ pairs 32) by lia.
  unfold pairs. rewrite (@hexPairs_digits m ds Hlen Hds).
  set (read := rev (map z2b (pairUp ds))).
  assert (Hrl : List.length read = m).
  { unfold read. rewrite length_rev, length_map. apply (@pairUp_length m ds Hlen). }
  assert (Hrv : valueLE read = Point.y P).
  { unfold read. rewrite (valueLE_rev_pairUp m ds Hlen Hds). exact Hval. }
  clearbody read. clear pairs Hpl.
  set (u8 := read ++ repeat x00 (32 - List.length read)).
  assert (Hul : List.length u8 = 32%nat).
  { unfold u8. rewrite length_app, repeat_length. lia. }
  assert (Huv : valueLE u8 = Point.y P).
  { unfold u8. rewrite valueLE_app, valueLE_repeat_zero. lia. }
  clearbody u8.
  exists (firstn 31 u8), (nth 31 u8 x00).
  pose proof (split_last u8 31 Hul) as Esplit.
  assert (Hfl : List.length (firstn 31 u8) = 31%nat) by (rewrite length_firstn; lia).
  split; [ exact Hfl | ].
  split.
  { rewrite Esplit, valueLE_app, Hfl in Huv.
    pose proof (valueLE_range (firstn 31 u8)) as Hr.
    change (valueLE [nth 31 u8 x00]) with (b2z (nth 31 u8 x00) + 256 * 0) in Huv.
    assert (E : 256 ^ Z.of_nat 31 * 128 = 2 ^ 255) by (vm_compute; reflexivity).
    assert (Hp : 0 < 256 ^ Z.of_nat 31) by (vm_compute; reflexivity).
    destruct Hy as [_ Hy]. rewrite <- Huv, <- E in Hy.
    set (c := 256 ^ Z.of_nat 31) in *. clearbody c.
    set (v := b2z (nth 31 u8 x00)) in *. clearbody v.
    set (w := valueLE (firstn 31 u8)) in *. clearbody w.
    clear - Hy Hr Hp. nia. }
  split; [ rewrite <- Esplit; exact Huv | ].
  rewrite (updateAt_last _ u8 31 Hul).
  unfold Ints.NE, Ints.bitwiseAnd. rewrite land_1_odd.
  destruct (Z.odd (Point.x P)); reflexivity.
Qed.

(** [toRawBytes] writes 32 bytes whose little-endian value is y, plus
    2^255 when x is odd. *)
Lemma toRawBytes_spec (P : Point.point) :
  0 <= Point.y P < 2 ^ 255 ->
  List.length (Point.toRawBytes P) = 32%nat
  /\ valueLE (Point.toRawBytes P)
     = Point.y P + (if Z.odd (Point.x P) then 2 ^ 255 else 0).
Proof.
  intros Hy.
  destruct (toRawBytes_shape P Hy) as (front & b31 & Hfl & Hb & Hv & E).
  rewrite E. split; [ rewrite length_app, Hfl; reflexivity | ].
  rewrite valueLE_app in Hv |- *. rewrite Hfl in Hv |- *.
  change (valueLE [b31]) with (b2z b31 + 256 * 0) in Hv.
  assert (E2 : 256 ^ Z.of_nat 31 * 128 = 2 ^ 255) by (vm_compute; reflexivity).
  rewrite <- E2. set (c := 256 ^ Z.of_nat 31) in *. clearbody c.
  destruct (Z.odd (Point.x P)).
  - change (valueLE [byteOr 128 b31]) with (b2z (byteOr 128 b31) + 256 * 0).
    destruct (byteOr_128 b31 Hb) as (E1 & _). rewrite E1. lia.
  - rewrite byteOr_0. change (valueLE [b31]) with (b2z b31 + 256 * 0). lia.
Qed.

Section PointCodec.

Add Field Fp_field10 : eqP_field_theory
  (setoid eqP_Equivalence eqP_ring_eq_ext, morphism eqP_morph, constants [Zcst]).

(** The denominator d y^2 + 1 of the decompression never vanishes:
    otherwise d would be the square of sqrt(-1) / y. *)
Lemma decompress_denominator (y : Z) : ~ CURVE.d * (y * y) + 1 == 0.
Proof.
  intros H.
  destruct (eqP_dec y 0) as [Hy | Hy].
  - assert (H1 : 1 == 0) by (rewrite <- H, Hy; ring).
    unfold eqP in H1. vm_compute in H1. discriminate H1.
  - apply (d_nonsquare (CONSTANTS.SQRT_M1 * finv y)).
    apply (eqP_mul_cancel_r _ _ (y * y)); [ apply eqP_mul_nonzero; exact Hy | ].
    transitivity ((CONSTANTS.SQRT_M1 * CONSTANTS.SQRT_M1 + 1) - 1).
    + field. exact Hy.
    + rewrite SQRT_M1_sq'. rewrite <- H. ring.
Qed.

Lemma square_roots (a b : Z) : a * a == b * b -> a == b \/ a == - b.
Proof.
  intros H. destruct (eqP_integral (a - b) (a + b)) as [H1 | H1].
  - transitivity (a * a - b * b); [ ring | rewrite H; ring ].
  - left. apply eqP_sub_0. exact H1.
  - right. apply eqP_sub_0. rewrite <- H1. ring.
Qed.

End PointCodec.

Lemma opposite_parity (a b : Z) :
  0 <= a < CURVE.P -> 0 <= b < CURVE.P -> a == - b -> Z.odd a = Z.odd b -> a = 0 /\ b = 0.
Proof.
  intros Ha Hb H Hodd.
  assert (H0 : (a + b) mod CURVE.P = 0).
  { apply eqP_0_iff. unfold eqP in *. rewrite Zplus_mod, H, <- Zplus_mod.
    replace (- b + b) with 0 by lia. reflexivity. }
  apply Z.mod_divide in H0; [ | discriminate ].
  destruct H0 as [k Hk].
  assert (Hpar : Z.odd (a + b) = false)
    by (rewrite Z.odd_add, Hodd; apply xorb_nilpotent).
  assert (HP : Z.odd CURVE.P = true) by reflexivity.
  assert (Hk01 : k = 0 \/ k = 1).
  { assert (0 < CURVE.P) by reflexivity.
    set (p := CURVE.P) in *. clearbody p. clear - Ha Hb Hk H0. nia. }
  destruct Hk01 as [-> | ->].
  - lia.
  - rewrite Hk, Z.mul_1_l, HP in Hpar. discriminate Hpar.
Qed.

(** Decoding the encoding of a curve point gives its coordinates back,
    in a newly allocated point object. *)
Lemma fromHex_toRawBytes (P : Point.point) (h : ExtendedPoint.Heap) :
  isPoint (coords P) ->
  Point.fromHex (HexBytes (Point.toRawBytes P)) h = Point.new (Point.x P) (Point.y P) h.
Proof.
  intros [Hon [Hxr Hyr]]. unfold coords, onCurve in *. cbn [fst snd] in *.
  assert (Hy : 0 <= Point.y P < 2 ^ 255).
  { assert (CURVE.P < 2 ^ 255) by (vm_compute; reflexivity). lia. }
  destruct (toRawBytes_shape P Hy) as (front & b31 & Hfl & Hb & Hv & E).
  unfold Point.fromHex, bind, lift, ensureBytes. rewrite E.
  set (b' := byteOr (if Z.odd (Point.x P) then 128 else 0) b31).
  assert (Hlen : List.length (front ++ [b']) = 32%nat)
    by (rewrite length_app, Hfl; reflexivity).
  rewrite Hlen. change (negb (Z.of_nat 32 =? 32)) with false. cbv iota.
  cbv zeta.
  assert (Hnth : nth 31 (front ++ [b']) x00 = b').
  { rewrite app_nth2 by lia. rewrite Hfl. reflexivity. }
  assert (Hfirst : firstn 31 (front ++ [b']) = front).
  { rewrite firstn_app, Hfl. rewrite firstn_all2 by lia.
    change (31 - 31)%nat with 0%nat. cbn [firstn]. apply app_nil_r. }
  rewrite Hnth, Hfirst.
  assert (Hbits : z2b (Z.land (b2z b') (Z.lnot 128)) = b31
                  /\ negb (Z.land (b2z b') 128 =? 0) = Z.odd (Point.x P)).
  { unfold b'. destruct (Z.odd (Point.x P)).
    - destruct (byteOr_128 b31 Hb) as (_ & E1 & E2). rewrite E1, E2.
      split; [ apply z2b_b2z | reflexivity ].
    - rewrite byteOr_0. destruct (byte_low b31 Hb) as (E1 & E2). rewrite E1, E2.
      split; [ apply z2b_b2z | reflexivity ]. }
  destruct Hbits as [Eb Eodd]. rewrite Eb, Eodd.
  rewrite bytesToNumberLE_spec, Hv.
  clear E b' Hlen Hnth Hfirst Eb Eodd Hv Hb Hfl front b31.
  destruct P as [x y o]. cbn [Point.x Point.y] in *.
  assert (Hge : Ints.greaterThanOrEqual y CURVE.P = false).
  { unfold Ints.greaterThanOrEqual. rewrite Z.geb_leb. apply Z.leb_gt. lia. }
  rewrite Hge.
  unfold Ints.multiply, Ints.subtract, Ints.add.
  set (y2 := math.modP (y * y)).
  set (u := math.modP (y2 - 1)).
  set (v := math.modP (CURVE.d * y2 + 1)).
  assert (Ey2 : y2 == y * y) by apply modP_eqP.
  assert (Eu : u == y * y - 1) by (unfold u; rewrite modP_eqP, Ey2; reflexivity).
  assert (Ev : v == CURVE.d * (y * y) + 1) by (unfold v; rewrite modP_eqP, Ey2; reflexivity).
  assert (Hu : 0 <= u < CURVE.P) by apply modP_range.
  assert (Hvn : ~ v == 0) by (rewrite Ev; apply decompress_denominator).
  assert (Hxv : x * x * v == u).
  { rewrite Ev, Eu. apply eqP_sub_0.
    transitivity (- curveEq CURVE.d x y); [ unfold curveEq; apply eqP_of_eq; ring | ].
    rewrite Hon. reflexivity. }
  clearbody u v. clear y2 Ey2 Eu Ev.
  rewrite (uvRatio_complete u v x Hu Hvn Hxv). cbn [negb].
  destruct (uvRatio_root u v Hu) as (Hr & Hodd & Hsq).
  specialize (Hsq (uvRatio_complete u v x Hu Hvn Hxv)).
  set (xr := math.value (math.uvRatio u v)) in *. clearbody xr.
  assert (Hroots : xr == x \/ xr == - x).
  { apply square_roots. apply (eqP_mul_cancel_r _ _ v Hvn).
    rewrite Hsq, Hxv. reflexivity. }
  unfold Ints.equal, Ints.bitwiseAnd, Ints.unaryMinus. rewrite land_1_odd, Hodd.
  change (0 =? 1) with false.
  assert (Ex : (if negb (Bool.eqb (Z.odd x) false) then math.modP (- xr) else xr) = x).
  { destruct (Z.odd x) eqn:Ox; cbn [Bool.eqb negb].
    - destruct Hroots as [H | H].
      + pose proof (eqP_small Hr Hxr H) as E. rewrite E, Ox in Hodd. discriminate Hodd.
      + apply eqP_small; [ apply modP_range | exact Hxr | ].
        rewrite modP_eqP, H. apply eqP_of_eq. lia.
    - destruct Hroots as [H | H].
      + apply eqP_small; assumption.
      + destruct (opposite_parity xr x Hr Hxr H) as [E1 E2]; [ congruence | ].
        congruence. }
  rewrite Ex. reflexivity.
Qed.

(** Either sign of a reduced root is reduced and has the same square. *)
Lemma sign_choice (c : bool) (xr : Z) :
  0 <= xr < CURVE.P ->
  0 <= (if c then math.modP (Ints.unaryMinus xr) else xr) < CURVE.P
  /\ (if c then math.modP (Ints.unaryMinus xr) else xr)
     * (if c then math.modP (Ints.unaryMinus xr) else xr) == xr * xr.
Proof.
  intros Hr. destruct c.
  - split; [ apply modP_range | ]. rewrite modP_eqP. unfold Ints.unaryMinus.
    apply eqP_of_eq. ring.
  - split; [ exact Hr | reflexivity ].
Qed.

(** A point accepted by [fromHex] has reduced coordinates that satisfy
    the curve equation. *)
Lemma fromHex_isPoint (hx : Hex) (h h' : ExtendedPoint.Heap) (Q : Point.point) :
  Point.fromHex hx h = (Ok Q, h') -> isPoint (coords Q).
Proof.
  unfold Point.fromHex, bind, lift, throw.
  destruct (ensureBytes hx) as [ bs | e | ]; try discriminate.
  destruct (negb (Z.of_nat (List.length bs) =? 32)); [ discriminate | ].
  cbv zeta.
  set (y := serializer.bytesToNumberLE _).
  assert (Hy0 : 0 <= y).
  { unfold y. rewrite bytesToNumberLE_spec. apply valueLE_range. }
  clearbody y.
  destruct (Ints.greaterThanOrEqual y CURVE.P) eqn:Hge; [ discriminate | ].
  unfold Ints.greaterThanOrEqual in Hge. rewrite Z.geb_leb in Hge. apply Z.leb_gt in Hge.
  unfold Ints.multiply, Ints.subtract, Ints.add.
  set (y2 := math.modP (y * y)).
  set (u := math.modP (y2 - 1)).
  set (v := math.modP (CURVE.d * y2 + 1)).
  assert (Ey2 : y2 == y * y) by apply modP_eqP.
  assert (Eu : u == y * y - 1) by (unfold u; rewrite modP_eqP, Ey2; reflexivity).
  assert (Ev : v == CURVE.d * (y * y) + 1) by (unfold v; rewrite modP_eqP, Ey2; reflexivity).
  assert (Hu : 0 <= u < CURVE.P) by apply modP_range.
  clearbody u v. clear y2 Ey2.
  destruct (uvRatio_root u v Hu) as (Hr & _ & Hsq).
  destruct (math.isValid (math.uvRatio u v)); [ | discriminate ].
  specialize (Hsq eq_refl). cbn [negb].
  set (xr := math.value (math.uvRatio u v)) in *. clearbody xr.
  match goal with
  | |- context [if ?c then math.modP (Ints.unaryMinus xr) else xr] =>
      pose proof (sign_choice c xr Hr) as Hx;
      set (x := if c then math.modP (Ints.unaryMinus xr) else xr) in *
  end.
  clearbody x. destruct Hx as [Hxr Hxx].
  unfold Point.new. intros E. injection E as E _. subst Q.
  unfold isPoint, onCurve, reduced, coords. cbn [Point.x Point.y fst snd].
  split; [ | split; [ exact Hxr | lia ] ].
  transitivity (y * y - 1 - x * x * (CURVE.d * (y * y) + 1));
    [ unfold curveEq; apply eqP_of_eq; ring | ].
  rewrite Hxx, <- Ev, Hsq, Eu. apply eqP_of_eq. ring.
Qed.

(** ** The private scalar ([encodePrivate]) *)

Lemma byteAnd_248 (b : byte) : b2z (byteAnd 248 b) mod 8 = 0.
Proof. destruct b; vm_compute; reflexivity. Qed.

Lemma clamp_high (b : byte) : 64 <= b2z (byteOr 64 (byteAnd 127 b)) < 128.
Proof. destruct b; vm_compute; split; congruence. Qed.

(** The clamped little-endian value of the first 32 bytes is a multiple
    of 8 between 2^254 and 2^255. *)
Lemma clamp_spec (bs : bytes) :
  (32 <= List.length bs)%nat ->
  exists c : Z,
    valueLE (updateAt 31 (byteOr 64)
               (updateAt 31 (byteAnd 127)
                  (updateAt 0 (byteAnd 248) (firstn 32 bs)))) = 8 * c
    /\ 2 ^ 251 <= c < 2 ^ 252.
Proof.
  intros Hlen.
  assert (Hh : List.length (firstn 32 bs) = 32%nat) by (rewrite length_firstn; lia).
  destruct (firstn 32 bs) as [ | b0 rest ]; [ discriminate Hh | ].
  assert (Hr : List.length rest = 31%nat) by (cbn in Hh; lia).
  clear Hh Hlen bs.
  change (updateAt 0 (byteAnd 248) (b0 :: rest)) with (byteAnd 248 b0 :: rest).
  change (updateAt 31 (byteAnd 127) (byteAnd 248 b0 :: rest))
    with (byteAnd 248 b0 :: updateAt 30 (byteAnd 127) rest).
  change (updateAt 31 (byteOr 64) (byteAnd 248 b0 :: updateAt 30 (byteAnd 127) rest))
    with (byteAnd 248 b0 :: updateAt 30 (byteOr 64) (updateAt 30 (byteAnd 127) rest)).
  rewrite (updateAt_last (byteAnd 127) rest 30 Hr).
  set (mid := firstn 30 rest).
  assert (Hm : List.length mid = 30%nat) by (unfold mid; rewrite length_firstn; lia).
  set (b31 := nth 30 rest x00). clearbody mid b31. clear rest Hr.
  rewrite (updateAt_last (byteOr 64) (mid ++ [byteAnd 127 b31]) 30)
    by (rewrite length_app, Hm; reflexivity).
  rewrite app_nth2 by lia. rewrite Hm. change (30 - 30)%nat with 0%nat. cbn [nth].
  rewrite firstn_app, Hm. rewrite firstn_all2 by lia.
  change (30 - 30)%nat with 0%nat. cbn [firstn]. rewrite app_nil_r.
  rewrite valueLE_cons, valueLE_app, Hm.
  change (valueLE [byteOr 64 (byteAnd 127 b31)])
    with (b2z (byteOr 64 (byteAnd 127 b31)) + 256 * 0).
  pose proof (byteAnd_248 b0) as H0. pose proof (b2z_range (byteAnd 248 b0)) as R0.
  pose proof (clamp_high b31) as H31. pose proof (valueLE_range mid) as Rm.
  rewrite Hm in Rm.
  set (v0 := b2z (byteAnd 248 b0)) in *. set (v31 := b2z (byteOr 64 (byteAnd 127 b31))) in *.
  set (vm := valueLE mid) in *. clearbody v0 v31 vm.
  assert (E30 : 256 ^ Z.of_nat 30 = 2 ^ 240) by reflexivity. rewrite E30 in *.
  assert (E251 : 2 ^ 251 = 2 ^ 240 * 2048) by reflexivity.
  assert (E252 : 2 ^ 252 = 2 ^ 240 * 4096) by reflexivity.
  rewrite E251, E252.
  assert (Hp : 0 < 2 ^ 240) by reflexivity.
  set (q := 2 ^ 240) in *. clearbody q.
  exists (v0 / 8 + 32 * (vm + q * (v31 + 256 * 0))).
  clear - H0 R0 H31 Rm Hp.
  assert (E0 : v0 = 8 * (v0 / 8)) by (rewrite (Z.div_mod v0 8) at 1 by lia; lia).
  assert (0 <= v0 / 8 < 32) by (split; [ apply Z.div_pos; lia | apply Z.div_lt_upper_bound; lia ]).
  set (w := v0 / 8) in *. clearbody w.
  split; [ lia | ]. nia.
Qed.

Lemma order_odd : Z.gcd CURVE.n 8 = 1.
Proof. vm_compute. reflexivity. Qed.

Lemma order_above : 2 ^ 252 < CURVE.n.
Proof. vm_compute. reflexivity. Qed.

(** The private scalar derived from a hash of at least 32 bytes lies in
    [1, l): it is never 0. *)
Lemma encodePrivate_range (bs : bytes) :
  (32 <= List.length bs)%nat -> 0 < keyUtils.encodePrivate bs < CURVE.n.
Proof.
  intros Hlen. unfold keyUtils.encodePrivate. cbv zeta.
  destruct (clamp_spec bs Hlen) as (c & Ec & Hc).
  rewrite bytesToNumberLE_spec, Ec.
  rewrite (@mod__spec (8 * c) CURVE.n) by reflexivity.
  pose proof (Z.mod_pos_bound (8 * c) CURVE.n order_pos) as Hb.
  enough ((8 * c) mod CURVE.n <> 0) by lia.
  intros H0. apply Z.mod_divide in H0; [ | discriminate ].
  rewrite Z.mul_comm in H0.
  assert (Hd : (CURVE.n | c)).
  { apply (Z.gauss CURVE.n 8 c).
    - rewrite Z.mul_comm. exact H0.
    - exact order_odd. }
  destruct Hd as [k Hk].
  pose proof order_above as Ha. pose proof order_pos as Hn.
  assert (0 < 2 ^ 251) by reflexivity.
  set (l := CURVE.n) in *. set (a := 2 ^ 252) in *. set (b := 2 ^ 251) in *.
  clearbody l a b. clear - Hk Hc Ha Hn H.
  destruct (Z_le_gt_dec k 0) as [Hk0 | Hk0].
  - assert (k * l <= 0) by (apply Z.mul_nonpos_nonneg; lia). lia.
  - assert (1 * l <= k * l) by (apply Z.mul_le_mono_nonneg_r; lia). lia.
Qed.

(** ** Monadic plumbing *)

Lemma bind_lift_Ok {S A B : Type} (r : result A) (a : A) (k : A -> M S B) (h : S) :
  r = Ok a -> bind (lift r) k h = k a h.
Proof. intros ->. reflexivity. Qed.

Lemma bind_Ok {S A B : Type} (m : M S A) (a : A) (k : A -> M S B) (h h' : S) :
  m h = (Ok a, h') -> bind m k h = k a h'.
Proof. intros E. unfold bind. rewrite E. reflexivity. Qed.

Lemma bind_ret {S A B : Type} (a : A) (k : A -> M S B) (h : S) :
  bind (ret a) k h = k a h.
Proof. reflexivity. Qed.

Lemma ensureBytes_hex (bs : bytes) : ensureBytes (HexString (bytesToHex bs)) = Ok bs.
Proof. apply hexToBytes_bytesToHex. Qed.

Lemma Point_fromHex_ensure (hx : Hex) (bs : bytes) (h : ExtendedPoint.Heap) :
  ensureBytes hx = Ok bs -> Point.fromHex hx h = Point.fromHex (HexBytes bs) h.
Proof.
  intros E. unfold Point.fromHex.
  rewrite (bind_lift_Ok (ensureBytes hx) bs _ h E).
  rewrite (bind_lift_Ok (ensureBytes (HexBytes bs)) bs _ h eq_refl). reflexivity.
Qed.

Lemma Signature_fromHex_ensure (hx : Hex) (bs : bytes) (h : ExtendedPoint.Heap) :
  ensureBytes hx = Ok bs -> Signature.fromHex hx h = Signature.fromHex (HexBytes bs) h.
Proof.
  intros E. unfold Signature.fromHex.
  rewrite (bind_lift_Ok (ensureBytes hx) bs _ h E).
  rewrite (bind_lift_Ok (ensureBytes (HexBytes bs)) bs _ h eq_refl). reflexivity.
Qed.

Lemma toRawBytes_coords (P Q : Point.point) :
  coords P = coords Q -> Point.toRawBytes P = Point.toRawBytes Q.
Proof.
  destruct P as [x1 y1 o1], Q as [x2 y2 o2]. unfold coords. cbn [Point.x Point.y].
  intros E. injection E as -> ->. reflexivity.
Qed.

(** ** Signature encoding *)

(** [Signature.toRawBytes] appends the 32 little-endian bytes of s to the
    encoding of r. *)
Lemma Signature_toRawBytes_spec (sig : Signature.signature) :
  0 <= Signature.s sig < 2 ^ 256 ->
  exists sb : bytes,
    List.length sb = 32%nat /\ valueLE sb = Signature.s sig
    /\ Signature.toRawBytes sig = Ok (Point.toRawBytes (Signature.r sig) ++ sb).
Proof.
  intros Hs. unfold Signature.toRawBytes.
  destruct (numberToHex_spec (Signature.s sig) (proj1 Hs))
    as (ds & m & Ehex & Hds & Hval & Hlen & Hm1 & Hmin).
  assert (Hm : (m <= 32)%nat).
  { apply Hmin; [ lia | ]. change (256 ^ Z.of_nat 32) with (2 ^ 256). lia. }
  rewrite Ehex, (hexToBytes_digits m ds Hlen Hds). cbn [rbind]. cbv zeta.
  set (nb := rev (map z2b (pairUp ds))).
  assert (Hl : List.length nb = m).
  { unfold nb. rewrite length_rev, length_map. apply (@pairUp_length m ds Hlen). }
  assert (Hv : valueLE nb = Signature.s sig).
  { unfold nb. rewrite (valueLE_rev_pairUp m ds Hlen Hds). exact Hval. }
  clearbody nb.
  replace (32 <? List.length nb)%nat with false by (symmetry; apply Nat.ltb_ge; lia).
  exists (nb ++ repeat x00 (32 - List.length nb)).
  split; [ rewrite length_app, repeat_length; lia | ].
  split; [ rewrite valueLE_app, valueLE_repeat_zero; lia | reflexivity ].
Qed.

(** [Signature.toRawBytes] throws when s does not fit into 32 bytes. *)
Lemma Signature_toRawBytes_overflow (sig : Signature.signature) :
  2 ^ 256 <= Signature.s sig ->
  Signature.toRawBytes sig = Throw (RangeError "offset is out of bounds").
Proof.
  intros Hs. unfold Signature.toRawBytes.
  assert (H0 : 0 <= Signature.s sig) by (assert (0 < 2 ^ 256) by reflexivity; lia).
  destruct (numberToHex_spec (Signature.s sig) H0)
    as (ds & m & Ehex & Hds & Hval & Hlen & Hm1 & Hmin).
  rewrite Ehex, (hexToBytes_digits m ds Hlen Hds). cbn [rbind]. cbv zeta.
  set (nb := rev (map z2b (pairUp ds))).
  assert (Hl : List.length nb = m).
  { unfold nb. rewrite length_rev, length_map. apply (@pairUp_length m ds Hlen). }
  assert (Hv : valueLE nb = Signature.s sig).
  { unfold nb. rewrite (valueLE_rev_pairUp m ds Hlen Hds). exact Hval. }
  clearbody nb.
  assert (Hgt : (32 < List.length nb)%nat).
  { destruct (Nat.lt_ge_cases 32 (List.length nb)) as [ | Hle ]; [ assumption | exfalso ].
    pose proof (valueLE_range nb) as Hr. rewrite Hv in Hr.
    assert (256 ^ Z.of_nat (List.length nb) <= 256 ^ Z.of_nat 32)
      by (apply Z.pow_le_mono_r; lia).
    change (256 ^ Z.of_nat 32) with (2 ^ 256) in *. lia. }
  apply Nat.ltb_lt in Hgt. rewrite Hgt. reflexivity.
Qed.

Lemma firstn_app_exact {A : Type} (l1 l2 : list A) (n : nat) :
  List.length l1 = n -> firstn n (l1 ++ l2) = l1.
Proof.
  intros <-. rewrite firstn_app, Nat.sub_diag, firstn_all. cbn [firstn]. apply app_nil_r.
Qed.

Lemma skipn_app_exact {A : Type} (l1 l2 : list A) (n : nat) :
  List.length l1 = n -> skipn n (l1 ++ l2) = l2.
Proof.
  intros <-. rewrite skipn_app, Nat.sub_diag, skipn_all. reflexivity.
Qed.

(** Decoding a 64-byte signature whose first half encodes a curve point
    and whose second half is a scalar in (0, l). *)
Lemma Signature_fromHex_encoded (R : Point.point) (sb : bytes) (h : ExtendedPoint.Heap) :
  isPoint (coords R) -> 0 < valueLE sb < CURVE.n ->
  Signature.fromHex (HexBytes (Point.toRawBytes R ++ sb)) h
  = (Ok (Signature.new (Point.mk (Point.x R) (Point.y R) (ExtendedPoint.next_ref h))
                       (valueLE sb)),
     snd (Point.new (Point.x R) (Point.y R) h)).
Proof.
  intros HR Hs.
  assert (Hy : 0 <= Point.y R < 2 ^ 255).
  { destruct HR as [_ [_ Hy]]. unfold coords in Hy. cbn [snd] in Hy.
    assert (CURVE.P < 2 ^ 255) by (vm_compute; reflexivity). lia. }
  destruct (toRawBytes_spec R Hy) as [Hlen _].
  unfold Signature.fromHex.
  rewrite (bind_lift_Ok (ensureBytes (HexBytes (Point.toRawBytes R ++ sb))) _ _ h eq_refl).
  rewrite (firstn_app_exact _ sb 32 Hlen), (skipn_app_exact _ sb 32 Hlen).
  rewrite (bind_Ok _ _ _ h _ (fromHex_toRawBytes R h HR)).
  rewrite bytesToNumberLE_spec.
  assert (Hw : isWithinCurveOrder (valueLE sb) = true).
  { unfold isWithinCurveOrder, Ints.LT, Ints.lessThan.
    apply andb_true_intro. split; apply Z.ltb_lt; lia. }
  rewrite Hw. reflexivity.
Qed.

(** ** Signing *)

Lemma sha512ToNumberLE_range (env : Env) (args : list bytes) (v : Z) :
  sha512ToNumberLE env args = Ok v -> 0 <= v < CURVE.n.
Proof.
  unfold sha512ToNumberLE. destruct (sha512 env (concatBytes args) (sha512Impl env));
    cbn [rbind]; try discriminate.
  cbv zeta. intros E. injection E as <-.
  rewrite (@mod__spec _ CURVE.n) by reflexivity. apply Z.mod_pos_bound, order_pos.
Qed.

(** [Point.BASE.multiply(k)] for a scalar in [1, l). *)
Lemma BASE_multiply (k : Z) (h : ExtendedPoint.Heap) :
  0 < k < CURVE.n -> cacheOK h (Point.oid Point.BASE) basePoint ->
  exists h' : ExtendedPoint.Heap,
    Point.multiply JSBI Point.BASE (Big k) h
    = (Ok (pointOf (smul k basePoint) (ExtendedPoint.next_ref h)), h')
    /\ cacheOK h' (Point.oid Point.BASE) basePoint.
Proof.
  intros Hk Hc.
  destruct (Point_multiply_correct Point.BASE (Big k) h inSubgroup_base
              (Big_valid k (proj1 Hk)) Hc) as (h' & E & _ & _ & _ & Hc').
  exists h'. split; [ | exact Hc' ].
  rewrite E. cbn [scalarValue]. rewrite (Z.mod_small k CURVE.n) by lia. reflexivity.
Qed.

(** [sign] returns the encoding of R = [r]B followed by the 32 bytes of
    S = (r + h p) mod l, where p is the private scalar, r the nonce and
    h the challenge hash. *)
Lemma sign_spec (env : Env) (hash : Hex) (pk : PrivKey) (key privBytes msg : bytes)
      (r hs : Z) (h : ExtendedPoint.Heap) :
  backend env = JSBI ->
  keyUtils.normalizePrivateKey pk = Ok key ->
  sha512 env key None = Ok privBytes ->
  (32 <= List.length privBytes)%nat ->
  ensureBytes hash = Ok msg ->
  sha512ToNumberLE env [keyUtils.keyPrefix privBytes; msg] = Ok r ->
  r <> 0 ->
  sha512ToNumberLE env
    [Point.toRawBytes (pointOf (smul r basePoint) 0%nat);
     Point.toRawBytes (pointOf (smul (keyUtils.encodePrivate privBytes) basePoint) 0%nat);
     msg] = Ok hs ->
  cacheOK h (Point.oid Point.BASE) basePoint ->
  exists (out : Hex) (sb : bytes) (h' : ExtendedPoint.Heap),
    sign env hash pk h = (Ok out, h')
    /\ ensureBytes out = Ok (Point.toRawBytes (pointOf (smul r basePoint) 0%nat) ++ sb)
    /\ List.length sb = 32%nat
    /\ valueLE sb = (r + hs * keyUtils.encodePrivate privBytes) mod CURVE.n
    /\ isString out = isString hash
    /\ cacheOK h' (Point.oid Point.BASE) basePoint.
Proof.
  intros Hbe Hkey Hpriv Hlen Hmsg Hr Hr0 Hhs Hc.
  pose proof (encodePrivate_range privBytes Hlen) as Hp.
  pose proof (sha512ToNumberLE_range _ _ _ Hr) as Hrr.
  set (p := keyUtils.encodePrivate privBytes) in *.
  destruct (BASE_multiply p h Hp Hc) as (h1 & E1 & Hc1).
  destruct (BASE_multiply r h1 ltac:(lia) Hc1) as (h2 & E2 & Hc2).
  set (S := (r + hs * p) mod CURVE.n).
  assert (HS : 0 <= S < CURVE.n) by (apply Z.mod_pos_bound, order_pos).
  set (R0 := pointOf (smul r basePoint) (ExtendedPoint.next_ref h1)) in *.
  set (P0 := pointOf (smul p basePoint) (ExtendedPoint.next_ref h)) in *.
  assert (ER : Point.toRawBytes R0 = Point.toRawBytes (pointOf (smul r basePoint) 0%nat))
    by (apply toRawBytes_coords; unfold R0; rewrite !coords_pointOf; reflexivity).
  assert (EP : Point.toRawBytes P0 = Point.toRawBytes (pointOf (smul p basePoint) 0%nat))
    by (apply toRawBytes_coords; unfold P0; rewrite !coords_pointOf; reflexivity).
  destruct (Signature_toRawBytes_spec (Signature.new R0 S)) as (sb & Hsl & Hsv & Eraw).
  { cbn [Signature.s]. pose proof order_bound. lia. }
  cbn [Signature.s Signature.r] in Hsv, Eraw.
  assert (Esign : sign env hash pk h
                  = (if isString hash
                     then bind (lift (Signature.toHex (Signature.new R0 S)))
                            (fun hx => ret (HexString hx))
                     else bind (lift (Signature.toRawBytes (Signature.new R0 S)))
                            (fun bs => ret (HexBytes bs))) h2).
  { unfold sign. rewrite Hbe.
    rewrite (bind_lift_Ok _ key _ h Hkey).
    rewrite (bind_lift_Ok _ privBytes _ h Hpriv). cbv zeta.
    fold p.
    rewrite (bind_Ok _ _ _ h h1 E1).
    rewrite (bind_lift_Ok _ msg _ h1 Hmsg).
    rewrite (bind_lift_Ok _ r _ h1 Hr).
    rewrite (bind_Ok _ _ _ h1 h2 E2).
    rewrite ER, EP.
    rewrite (bind_lift_Ok _ hs _ h2 Hhs).
    unfold Ints.add, Ints.multiply.
    rewrite (@mod__spec (r + hs * p) CURVE.n) by reflexivity.
    reflexivity. }
  rewrite Esign, <- ER. clear Esign.
  destruct (isString hash) eqn:Hstr.
  - exists (HexString (bytesToHex (Point.toRawBytes R0 ++ sb))), sb, h2.
    split; [ | split; [ apply ensureBytes_hex
                      | split; [ exact Hsl | split; [ exact Hsv | split; [ reflexivity | exact Hc2 ] ] ] ] ].
    unfold Signature.toHex. rewrite Eraw. reflexivity.
  - exists (HexBytes (Point.toRawBytes R0 ++ sb)), sb, h2.
    split; [ | split; [ reflexivity
                      | split; [ exact Hsl | split; [ exact Hsv | split; [ reflexivity | exact Hc2 ] ] ] ] ].
    rewrite Eraw. reflexivity.
Qed.

(** [getPublicKey] returns the encoding of [p]B for the private scalar p. *)
Lemma getPublicKey_spec (env : Env) (pk : PrivKey) (key privBytes : bytes)
      (h : ExtendedPoint.Heap) :
  backend env = JSBI ->
  keyUtils.normalizePrivateKey pk = Ok key ->
  sha512 env key (sha512Impl env) = Ok privBytes ->
  (32 <= List.length privBytes)%nat ->
  cacheOK h (Point.oid Point.BASE) basePoint ->
  exists (out : Hex) (h' : ExtendedPoint.Heap),
    getPublicKey env pk h = (Ok out, h')
    /\ ensureBytes out
       = Ok (Point.toRawBytes (pointOf (smul (keyUtils.encodePrivate privBytes) basePoint) 0%nat))
    /\ cacheOK h' (Point.oid Point.BASE) basePoint.
Proof.
  intros Hbe Hkey Hpriv Hlen Hc.
  pose proof (encodePrivate_range privBytes Hlen) as Hp.
  set (p := keyUtils.encodePrivate privBytes) in *.
  destruct (BASE_multiply p h Hp Hc) as (h1 & E1 & Hc1).
  set (P0 := pointOf (smul p basePoint) (ExtendedPoint.next_ref h)) in *.
  assert (EP : Point.toRawBytes P0 = Point.toRawBytes (pointOf (smul p basePoint) 0%nat))
    by (apply toRawBytes_coords; unfold P0; rewrite !coords_pointOf; reflexivity).
  assert (Efrom : Point.fromPrivateKey env pk h = (Ok P0, h1)).
  { unfold Point.fromPrivateKey. rewrite Hbe.
    rewrite (bind_lift_Ok _ key _ h Hkey).
    rewrite (bind_lift_Ok _ privBytes _ h Hpriv). exact E1. }
  unfold getPublicKey. rewrite (bind_Ok _ _ _ h h1 Efrom). unfold ret.
  eexists _, h1. split; [ reflexivity | split; [ | exact Hc1 ] ].
  rewrite <- EP.
  destruct pk as [ [ b | s ] | k ]; try reflexivity.
  unfold Point.toHex. apply ensureBytes_hex.
Qed.

(** ** Verification *)

Lemma eadd_eneg_zero_iff (P Q : Z * Z) :
  isPoint P -> isPoint Q -> (eadd P (eneg Q) = ezero <-> P = Q).
Proof.
  intros HP HQ. split.
  - intros E. pose proof (eneg_unique P (eneg Q) HP (isPoint_eneg Q HQ) E) as E1.
    rewrite <- (eneg_involutive P) by apply HP.
    rewrite <- E1. apply eneg_involutive, HQ.
  - intros ->. apply eadd_neg_r, HQ.
Qed.

Lemma cofactor_inverse : (8 * ((3 * CURVE.n + 1) / 8)) mod CURVE.n = 1.
Proof. vm_compute. reflexivity. Qed.

(** Multiplication by the cofactor is injective on the subgroup. *)
Lemma smul_8_zero_iff (D : Z * Z) :
  inSubgroup D -> (smul 8 D = ezero <-> D = ezero).
Proof.
  intros HD. split.
  - intros E. rewrite <- (smul_1 D). rewrite <- cofactor_inverse.
    rewrite (smul_mod_order _ D HD).
    rewrite Z.mul_comm, (smul_mul _ 8 D (inSubgroup_isPoint D HD)), E.
    apply smul_ezero.
  - intros ->. apply smul_ezero.
Qed.

Section EqualsZero.

Add Field Fp_field11 : eqP_field_theory
  (setoid eqP_Equivalence eqP_ring_eq_ext, morphism eqP_morph, constants [Zcst]).

(** On the subgroup, [equals(ZERO)] tests for the identity. *)
Lemma equals_ZERO_iff (e : ExtendedPoint.point) (X : Z * Z) :
  inSubgroup X -> repr e X ->
  (ExtendedPoint.equals e ExtendedPoint.ZERO = true <-> X = ezero).
Proof.
  intros HX (Hz & Hx & Hy & Ht).
  unfold ExtendedPoint.equals, ExtendedPoint.ZERO.
  cbn [ExtendedPoint.t ExtendedPoint.z]. unfold Ints.equal, Ints.multiply.
  rewrite Z.eqb_eq. split.
  - intros E. apply (subgroup_fst_zero X HX).
    assert (E0 : ExtendedPoint.t e == 0).
    { transitivity (math.modP (ExtendedPoint.t e * 1));
        [ rewrite modP_eqP; ring | ].
      rewrite E, modP_eqP. ring. }
    rewrite Ht in E0.
    destruct (eqP_integral _ _ E0) as [E1 | E1]; [ | contradiction ].
    destruct (eqP_integral _ _ E1) as [E2 | E2]; [ exact E2 | ].
    exfalso. exact (subgroup_snd_nonzero X HX E2).
  - intros ->. apply modP_eq_of_eqP. rewrite Ht. unfold ezero. cbn [fst snd]. ring.
Qed.

End EqualsZero.

(** [verify] on a decoded signature (R, S) and public key A of the
    subgroup: it returns whether [S]B = R + [h]A, for the challenge h. *)
Lemma verify_spec (env : Env) (sig : Signature.signature) (pk : Point.point)
      (hash : Hex) (msg : bytes) (hs : Z) (h : ExtendedPoint.Heap) :
  backend env = JSBI ->
  ensureBytes hash = Ok msg ->
  inSubgroup (coords pk) -> inSubgroup (coords (Signature.r sig)) ->
  0 < Signature.s sig ->
  sha512ToNumberLE env [Point.toRawBytes (Signature.r sig); Point.toRawBytes pk; msg] = Ok hs ->
  hs <> 0 ->
  exists b : bool,
    verify env (SigObject sig) hash (PubPoint pk) h = (Ok b, h)
    /\ (b = true <->
        smul (Signature.s sig) basePoint
        = eadd (coords (Signature.r sig)) (smul hs (coords pk))).
Proof.
  intros Hbe Hmsg HA HR HS Hhs Hhs0.
  pose proof (sha512ToNumberLE_range _ _ _ Hhs) as Hhr.
  set (A := coords pk) in *. set (R := coords (Signature.r sig)) in *.
  set (S := Signature.s sig) in *.
  destruct (multiplyUnsafe_correct (affineExt A) A hs HA (repr_affineExt A) ltac:(lia))
    as (e1 & E1 & R1).
  rewrite (Z.mod_small hs CURVE.n) in R1 by lia.
  destruct (multiplyUnsafe_correct ExtendedPoint.BASE basePoint S inSubgroup_base repr_BASE HS)
    as (e2 & E2 & R2).
  rewrite (smul_mod_order S basePoint inSubgroup_base) in R2.
  pose proof (inSubgroup_smul hs A HA) as HhA.
  pose proof (inSubgroup_smul S basePoint inSubgroup_base) as HSB.
  pose proof (add_correct_subgroup (affineExt R) e1 R (smul hs A) HR HhA
                (repr_affineExt R) R1) as R3.
  pose proof (inSubgroup_eadd _ _ HR HhA) as HRhA.
  pose proof (add_correct_subgroup _ (ExtendedPoint.negate e2) _ (eneg (smul S basePoint))
                HRhA (inSubgroup_eneg _ HSB) R3 (negate_correct e2 _ R2)) as R4.
  pose proof (inSubgroup_eadd _ _ HRhA (inSubgroup_eneg _ HSB)) as HD.
  set (D := eadd (eadd R (smul hs A)) (eneg (smul S basePoint))) in *.
  destruct (multiplyUnsafe_correct _ D 8 HD R4 ltac:(lia)) as (e3 & E3 & R5).
  change (8 mod CURVE.n) with 8 in R5.
  exists (ExtendedPoint.equals e3 ExtendedPoint.ZERO). split.
  - unfold verify. rewrite Hbe.
    rewrite (bind_lift_Ok _ msg _ h Hmsg).
    rewrite bind_ret, bind_ret.
    rewrite (bind_lift_Ok _ hs _ h Hhs).
    change (Point.asObject pk) with (ExtendedPoint.affineObject A).
    change (Point.asObject (Signature.r sig)) with (ExtendedPoint.affineObject R).
    rewrite (bind_lift_Ok _ _ _ h (fromAffine_JSBI_point A (proj1 (proj1 HA)))).
    rewrite (bind_lift_Ok _ _ _ h E1).
    fold S. rewrite (bind_lift_Ok _ _ _ h E2).
    rewrite (bind_lift_Ok _ _ _ h (fromAffine_JSBI_point R (proj1 (proj1 HR)))).
    cbv zeta. unfold ExtendedPoint.subtract at 1.
    rewrite (bind_lift_Ok _ _ _ h E3). reflexivity.
  - rewrite (equals_ZERO_iff e3 (smul 8 D) (inSubgroup_smul 8 D HD) R5).
    rewrite (smul_8_zero_iff D HD). unfold D.
    rewrite (eadd_eneg_zero_iff _ _ (inSubgroup_isPoint _ HRhA) (inSubgroup_isPoint _ HSB)).
    split; intros E; symmetry; exact E.
Qed.

(** Decoding the arguments first: [verify] on encodings behaves as on the
    decoded objects. *)
Lemma verify_decode (env : Env) (sx px hash : Hex) (msg : bytes)
      (sig : Signature.signature) (pk : Point.point) (h h1 h2 : ExtendedPoint.Heap) :
  ensureBytes hash = Ok msg ->
  Point.fromHex px h = (Ok pk, h1) ->
  Signature.fromHex sx h1 = (Ok sig, h2) ->
  verify env (SigHex sx) hash (PubHex px) h
  = verify env (SigObject sig) hash (PubPoint pk) h2.
Proof.
  intros Hmsg Hpk Hsig. unfold verify.
  rewrite (bind_lift_Ok _ msg _ h Hmsg), (bind_lift_Ok _ msg _ h2 Hmsg).
  rewrite (bind_Ok _ _ _ h h1 Hpk), (bind_Ok _ _ _ h1 h2 Hsig).
  rewrite bind_ret, bind_ret. reflexivity.
Qed.


(** ** Scalars (scalars.ts) *)

Module Scalars.

Definition serializeScalar (n : Z) : result bytes :=
  let reduced := math.mod_ n CURVE.n in
  serializer.numberToBytesPadded reduced 32.

Definition deserializeScalar (buf : bytes) : Z :=
  math.mod_ (serializer.bytesToNumberLE buf) CURVE.n.

(** [Math.ceil(k / 2)] for an integer [k]. *)
Definition ceilHalf (k : Z) : Z := - ((- k) / 2).

Definition serializeNumber (n : Z) : result bytes :=
  let len := ceilHalf (strlen (toString16 n) - 2) in
  serializer.numberToBytesPadded n len.

Definition deserializeNumber (buf : bytes) : Z :=
  serializer.bytesToNumberLE buf.

End Scalars.

(** ** Random scalars (curve.ts, [randomScalar])

    The generator [randomBytes] is a function of its own state; the loop
    [let i = 1024; while (i--)] draws at most 1024 samples. *)

Definition RandGen (G : Type) : Type := Z -> G -> bytes * G.

Fixpoint randomScalar_loop {G : Type} (i : nat) (randomBytes : RandGen G) (g : G)
  : result bytes * G :=
  match i with
  | O => (Throw (Error "Valid private key was not found in 1024 iterations. PRNG is broken"), g)
  | S i' =>
      let '(b32, g') := randomBytes 32 g in
      let num := serializer.bytesToNumberLE b32 in
      if Ints.greaterThan num 1 && Ints.lessThan num CURVE.n then (Ok b32, g')
      else randomScalar_loop i' randomBytes g'
  end.

Definition randomScalar {G : Type} (randomBytes : RandGen G) : M G bytes :=
  randomScalar_loop 1024 randomBytes.

(** The state of the generator after [k] draws of 32 bytes. *)
Fixpoint draws {G : Type} (k : nat) (randomBytes : RandGen G) (g : G) : G :=
  match k with
  | O => g
  | S k' => draws k' randomBytes (snd (randomBytes 32 g))
  end.

Definition validSample (b32 : bytes) : bool :=
  Ints.greaterThan (serializer.bytesToNumberLE b32) 1
  && Ints.lessThan (serializer.bytesToNumberLE b32) CURVE.n.

Lemma serializeScalar_spec (n : Z) :
  exists bs : bytes,
    Scalars.serializeScalar n = Ok bs
    /\ List.length bs = 32%nat
    /\ valueLE bs = n mod CURVE.n.
Proof.
  unfold Scalars.serializeScalar. cbv zeta.
  rewrite (@mod__spec n CURVE.n) by reflexivity.
  pose proof (Z.mod_pos_bound n CURVE.n order_pos) as Hr.
  destruct (numberToBytesPadded_spec (n mod CURVE.n) 32 (proj1 Hr)) as (bs & E & Hv & Hl).
  exists bs. split; [ exact E | split; [ | exact Hv ] ].
  apply Nat2Z.inj. apply Hl; [ lia | ].
  pose proof order_bound. change (256 ^ 32) with (2 ^ 256). lia.
Qed.

(** X28.  [serializeScalar] writes n mod l as exactly 32 bytes, from which
    [deserializeScalar] reads n mod l back. *)
Theorem Scalars_roundtrip (n : Z) :
  exists bs : bytes,
    Scalars.serializeScalar n = Ok bs
    /\ List.length bs = 32%nat
    /\ Scalars.deserializeScalar bs = n mod CURVE.n.
Proof.
  destruct (serializeScalar_spec n) as (bs & E & Hl & Hv).
  exists bs. split; [ exact E | split; [ exact Hl | ] ].
  unfold Scalars.deserializeScalar. rewrite bytesToNumberLE_spec, Hv.
  rewrite (@mod__spec _ CURVE.n) by reflexivity.
  apply Z.mod_mod. discriminate.
Qed.

(** X29.  Conversely, a canonical 32-byte scalar (value below l) is reproduced
    by [serializeScalar] after [deserializeScalar]. *)
Theorem Scalars_canonical_roundtrip (buf : bytes) :
  List.length buf = 32%nat -> serializer.bytesToNumberLE buf < CURVE.n ->
  Scalars.serializeScalar (Scalars.deserializeScalar buf) = Ok buf.
Proof.
  intros Hl Hv. unfold Scalars.serializeScalar, Scalars.deserializeScalar. cbv zeta.
  rewrite !(@mod__spec _ CURVE.n) by reflexivity.
  rewrite Z.mod_mod by discriminate.
  assert (H0 : 0 <= serializer.bytesToNumberLE buf)
    by (rewrite bytesToNumberLE_spec; apply valueLE_range).
  rewrite Z.mod_small by lia.
  pose proof (numberToBytesPadded_bytesToNumberLE buf ltac:(lia)) as E.
  rewrite Hl in E. exact E.
Qed.

Lemma deserializeNumber_serializeNumber (n : Z) :
  0 <= n ->
  exists bs : bytes,
    Scalars.serializeNumber n = Ok bs /\ Scalars.deserializeNumber bs = n.
Proof.
  intros Hn. unfold Scalars.serializeNumber, Scalars.deserializeNumber. cbv zeta.
  destruct (numberToBytesPadded_spec n
              (Scalars.ceilHalf (strlen (toString16 n) - 2)) Hn) as (bs & E & Hv & _).
  exists bs. split; [ exact E | ]. rewrite bytesToNumberLE_spec. exact Hv.
Qed.

Lemma randomScalar_loop_sound {G : Type} (randomBytes : RandGen G) (i : nat) :
  forall (g g' : G) (b32 : bytes),
    randomScalar_loop i randomBytes g = (Ok b32, g') ->
    1 < serializer.bytesToNumberLE b32 < CURVE.n
    /\ exists k : nat, (k < i)%nat
         /\ randomBytes 32 (draws k randomBytes g) = (b32, g').
Proof.
  induction i as [ | i IH ]; intros g g' b32 E; [ discriminate E | ].
  cbn [randomScalar_loop] in E.
  destruct (randomBytes 32 g) as [b g1] eqn:Eg.
  destruct (Ints.greaterThan (serializer.bytesToNumberLE b) 1
            && Ints.lessThan (serializer.bytesToNumberLE b) CURVE.n) eqn:Ev.
  - injection E as <- <-. split.
    + apply andb_prop in Ev. destruct Ev as [E1 E2].
      unfold Ints.greaterThan in E1. unfold Ints.lessThan in E2.
      rewrite Z.gtb_ltb in E1. apply Z.ltb_lt in E1. apply Z.ltb_lt in E2. lia.
    + exists 0%nat. split; [ lia | exact Eg ].
  - destruct (IH g1 g' b32 E) as (Hr & k & Hk & Ek). split; [ exact Hr | ].
    exists (S k). split; [ lia | ]. cbn [draws]. rewrite Eg. exact Ek.
Qed.

Lemma randomScalar_loop_first {G : Type} (randomBytes : RandGen G) (i : nat) :
  forall (g : G) (k : nat),
    (k < i)%nat ->
    (forall j : nat, (j < k)%nat ->
       validSample (fst (randomBytes 32 (draws j randomBytes g))) = false) ->
    validSample (fst (randomBytes 32 (draws k randomBytes g))) = true ->
    randomScalar_loop i randomBytes g
    = (Ok (fst (randomBytes 32 (draws k randomBytes g))),
       snd (randomBytes 32 (draws k randomBytes g))).
Proof.
  induction i as [ | i IH ]; intros g k Hk Hbad Hgood; [ lia | ].
  cbn [randomScalar_loop].
  destruct k as [ | k ].
  - cbn [draws] in *. destruct (randomBytes 32 g) as [b g1]. cbn [fst snd] in *.
    unfold validSample in Hgood. rewrite Hgood. reflexivity.
  - pose proof (Hbad 0%nat ltac:(lia)) as H0. cbn [draws] in H0, Hgood |- *.
    assert (Hbad' : forall j : nat, (j < k)%nat ->
              validSample (fst (randomBytes 32
                 (draws j randomBytes (snd (randomBytes 32 g))))) = false).
    { intros j Hj. apply (Hbad (S j)). lia. }
    destruct (randomBytes 32 g) as [b g1]. cbn [fst snd] in *.
    unfold validSample in H0. rewrite H0.
    apply IH; [ lia | exact Hbad' | exact Hgood ].
Qed.

Lemma randomScalar_loop_none {G : Type} (randomBytes : RandGen G) (i : nat) :
  forall g : G,
    (forall j : nat, (j < i)%nat ->
       validSample (fst (randomBytes 32 (draws j randomBytes g))) = false) ->
    randomScalar_loop i randomBytes g
    = (Throw (Error "Valid private key was not found in 1024 iterations. PRNG is broken"),
       draws i randomBytes g).
Proof.
  induction i as [ | i IH ]; intros g Hbad; [ reflexivity | ].
  cbn [randomScalar_loop draws].
  pose proof (Hbad 0%nat ltac:(lia)) as H0. cbn [draws] in H0.
  assert (Hbad' : forall j : nat, (j < i)%nat ->
            validSample (fst (randomBytes 32
               (draws j randomBytes (snd (randomBytes 32 g))))) = false).
  { intros j Hj. apply (Hbad (S j)). lia. }
  destruct (randomBytes 32 g) as [b g1]. cbn [fst snd] in *.
  unfold validSample in H0. rewrite H0. apply IH. exact Hbad'.
Qed.

(* ================================================================== *)
(** * Further verified properties *)

(** ** Field arithmetic (math.ts) *)

Lemma finv_spec (z : Z) : z mod CURVE.P <> 0 -> (finv z * z) mod CURVE.P = 1.
Proof. intros Hz. unfold finv. apply Z.invmod_prime; [ exact prime_P | exact Hz ]. Qed.

(** X1.  [invert(z)] (modulus p): for z not a multiple of p the result is the
    inverse of z modulo p, reduced to [0, p). *)
Theorem invert_inverse (z : Z) :
  z mod CURVE.P <> 0 ->
  exists r : Z,
    math.invert z CURVE.P = Ok r /\ 0 <= r < CURVE.P /\ (r * z) mod CURVE.P = 1.
Proof.
  intros Hz. exists (finv z). split; [ | split; [ apply finv_range | apply finv_spec, Hz ] ].
  apply invert_correct. intros H0. apply Hz. apply eqP_0_iff. exact H0.
Qed.

Lemma invert_inverse_witness :
  exists r : Z,
    math.invert 2 CURVE.P = Ok r /\ 0 <= r < CURVE.P /\ (r * 2) mod CURVE.P = 1.
Proof. apply (invert_inverse 2). vm_compute. discriminate. Defined.



(** X3.  [invertBatch] on numbers that are not multiples of p returns their
    inverses modulo p, in order. *)
Theorem invertBatch_inverses (nums : list Z) :
  Forall (fun z => z mod CURVE.P <> 0) nums ->
  exists rs : list Z,
    math.invertBatch nums CURVE.P = Ok rs
    /\ Forall2 (fun z r => 0 <= r < CURVE.P /\ (r * z) mod CURVE.P = 1) nums rs.
Proof.
  intros Hn. exists (map finv nums). split.
  - apply invertBatch_correct. revert Hn. apply Forall_impl.
    intros z Hz H0. apply Hz. apply eqP_0_iff. exact H0.
  - induction Hn as [ | z nums Hz _ IH ]; cbn [map]; constructor.
    + split; [ apply finv_range | apply finv_spec, Hz ].
    + exact IH.
Qed.

Lemma invertBatch_inverses_witness :
  exists rs : list Z,
    math.invertBatch [2; 3] CURVE.P = Ok rs
    /\ Forall2 (fun z r => 0 <= r < CURVE.P /\ (r * z) mod CURVE.P = 1) [2; 3] rs.
Proof.
  apply (invertBatch_inverses [2; 3]).
  apply Forall_cons; [ vm_compute; discriminate | ].
  apply Forall_cons; [ vm_compute; discriminate | apply Forall_nil ].
Defined.

(** X4.  [pow_2_252_3(x)] is x^(2^252 - 3) modulo p, computed by the addition
    chain of squarings [pow2(x, k)] = x^(2^k) modulo p. *)
Theorem pow_2_252_3_exponent (x : Z) (k : N) :
  math.pow_2_252_3 x mod CURVE.P = x ^ (2 ^ 252 - 3) mod CURVE.P
  /\ math.pow2 x (Z.of_N k) mod CURVE.P = x ^ (2 ^ Z.of_N k) mod CURVE.P.
Proof.
  split; [ exact (pow_2_252_3_spec x) | ].
  exact (pow2_spec x (Z.of_N k) (N2Z.is_nonneg k)).
Qed.

(** X5.  Completeness of [uvRatio]: for u in [0, p) and v not a multiple of p,
    if u = x^2 v modulo p for some x, the result is flagged valid (and, by
    soundness, its value is such a root). *)
Theorem uvRatio_finds_root (u v x : Z) :
  0 <= u < CURVE.P -> v mod CURVE.P <> 0 -> (x * x * v) mod CURVE.P = u ->
  math.isValid (math.uvRatio u v) = true
  /\ (math.value (math.uvRatio u v) * math.value (math.uvRatio u v) * v) mod CURVE.P = u.
Proof.
  intros Hu Hv Hx.
  assert (Hv' : ~ v == 0) by (intros E; apply Hv; apply eqP_0_iff; exact E).
  assert (Hx' : x * x * v == u).
  { unfold eqP. rewrite Hx. symmetry. apply Z.mod_small, Hu. }
  pose proof (uvRatio_complete u v x Hu Hv' Hx') as Hvalid.
  split; [ exact Hvalid | ].
  destruct (uvRatio_root u v Hu) as (_ & _ & Hsq).
  specialize (Hsq Hvalid). unfold eqP in Hsq. rewrite Hsq. apply Z.mod_small, Hu.
Qed.

Lemma uvRatio_finds_root_witness :
  math.isValid (math.uvRatio 4 1) = true
  /\ (math.value (math.uvRatio 4 1) * math.value (math.uvRatio 4 1) * 1) mod CURVE.P = 4.
Proof.
  apply (uvRatio_finds_root 4 1 2).
  - vm_compute. split; congruence.
  - vm_compute. discriminate.
  - vm_compute. reflexivity.
Defined.

(** ** Extended points (points.ts, [makeExtendedPointClass]) *)

(** X6.  [double] is complete: on any representative of any curve point it
    returns a representative of the double. *)
Theorem ExtendedPoint_double_correct (e : ExtendedPoint.point) (A : Z * Z) :
  onCurve A -> repr e A -> repr (ExtendedPoint.double e) (eadd A A).
Proof. apply double_correct. Qed.

Lemma ExtendedPoint_double_correct_witness :
  repr (ExtendedPoint.double ExtendedPoint.BASE) (eadd basePoint basePoint).
Proof.
  apply (ExtendedPoint_double_correct ExtendedPoint.BASE basePoint).
  - exact (proj1 isPoint_base).
  - exact repr_BASE.
Defined.

(** X7.  On the subgroup of order l, [add], [subtract] and [negate] compute the
    group operations: the results represent A1 + A2, A1 - A2 and -A1. *)
Theorem ExtendedPoint_add_correct (e1 e2 : ExtendedPoint.point) (A1 A2 : Z * Z) :
  inSubgroup A1 -> inSubgroup A2 -> repr e1 A1 -> repr e2 A2 ->
  repr (ExtendedPoint.add e1 e2) (eadd A1 A2)
  /\ repr (ExtendedPoint.subtract e1 e2) (eadd A1 (eneg A2))
  /\ repr (ExtendedPoint.negate e1) (eneg A1).
Proof.
  intros H1 H2 R1 R2. split; [ | split ].
  - apply add_correct_subgroup; assumption.
  - unfold ExtendedPoint.subtract. apply add_correct_subgroup; try assumption.
    + apply inSubgroup_eneg, H2.
    + apply negate_correct, R2.
  - apply negate_correct, R1.
Qed.

Lemma ExtendedPoint_add_correct_witness :
  repr (ExtendedPoint.add ExtendedPoint.BASE ExtendedPoint.ZERO) (eadd basePoint ezero)
  /\ repr (ExtendedPoint.subtract ExtendedPoint.BASE ExtendedPoint.ZERO)
          (eadd basePoint (eneg ezero))
  /\ repr (ExtendedPoint.negate ExtendedPoint.BASE) (eneg basePoint).
Proof.
  apply (ExtendedPoint_add_correct ExtendedPoint.BASE ExtendedPoint.ZERO basePoint ezero).
  - exact inSubgroup_base.
  - exact inSubgroup_ezero.
  - exact repr_BASE.
  - exact repr_ZERO.
Defined.

(** X8.  [fromAffine] (JSBI back-end) turns a curve point into a representative
    of it, and [toAffine] maps every representative back to the point. *)
Theorem toAffine_fromAffine (A : Z * Z) :
  isPoint A ->
  (exists e : ExtendedPoint.point,
      ExtendedPoint.fromAffine JSBI (ExtendedPoint.affineObject A) = Ok e /\ repr e A)
  /\ (forall e : ExtendedPoint.point, repr e A -> ExtendedPoint.toAffine e = Ok A).
Proof.
  intros [Hon Hred]. split.
  - exists (affineExt A). split; [ apply fromAffine_JSBI_point, Hon | apply repr_affineExt ].
  - intros e He. apply toAffine_correct; assumption.
Qed.

Lemma toAffine_fromAffine_witness :
  (exists e : ExtendedPoint.point,
      ExtendedPoint.fromAffine JSBI (ExtendedPoint.affineObject basePoint) = Ok e
      /\ repr e basePoint)
  /\ (forall e : ExtendedPoint.point, repr e basePoint -> ExtendedPoint.toAffine e = Ok basePoint).
Proof. apply (toAffine_fromAffine basePoint). exact isPoint_base. Defined.

(** X9.  [toAffineBatch] returns the affine points of its arguments, and
    [normalizeZ] (JSBI back-end) representatives of the same points. *)
Theorem toAffineBatch_points (es : list ExtendedPoint.point) (As : list (Z * Z)) :
  Forall2 repr es As -> Forall isPoint As ->
  ExtendedPoint.toAffineBatch es = Ok As
  /\ exists es' : list ExtendedPoint.point,
       ExtendedPoint.normalizeZ JSBI es = Ok es'
       /\ Forall2 repr es' As
       /\ Forall (fun e => ExtendedPoint.z e = 1) es'.
Proof.
  intros Hr Hp. split.
  - apply toAffineBatch_correct; [ exact Hr | ].
    revert Hp. apply Forall_impl. intros A HA. apply HA.
  - exists (map affineExt As). split; [ apply normalizeZ_correct; assumption | ].
    split; [ apply Forall2_repr_affineExt | ].
    clear. induction As as [ | A As IH ]; cbn [map]; constructor; [ reflexivity | exact IH ].
Qed.

Lemma toAffineBatch_points_witness :
  ExtendedPoint.toAffineBatch [ExtendedPoint.BASE; ExtendedPoint.ZERO] = Ok [basePoint; ezero]
  /\ exists es' : list ExtendedPoint.point,
       ExtendedPoint.normalizeZ JSBI [ExtendedPoint.BASE; ExtendedPoint.ZERO] = Ok es'
       /\ Forall2 repr es' [basePoint; ezero]
       /\ Forall (fun e => ExtendedPoint.z e = 1) es'.
Proof.
  apply (toAffineBatch_points [ExtendedPoint.BASE; ExtendedPoint.ZERO] [basePoint; ezero]).
  - apply Forall2_cons; [ exact repr_BASE | ].
    apply Forall2_cons; [ exact repr_ZERO | apply Forall2_nil ].
  - apply Forall_cons; [ exact isPoint_base | ].
    apply Forall_cons; [ exact isPoint_ezero | apply Forall_nil ].
Defined.

(** X10.  The table of [precomputeWindow(W)] for a point A of the subgroup:
    entry j of window w represents (j + 1) 2^(W w) A. *)
Theorem precomputeWindow_table (W : Z) (e : ExtendedPoint.point) (A : Z * Z)
        (w : nat) (j : Z) :
  1 <= W -> inSubgroup A -> repr e A ->
  (w < Z.to_nat (ExtendedPoint.windowCount W))%nat -> 0 <= j < 2 ^ (W - 1) ->
  exists e' : ExtendedPoint.point,
    nth_error (ExtendedPoint.precomputeWindow e W)
              (Z.to_nat (Z.of_nat w * 2 ^ (W - 1) + j)) = Some e'
    /\ repr e' (smul ((j + 1) * 2 ^ (W * Z.of_nat w)) A).
Proof.
  intros HW HA He Hw Hj.
  apply (Forall2_nth_error_r repr _ _ (precomputeWindow_correct W e A HW HA He)).
  apply (tableSpec_nth W HW); [ apply inSubgroup_isPoint, HA | exact Hw | exact Hj ].
Qed.

Lemma precomputeWindow_table_witness :
  exists e' : ExtendedPoint.point,
    nth_error (ExtendedPoint.precomputeWindow ExtendedPoint.BASE 8)
              (Z.to_nat (Z.of_nat 1 * 2 ^ (8 - 1) + 2)) = Some e'
    /\ repr e' (smul ((2 + 1) * 2 ^ (8 * Z.of_nat 1)) basePoint).
Proof.
  apply (precomputeWindow_table 8 ExtendedPoint.BASE basePoint 1 2).
  - lia.
  - exact inSubgroup_base.
  - exact repr_BASE.
  - vm_compute. lia.
  - vm_compute. split; congruence.
Defined.

(** X11.  [multiplyUnsafe(k)] on a representative of a subgroup point A, k >= 1:
    the result represents (k mod l) A. *)
Theorem multiplyUnsafe_spec (e : ExtendedPoint.point) (A : Z * Z) (k : Z) :
  inSubgroup A -> repr e A -> 0 < k ->
  exists e' : ExtendedPoint.point,
    ExtendedPoint.multiplyUnsafe e k = Ok e' /\ repr e' (smul (k mod CURVE.n) A).
Proof. apply multiplyUnsafe_correct. Qed.

Lemma multiplyUnsafe_spec_witness :
  exists e' : ExtendedPoint.point,
    ExtendedPoint.multiplyUnsafe ExtendedPoint.BASE 5 = Ok e'
    /\ repr e' (smul (5 mod CURVE.n) basePoint).
Proof.
  apply (multiplyUnsafe_spec ExtendedPoint.BASE basePoint 5).
  - exact inSubgroup_base.
  - exact repr_BASE.
  - lia.
Defined.

(** ** Affine points (points.ts, [makePointClass]) *)

Lemma makeED_cache : cacheOK makeED_heap (Point.oid Point.BASE) basePoint.
Proof. split; [ reflexivity | exact I ]. Qed.





Lemma Point_multiply_rejects_bad_window_witness :
  Point.multiply JSBI Point.BASE (Big 2)
    {| ExtendedPoint.next_ref := 3%nat;
       ExtendedPoint.WINDOW_SIZE := [(Point.oid Point.BASE, 3%N)];
       ExtendedPoint.pointPrecomputes := [] |}
  = (Throw (Error "Point#wNAF: Invalid precomputation window, must be power of 2"),
     {| ExtendedPoint.next_ref := 3%nat;
        ExtendedPoint.WINDOW_SIZE := [(Point.oid Point.BASE, 3%N)];
        ExtendedPoint.pointPrecomputes := [] |}).
Proof.
  apply (Point_multiply_rejects_bad_window Point.BASE (Big 2)).
  - exact (proj1 isPoint_base).
  - reflexivity.
  - vm_compute. discriminate.
Defined.



(** ** Bytes, hexadecimal strings and numbers (serialization.ts) *)

(** X17.  [hexToBytes] inverts [bytesToHex], whose output has two characters
    per byte. *)
Theorem hexToBytes_bytesToHex_roundtrip (bs : bytes) :
  hexToBytes (bytesToHex bs) = Ok bs
  /\ String.length (bytesToHex bs) = (2 * List.length bs)%nat.
Proof. split; [ apply hexToBytes_bytesToHex | apply bytesToHex_length ]. Qed.

(** [hexToBytes] rejects a string of odd length. *)
Theorem hexToBytes_rejects_odd_length (s : string) :
  Nat.odd (String.length s) = true ->
  hexToBytes s = Throw (Error "hexToBytes: received invalid unpadded hex").
Proof. apply hexToBytes_odd. Qed.

Lemma hexToBytes_rejects_odd_length_witness :
  hexToBytes "abc" = Throw (Error "hexToBytes: received invalid unpadded hex").
Proof. apply (hexToBytes_rejects_odd_length "abc"). reflexivity. Defined.

(** X18.  [numberToBytesPadded(n, len)] never throws for n >= 0; its bytes are
    the little-endian form of n ([bytesToNumberLE] gives n back), and there
    are exactly [len] of them when n < 256^len and len >= 1. *)
Theorem numberToBytesPadded_little_endian (n len : Z) :
  0 <= n ->
  exists bs : bytes,
    serializer.numberToBytesPadded n len = Ok bs
    /\ serializer.bytesToNumberLE bs = n
    /\ (1 <= len -> n < 256 ^ len -> Z.of_nat (List.length bs) = len).
Proof.
  intros Hn. destruct (numberToBytesPadded_spec n len Hn) as (bs & E & Hv & Hl).
  exists bs. split; [ exact E | split; [ | exact Hl ] ].
  rewrite bytesToNumberLE_spec. exact Hv.
Qed.

Lemma numberToBytesPadded_little_endian_witness :
  exists bs : bytes,
    serializer.numberToBytesPadded 258 4 = Ok bs
    /\ serializer.bytesToNumberLE bs = 258
    /\ (1 <= 4 -> 258 < 256 ^ 4 -> Z.of_nat (List.length bs) = 4).
Proof. apply (numberToBytesPadded_little_endian 258 4). lia. Defined.

(** Conversely, encoding the value of a non-empty byte string with its
    own length gives the byte string back. *)
Theorem numberToBytesPadded_roundtrip (bs : bytes) :
  (1 <= List.length bs)%nat ->
  serializer.numberToBytesPadded (serializer.bytesToNumberLE bs) (Z.of_nat (List.length bs))
  = Ok bs.
Proof. apply numberToBytesPadded_bytesToNumberLE. Qed.

Lemma numberToBytesPadded_roundtrip_witness :
  serializer.numberToBytesPadded (serializer.bytesToNumberLE [x00; x01; x00])
    (Z.of_nat (List.length [x00; x01; x00]))
  = Ok [x00; x01; x00].
Proof. apply (numberToBytesPadded_roundtrip [x00; x01; x00]). cbn. lia. Defined.

(** ** Point encoding *)

(** X19.  [toRawBytes] of a point with 0 <= y < 2^255 is 32 bytes long; read as
    a little-endian number it is y, plus 2^255 when x is odd. *)
Theorem Point_toRawBytes_encoding (P : Point.point) :
  0 <= Point.y P < 2 ^ 255 ->
  List.length (Point.toRawBytes P) = 32%nat
  /\ serializer.bytesToNumberLE (Point.toRawBytes P)
     = Point.y P + (if Z.odd (Point.x P) then 2 ^ 255 else 0).
Proof.
  intros Hy. destruct (toRawBytes_spec P Hy) as [Hl Hv].
  split; [ exact Hl | ]. rewrite bytesToNumberLE_spec. exact Hv.
Qed.

Lemma Point_toRawBytes_encoding_witness :
  List.length (Point.toRawBytes Point.BASE) = 32%nat
  /\ serializer.bytesToNumberLE (Point.toRawBytes Point.BASE)
     = Point.y Point.BASE + (if Z.odd (Point.x Point.BASE) then 2 ^ 255 else 0).
Proof. apply (Point_toRawBytes_encoding Point.BASE). vm_compute. split; congruence. Defined.

(** X20.  Decoding the encoding of a curve point, as bytes or as a hexadecimal
    string, allocates a new point with the same coordinates. *)
Theorem Point_fromHex_toRawBytes_roundtrip (P : Point.point) (h : ExtendedPoint.Heap) :
  isPoint (coords P) ->
  Point.fromHex (HexBytes (Point.toRawBytes P)) h = Point.new (Point.x P) (Point.y P) h
  /\ Point.fromHex (HexString (Point.toHex P)) h = Point.new (Point.x P) (Point.y P) h.
Proof.
  intros HP. split; [ apply fromHex_toRawBytes, HP | ].
  unfold Point.toHex.
  rewrite (Point_fromHex_ensure _ _ h (ensureBytes_hex (Point.toRawBytes P))).
  apply fromHex_toRawBytes, HP.
Qed.

Lemma Point_fromHex_toRawBytes_roundtrip_witness :
  Point.fromHex (HexBytes (Point.toRawBytes Point.BASE)) makeED_heap
  = Point.new (Point.x Point.BASE) (Point.y Point.BASE) makeED_heap
  /\ Point.fromHex (HexString (Point.toHex Point.BASE)) makeED_heap
     = Point.new (Point.x Point.BASE) (Point.y Point.BASE) makeED_heap.
Proof. apply (Point_fromHex_toRawBytes_roundtrip Point.BASE makeED_heap). exact isPoint_base. Defined.

(** X21.  Whatever [fromHex] accepts is a point of the curve with coordinates
    in [0, p). *)
Theorem Point_fromHex_on_curve (hx : Hex) (h h' : ExtendedPoint.Heap) (Q : Point.point) :
  Point.fromHex hx h = (Ok Q, h') ->
  0 <= Point.x Q < CURVE.P /\ 0 <= Point.y Q < CURVE.P
  /\ (Point.y Q * Point.y Q - Point.x Q * Point.x Q) mod CURVE.P
     = (1 + CURVE.d * Point.x Q * Point.x Q * Point.y Q * Point.y Q) mod CURVE.P.
Proof.
  intros E. destruct (fromHex_isPoint hx h h' Q E) as [Hon [Hx Hy]].
  unfold coords in *. cbn [fst snd] in *.
  split; [ exact Hx | split; [ exact Hy | ] ].
  apply eqP_sub_0. unfold onCurve, curveEq in Hon. cbn [fst snd] in Hon.
  rewrite <- Hon. apply eqP_of_eq. ring.
Qed.

Lemma Point_fromHex_on_curve_witness :
  0 <= Point.x (Point.mk 0 1 3%nat) < CURVE.P /\ 0 <= Point.y (Point.mk 0 1 3%nat) < CURVE.P
  /\ (Point.y (Point.mk 0 1 3%nat) * Point.y (Point.mk 0 1 3%nat)
      - Point.x (Point.mk 0 1 3%nat) * Point.x (Point.mk 0 1 3%nat)) mod CURVE.P
     = (1 + CURVE.d * Point.x (Point.mk 0 1 3%nat) * Point.x (Point.mk 0 1 3%nat)
          * Point.y (Point.mk 0 1 3%nat) * Point.y (Point.mk 0 1 3%nat)) mod CURVE.P.
Proof.
  apply (Point_fromHex_on_curve (HexBytes (x01 :: repeat x00 31)) makeED_heap
           {| ExtendedPoint.next_ref := 4%nat;
              ExtendedPoint.WINDOW_SIZE := ExtendedPoint.WINDOW_SIZE makeED_heap;
              ExtendedPoint.pointPrecomputes := ExtendedPoint.pointPrecomputes makeED_heap |}
           (Point.mk 0 1 3%nat)).
  vm_compute. reflexivity.
Defined.

(** ** Keys and signatures (key-utils.ts, signing.ts) *)

(** X22.  The private scalar [encodePrivate] derives from a hash of at least 32
    bytes lies in [1, l): it is never 0, so multiplying the base point by
    it never fails. *)
Theorem encodePrivate_nonzero (privateBytes : bytes) :
  (32 <= List.length privateBytes)%nat ->
  0 < keyUtils.encodePrivate privateBytes < CURVE.n.
Proof. apply encodePrivate_range. Qed.

Lemma encodePrivate_nonzero_witness :
  0 < keyUtils.encodePrivate (repeat x00 64) < CURVE.n.
Proof. apply (encodePrivate_nonzero (repeat x00 64)). cbn. lia. Defined.

(** X23.  A signature (R, s) with R on the curve and 0 < s < l is written as 64
    bytes, and [Signature.fromHex] reads the same R and s back. *)
Theorem Signature_roundtrip (R : Point.point) (s : Z) (h : ExtendedPoint.Heap) :
  isPoint (coords R) -> 0 < s < CURVE.n ->
  exists (bs : bytes) (sig : Signature.signature) (h' : ExtendedPoint.Heap),
    Signature.toRawBytes (Signature.new R s) = Ok bs
    /\ List.length bs = 64%nat
    /\ Signature.fromHex (HexBytes bs) h = (Ok sig, h')
    /\ coords (Signature.r sig) = coords R
    /\ Signature.s sig = s.
Proof.
  intros HR Hs.
  destruct (Signature_toRawBytes_spec (Signature.new R s)) as (sb & Hl & Hv & E).
  { cbn [Signature.s]. pose proof order_bound. lia. }
  cbn [Signature.s Signature.r] in Hv, E.
  assert (Hy : 0 <= Point.y R < 2 ^ 255).
  { destruct HR as [_ [_ Hy]]. unfold coords in Hy. cbn [snd] in Hy.
    assert (CURVE.P < 2 ^ 255) by (vm_compute; reflexivity). lia. }
  destruct (toRawBytes_spec R Hy) as [Hlen _].
  eexists _, _, _. split; [ exact E | ].
  split; [ rewrite length_app, Hlen, Hl; reflexivity | ].
  split; [ apply (Signature_fromHex_encoded R sb h HR); rewrite Hv; exact Hs | ].
  split; [ reflexivity | exact Hv ].
Qed.

Lemma Signature_roundtrip_witness :
  exists (bs : bytes) (sig : Signature.signature) (h' : ExtendedPoint.Heap),
    Signature.toRawBytes (Signature.new Point.BASE 1) = Ok bs
    /\ List.length bs = 64%nat
    /\ Signature.fromHex (HexBytes bs) makeED_heap = (Ok sig, h')
    /\ coords (Signature.r sig) = coords Point.BASE
    /\ Signature.s sig = 1.
Proof.
  apply (Signature_roundtrip Point.BASE 1 makeED_heap).
  - exact isPoint_base.
  - vm_compute. split; congruence.
Defined.

(** [Signature.toRawBytes] throws a RangeError when s does not fit into
    32 bytes. *)
Theorem Signature_toRawBytes_rejects_large_s (sig : Signature.signature) :
  2 ^ 256 <= Signature.s sig ->
  Signature.toRawBytes sig = Throw (RangeError "offset is out of bounds").
Proof. apply Signature_toRawBytes_overflow. Qed.

Lemma Signature_toRawBytes_rejects_large_s_witness :
  Signature.toRawBytes (Signature.new Point.BASE (2 ^ 256))
  = Throw (RangeError "offset is out of bounds").
Proof.
  apply (Signature_toRawBytes_rejects_large_s (Signature.new Point.BASE (2 ^ 256))).
  cbn [Signature.s]. lia.
Defined.

(** A stand-in for SHA-512 used to instantiate the theorems below: every
    digest is 64 bytes 0x01. *)
Definition onesHash : Hash := fun _ => repeat x01 64.

Definition onesEnv : Env :=
  {| backend := JSBI; platformSha512 := Some onesHash; sha512Impl := Some onesHash |}.

Definition onesScalar : Z :=
  math.mod_ (serializer.bytesToNumberLE (repeat x01 64)) CURVE.n.

Lemma onesEnv_number (args : list bytes) : sha512ToNumberLE onesEnv args = Ok onesScalar.
Proof. reflexivity. Qed.

Lemma onesScalar_nonzero : onesScalar <> 0.
Proof. vm_compute. discriminate. Qed.

Lemma onesSignature_nonzero :
  (onesScalar + onesScalar * keyUtils.encodePrivate (repeat x01 64)) mod CURVE.n <> 0.
Proof. vm_compute. discriminate. Qed.





(** X26.  [verify] (JSBI back-end) on a signature (R, s) and a public key A,
    both points of the subgroup of order l, with s >= 1 and a challenge h
    that is not 0: it returns true exactly when [s]B = R + [h]A, and
    leaves the heap as it was. *)
Theorem verify_checks_equation (env : Env) (sig : Signature.signature) (pk : Point.point)
        (hash : Hex) (msg : bytes) (hs : Z) (h : ExtendedPoint.Heap) :
  backend env = JSBI ->
  ensureBytes hash = Ok msg ->
  inSubgroup (coords pk) -> inSubgroup (coords (Signature.r sig)) ->
  0 < Signature.s sig ->
  sha512ToNumberLE env [Point.toRawBytes (Signature.r sig); Point.toRawBytes pk; msg] = Ok hs ->
  hs <> 0 ->
  exists b : bool,
    verify env (SigObject sig) hash (PubPoint pk) h = (Ok b, h)
    /\ (b = true <->
        smul (Signature.s sig) basePoint
        = eadd (coords (Signature.r sig)) (smul hs (coords pk))).
Proof. apply verify_spec. Qed.

Lemma verify_checks_equation_witness :
  exists b : bool,
    verify onesEnv (SigObject (Signature.new Point.BASE 1)) (HexBytes []) (PubPoint Point.BASE)
      makeED_heap = (Ok b, makeED_heap)
    /\ (b = true <->
        smul (Signature.s (Signature.new Point.BASE 1)) basePoint
        = eadd (coords (Signature.r (Signature.new Point.BASE 1)))
               (smul onesScalar (coords Point.BASE))).
Proof.
  apply (verify_checks_equation onesEnv (Signature.new Point.BASE 1) Point.BASE (HexBytes [])
           [] onesScalar makeED_heap).
  - reflexivity.
  - reflexivity.
  - exact inSubgroup_base.
  - exact inSubgroup_base.
  - reflexivity.
  - apply onesEnv_number.
  - exact onesScalar_nonzero.
Defined.


(** ** Scalars and random scalars (scalars.ts, curve.ts) *)

Lemma Scalars_canonical_roundtrip_witness :
  Scalars.serializeScalar (Scalars.deserializeScalar (repeat x01 32)) = Ok (repeat x01 32).
Proof.
  apply (Scalars_canonical_roundtrip (repeat x01 32)).
  - reflexivity.
  - vm_compute. reflexivity.
Defined.

(** X30.  What [randomScalar] returns is one of the first 1024 samples of the
    generator, and its value lies strictly between 1 and l. *)
Theorem randomScalar_sound {G : Type} (randomBytes : RandGen G) (g g' : G) (b32 : bytes) :
  randomScalar randomBytes g = (Ok b32, g') ->
  1 < serializer.bytesToNumberLE b32 < CURVE.n
  /\ exists k : nat, (k < 1024)%nat /\ randomBytes 32 (draws k randomBytes g) = (b32, g').
Proof. apply randomScalar_loop_sound. Qed.

Lemma randomScalar_sound_witness :
  1 < serializer.bytesToNumberLE (repeat x01 32) < CURVE.n
  /\ exists k : nat,
       (k < 1024)%nat
       /\ (fun (_ : Z) (g : unit) => (repeat x01 32, g))
            32 (draws k (fun (_ : Z) (g : unit) => (repeat x01 32, g)) tt)
          = (repeat x01 32, tt).
Proof.
  apply (@randomScalar_sound unit (fun _ g => (repeat x01 32, g)) tt tt (repeat x01 32)).
  vm_compute. reflexivity.
Defined.

(** [randomScalar] returns the first valid sample, and throws after 1024
    rejected ones. *)
Lemma randomScalar_first_valid {G : Type} (randomBytes : RandGen G) (g : G) :
  (forall k : nat,
        (k < 1024)%nat ->
        (forall j : nat, (j < k)%nat ->
           validSample (fst (randomBytes 32 (draws j randomBytes g))) = false) ->
        validSample (fst (randomBytes 32 (draws k randomBytes g))) = true ->
        randomScalar randomBytes g
        = (Ok (fst (randomBytes 32 (draws k randomBytes g))),
           snd (randomBytes 32 (draws k randomBytes g))))
  /\ ((forall j : nat, (j < 1024)%nat ->
         validSample (fst (randomBytes 32 (draws j randomBytes g))) = false) ->
      randomScalar randomBytes g
      = (Throw (Error "Valid private key was not found in 1024 iterations. PRNG is broken"),
         draws 1024 randomBytes g)).
Proof.
  split.
  - intros k. apply randomScalar_loop_first.
  - apply randomScalar_loop_none.
Qed.
